(** * Device domains: the unification engine of the device planner

    A shallow embedding of [src/relay/transforms/device_domains.cc]
    (class [DeviceDomains]) and the properties of its union-find solver,
    domain factory, collapse operator, defaulting pass and diagnostics.

    Pointers ([DeviceDomainPtr], a [std::shared_ptr<DeviceDomain>]) are
    indices into an arena of immutable [DeviceDomain] records; pointer
    equality of the source is index equality here, and [nullptr] is [None].
    A failed [ICHECK] or [LOG(FATAL)] is the outcome [Fatal]; a loop or a
    recursion of the source that does not return is [OutOfFuel]. *)

From stdpp Require Import gmap strings list fin_maps pretty.

(** ** External collaborators *)

(** Relay types, as far as the planner looks at them: [type.as<FuncTypeNode>()]
    succeeds on [FuncType] only. *)
#[local] Unset Elimination Schemes.
Inductive Ty : Type :=
  | FuncType (arg_types : list Ty) (ret_type : Ty)
  | OtherType (tag : nat).
#[local] Set Elimination Schemes.

(** Modelled from the spec: the device-scope lattice [SEScope] is declared
    outside this file; the planner consumes exactly these capabilities
    (section 6 of the specification). *)
Class SEScopeOps (SEScope : Type) `{Countable SEScope} := {
  scope_IsFullyConstrained : SEScope → bool;
  scope_IsFullyUnconstrained : SEScope → bool;
  scope_FullyUnconstrained : SEScope;
  scope_Join : SEScope → SEScope → option SEScope;
  scope_Default : SEScope → SEScope → SEScope;
  scope_text : SEScope → string;
}.

(** Modelled from the spec: the compilation configuration supplies the host
    scope and the canonical representative of a scope. *)
Record CompilationConfig (SEScope : Type) := {
  host_se_scope : SEScope;
  CanonicalSEScope : SEScope → SEScope;
}.
Arguments host_se_scope {_} _.
Arguments CanonicalSEScope {_} _ _.

(** Expressions and calls, as far as the planner looks at them.  An
    expression has an identity (its address, the key of the caches) and a
    checked type; [callee_kind] records what [call->op] is compared with and
    tested for in [DomainForCallee]. *)
Inductive callee_kind : Type :=
  | alloc_storage_op | alloc_tensor_op | shape_of_op | invoke_tvm_op
  | reshape_tensor_op
  | OpNode          (* any other primitive operator *)
  | ConstructorNode
  | OtherNode.

Record Expr : Type := {
  expr_id : nat;
  checked_type : Ty;
  kind : callee_kind;
}.

(** Modelled from the spec: the results of [GetOnDeviceProps],
    [GetDeviceCopyProps] and [GetCallLoweredProps] and the attributes of an
    [alloc_storage] call are read off the call; [None] stands for a
    [body]/[lowered_func] that is not defined. *)
Record Call (SEScope : Type) : Type := {
  call_id : nat;
  op : Expr;
  args : list Expr;
  call_checked_type : Ty;
  on_device_props : option (Expr * SEScope * bool);
  device_copy_props : option (Expr * SEScope * SEScope);
  call_lowered_props : option Expr;
  alloc_storage_attrs : option SEScope;
}.
Arguments call_id {_} _.
Arguments op {_} _.
Arguments args {_} _.
Arguments call_checked_type {_} _.
Arguments on_device_props {_} _.
Arguments device_copy_props {_} _.
Arguments call_lowered_props {_} _.
Arguments alloc_storage_attrs {_} _.

(** ** Outcomes and the state monad of the class *)

Inductive result (A : Type) : Type :=
  | Ok (a : A)
  | Fatal
  | OutOfFuel.
Arguments Ok {A} a.
Arguments Fatal {A}.
Arguments OutOfFuel {A}.

Abbreviation ptr := nat (only parsing).

(** ** Chains of the equivalence table *)

(** [chain t n p r]: following the entries of [t] from [p] reaches, after
    [n] steps, the domain [r], which has no entry. *)
Inductive chain (t : gmap nat nat) : nat → nat → nat → Prop :=
  | chain_root p : t !! p = None → chain t 0 p p
  | chain_step n p q r : t !! p = Some q → chain t n q r → chain t (S n) p r.

Definition root_of (t : gmap nat nat) (p r : nat) : Prop := ∃ n, chain t n p r.

(** The invariant of the specification: from any domain the chain ends at
    a root. *)
Definition acyclic (t : gmap nat nat) : Prop := ∀ p, ∃ r, root_of t p r.

Definition same_class (t : gmap nat nat) (x y : nat) : Prop :=
  ∃ r, root_of t x r ∧ root_of t y r.


Section Domains.

Context {SEScope : Type} `{SEScopeOps SEScope}.
Variable config_ : CompilationConfig SEScope.

(** Modelled from the spec: the [DeviceDomain] record of [device_domains.h].
    A domain is first-order when [args_and_result_] is empty and then carries
    [se_scope_]; otherwise it is higher-order, parameters first, result last. *)
Record DeviceDomain : Type := {
  se_scope_ : SEScope;
  args_and_result_ : list ptr;
}.

Definition is_higher_order (d : DeviceDomain) : bool :=
  negb (bool_decide (args_and_result_ d = [])).

(** The members of [DeviceDomains]; [arena] is the set of [DeviceDomain]
    objects allocated so far, addressed by index. *)
Record DeviceDomains : Type := {
  arena : list DeviceDomain;
  host_domain_ : ptr;
  domain_to_equiv_ : gmap ptr ptr;
  fully_constrained_se_scope_to_domain_ : gmap SEScope ptr;
  expr_to_domain_ : gmap nat ptr;
  call_to_callee_domain_ : gmap nat ptr;
}.

Definition set_arena (a : list DeviceDomain) (s : DeviceDomains) : DeviceDomains :=
  {| arena := a; host_domain_ := host_domain_ s;
     domain_to_equiv_ := domain_to_equiv_ s;
     fully_constrained_se_scope_to_domain_ := fully_constrained_se_scope_to_domain_ s;
     expr_to_domain_ := expr_to_domain_ s;
     call_to_callee_domain_ := call_to_callee_domain_ s |}.

Definition set_equiv (t : gmap ptr ptr) (s : DeviceDomains) : DeviceDomains :=
  {| arena := arena s; host_domain_ := host_domain_ s;
     domain_to_equiv_ := t;
     fully_constrained_se_scope_to_domain_ := fully_constrained_se_scope_to_domain_ s;
     expr_to_domain_ := expr_to_domain_ s;
     call_to_callee_domain_ := call_to_callee_domain_ s |}.

Definition set_interned (t : gmap SEScope ptr) (s : DeviceDomains) : DeviceDomains :=
  {| arena := arena s; host_domain_ := host_domain_ s;
     domain_to_equiv_ := domain_to_equiv_ s;
     fully_constrained_se_scope_to_domain_ := t;
     expr_to_domain_ := expr_to_domain_ s;
     call_to_callee_domain_ := call_to_callee_domain_ s |}.

Definition set_expr_to_domain (t : gmap nat ptr) (s : DeviceDomains) : DeviceDomains :=
  {| arena := arena s; host_domain_ := host_domain_ s;
     domain_to_equiv_ := domain_to_equiv_ s;
     fully_constrained_se_scope_to_domain_ := fully_constrained_se_scope_to_domain_ s;
     expr_to_domain_ := t;
     call_to_callee_domain_ := call_to_callee_domain_ s |}.

Definition set_call_to_callee (t : gmap nat ptr) (s : DeviceDomains) : DeviceDomains :=
  {| arena := arena s; host_domain_ := host_domain_ s;
     domain_to_equiv_ := domain_to_equiv_ s;
     fully_constrained_se_scope_to_domain_ := fully_constrained_se_scope_to_domain_ s;
     expr_to_domain_ := expr_to_domain_ s;
     call_to_callee_domain_ := t |}.

Definition M (A : Type) : Type := DeviceDomains → result (A * DeviceDomains).

Definition ret {A} (a : A) : M A := λ s, Ok (a, s).
Definition fatal {A} : M A := λ _, Fatal.
Definition out_of_fuel {A} : M A := λ _, OutOfFuel.
Definition bind {A B} (m : M A) (k : A → M B) : M B :=
  λ s, match m s with
       | Ok (a, s') => k a s'
       | Fatal => Fatal
       | OutOfFuel => OutOfFuel
       end.
Definition lift {A} (f : DeviceDomains → A * DeviceDomains) : M A := λ s, Ok (f s).
Definition ICHECK (b : bool) : M unit := if b then ret tt else fatal.

Notation "'let*' x ':=' c 'in' k" := (bind c (λ x, k))
  (at level 10, x pattern, c at level 100, k at level 200).

(** Dereferencing a [shared_ptr]; an index outside the arena has no
    counterpart in the source and is reported as [Fatal]. *)
Definition deref (p : ptr) : M DeviceDomain :=
  λ s, match arena s !! p with
       | Some d => Ok (d, s)
       | None => Fatal
       end.

(** [std::make_shared<DeviceDomain>(...)]: the new object gets the next index. *)
Definition alloc (d : DeviceDomain) (s : DeviceDomains) : ptr * DeviceDomains :=
  (length (arena s), set_arena (arena s ++ [d]) s).

(** ** Domain factory *)

Definition MakeFirstOrderDomain (se_scope : SEScope) (s : DeviceDomains)
  : ptr * DeviceDomains :=
  if scope_IsFullyConstrained se_scope then
    match fully_constrained_se_scope_to_domain_ s !! se_scope with
    | Some domain => (domain, s)
    | None =>
        let '(domain, s1) := alloc {| se_scope_ := se_scope; args_and_result_ := [] |} s in
        (domain, set_interned (<[se_scope := domain]> (fully_constrained_se_scope_to_domain_ s1)) s1)
    end
  else alloc {| se_scope_ := se_scope; args_and_result_ := [] |} s.

(** Modelled from the spec: [MakeHigherOrderDomain] of [device_domains.h],
    direct construction from an already-built parts list (the scope field of
    a higher-order record is the fully unconstrained scope). *)
Definition MakeHigherOrderDomain (args_and_result : list ptr) (s : DeviceDomains)
  : ptr * DeviceDomains :=
  alloc {| se_scope_ := scope_FullyUnconstrained; args_and_result_ := args_and_result |} s.

Fixpoint MakeDomain (type : Ty) (se_scope : SEScope) (s : DeviceDomains)
  : ptr * DeviceDomains :=
  match type with
  | FuncType arg_types ret_type =>
      let fix args (tys : list Ty) (s : DeviceDomains) : list ptr * DeviceDomains :=
        match tys with
        | [] => ([], s)
        | arg_type :: tys' =>
            let '(d, s1) := MakeDomain arg_type scope_FullyUnconstrained s in
            let '(ds, s2) := args tys' s1 in
            (d :: ds, s2)
        end in
      let '(ds, s1) := args arg_types s in
      let '(r, s2) := MakeDomain ret_type se_scope s1 in
      MakeHigherOrderDomain (ds ++ [r]) s2
  | OtherType _ => MakeFirstOrderDomain se_scope s
  end.

(** The loop over [arg_types] in [MakeDomain], named for use in statements. *)
Fixpoint MakeDomain_args (tys : list Ty) (s : DeviceDomains) : list ptr * DeviceDomains :=
  match tys with
  | [] => ([], s)
  | arg_type :: tys' =>
      let '(d, s1) := MakeDomain arg_type scope_FullyUnconstrained s in
      let '(ds, s2) := MakeDomain_args tys' s1 in
      (d :: ds, s2)
  end.

(** Modelled from the spec: [Free] of [device_domains.h]. *)
Definition Free (type : Ty) (s : DeviceDomains) : ptr * DeviceDomains :=
  MakeDomain type scope_FullyUnconstrained s.

Definition ForSEScope (type : Ty) (non_canonical_se_scope : SEScope) : M ptr :=
  let se_scope := CanonicalSEScope config_ non_canonical_se_scope in
  let* _ := ICHECK (negb (scope_IsFullyUnconstrained se_scope)) in
  lift (MakeDomain type se_scope).

(** ** Union-find core *)

(** First loop of [Lookup]: follow the entries to the root. *)
Fixpoint find_root (fuel : nat) (t : gmap ptr ptr) (root : ptr) : result ptr :=
  match fuel with
  | 0 => OutOfFuel
  | S fuel' =>
      match t !! root with
      | None => Ok root
      | Some next =>
          if decide (next = root) then Fatal (* ICHECK_NE(itr->second, root) *)
          else find_root fuel' t next
      end
  end.

(** Second loop of [Lookup]: path compression. *)
Fixpoint compress (fuel : nat) (t : gmap ptr ptr) (domain root : ptr)
  : result (gmap ptr ptr) :=
  match fuel with
  | 0 => OutOfFuel
  | S fuel' =>
      if decide (domain = root) then Ok t
      else match t !! domain with
           | None => Fatal (* ICHECK(itr != domain_to_equiv_.end()) *)
           | Some next => compress fuel' (<[domain := root]> t) next root
           end
  end.

(** A chain without a cycle visits each key at most once, so one more
    iteration than there are entries is all an execution that returns
    can use. *)
Definition Lookup (domain : ptr) : M ptr :=
  λ s, let t := domain_to_equiv_ s in
       match find_root (S (size t)) t domain with
       | Ok root =>
           match compress (S (size t)) t domain root with
           | Ok t' => Ok (root, set_equiv t' s)
           | Fatal => Fatal
           | OutOfFuel => OutOfFuel
           end
       | Fatal => Fatal
       | OutOfFuel => OutOfFuel
       end.

(** [unordered_map::emplace]: no effect when the key is present. *)
Definition emplace {K V} `{Countable K} (k : K) (v : V) (t : gmap K V) : gmap K V :=
  match t !! k with
  | Some _ => t
  | None => <[k := v]> t
  end.

Definition emplace_equiv (k v : ptr) : M unit :=
  λ s, Ok (tt, set_equiv (emplace k v (domain_to_equiv_ s)) s).

(** The loop of the higher-order branch of [JoinOrNull]; [rhs] has as many
    parts as [lhs] there, so the indexing of [rhs] never leaves its vector. *)
Fixpoint join_parts (unify : ptr → ptr → M (option ptr)) (ls rs : list ptr)
  : M (option (list ptr)) :=
  match ls, rs with
  | [], _ => ret (Some [])
  | l :: ls', r :: rs' =>
      let* joined_domain := unify l r in
      match joined_domain with
      | None => ret None
      | Some j =>
          let* rest := join_parts unify ls' rs' in
          ret (cons j <$> rest)
      end
  | _ :: _, [] => fatal
  end.

Definition JoinOrNull_body (unify : ptr → ptr → M (option ptr)) (lhs rhs : ptr)
  : M (option ptr) :=
  if decide (lhs = rhs) then ret (Some lhs)
  else
    let* l := deref lhs in
    let* r := deref rhs in
    let* _ := ICHECK (bool_decide (length (args_and_result_ l) = length (args_and_result_ r))) in
    if bool_decide (args_and_result_ l = []) then
      if scope_IsFullyUnconstrained (se_scope_ r) then ret (Some lhs)
      else if scope_IsFullyUnconstrained (se_scope_ l) then ret (Some rhs)
      else match scope_Join (se_scope_ l) (se_scope_ r) with
           | None => ret None
           | Some joined_se_scope =>
               let* d := lift (MakeFirstOrderDomain (CanonicalSEScope config_ joined_se_scope)) in
               ret (Some d)
           end
    else
      let* parts := join_parts unify (args_and_result_ l) (args_and_result_ r) in
      match parts with
      | None => ret None
      | Some args_and_result =>
          let* d := lift (MakeHigherOrderDomain args_and_result) in
          ret (Some d)
      end.

Definition UnifyOrNull_body (join : ptr → ptr → M (option ptr)) (lhs rhs : ptr)
  : M (option ptr) :=
  let* lhs := Lookup lhs in
  let* rhs := Lookup rhs in
  let* joined_domain := join lhs rhs in
  match joined_domain with
  | None => ret None
  | Some j =>
      let* _ := (if decide (lhs = j) then ret tt else emplace_equiv lhs j) in
      let* _ := (if decide (rhs = j) then ret tt else emplace_equiv rhs j) in
      ret (Some j)
  end.

(** [UnifyOrNull] and [JoinOrNull] call each other; [fuel] bounds the
    nesting of these calls. *)
Fixpoint UnifyOrNull (fuel : nat) (lhs rhs : ptr) : M (option ptr) :=
  match fuel with
  | 0 => out_of_fuel
  | S fuel' => UnifyOrNull_body (JoinOrNull_body (UnifyOrNull fuel')) lhs rhs
  end.

Definition JoinOrNull (fuel : nat) (lhs rhs : ptr) : M (option ptr) :=
  JoinOrNull_body (UnifyOrNull fuel) lhs rhs.

(** ** Collapse *)

(** Modelled from the spec: the accessors of [DeviceDomain] in
    [device_domains.h]; the arity of a higher-order domain is its length
    minus one, the result is its last part. *)
Definition function_params (d : DeviceDomain) : list ptr := removelast (args_and_result_ d).
Definition function_result (d : DeviceDomain) : option ptr := last (args_and_result_ d).
Definition function_arity (d : DeviceDomain) : nat := length (args_and_result_ d) - 1.

(** The loop of [CollapseOrFalse] over the parameters. *)
Fixpoint collapse_params (fuel : nat) (params : list ptr) (first_order_domain : ptr)
  : M bool :=
  match params with
  | [] => ret true
  | p :: params' =>
      let* u := UnifyOrNull fuel p first_order_domain in
      match u with
      | None => ret false
      | Some _ => collapse_params fuel params' first_order_domain
      end
  end.

Definition CollapseOrFalse (fuel : nat) (first_order_domain higher_order_domain : ptr)
  : M bool :=
  let* fo := deref first_order_domain in
  let* ho := deref higher_order_domain in
  let* _ := ICHECK (negb (is_higher_order fo)) in
  let* _ := ICHECK (is_higher_order ho) in
  let* ok := collapse_params fuel (function_params ho) first_order_domain in
  if ok then
    match function_result ho with
    | None => fatal
    | Some res =>
        let* u := UnifyOrNull fuel res first_order_domain in
        ret (bool_decide (u ≠ None))
    end
  else ret false.

Definition UnifyCollapsedOrFalse (fuel : nat) (lhs_first_order rhs_maybe_higher_order : ptr)
  : M bool :=
  let* l := deref lhs_first_order in
  let* r := deref rhs_maybe_higher_order in
  let* _ := ICHECK (negb (is_higher_order l)) in
  if is_higher_order r then
    CollapseOrFalse fuel lhs_first_order rhs_maybe_higher_order
  else
    let* u := UnifyOrNull fuel lhs_first_order rhs_maybe_higher_order in
    ret (bool_decide (u ≠ None)).

(** ** Expression cache and call-signature synthesis *)

Definition DomainFor (expr : Expr) : M ptr :=
  λ s, match expr_to_domain_ s !! expr_id expr with
       | Some d => Lookup d s
       | None =>
           let '(domain, s1) := Free (checked_type expr) s in
           Ok (domain, set_expr_to_domain (emplace (expr_id expr) domain (expr_to_domain_ s1)) s1)
       end.

(** The loop of the constructor branch of [DomainForCallee]. *)
Fixpoint constructor_params (fuel : nat) (result_domain : ptr) (arg_types : list Ty)
  : M (list ptr) :=
  match arg_types with
  | [] => ret []
  | arg_type :: arg_types' =>
      let* param_domain := lift (Free arg_type) in
      let* success := UnifyCollapsedOrFalse fuel result_domain param_domain in
      let* _ := ICHECK success in
      let* rest := constructor_params fuel result_domain arg_types' in
      ret (param_domain :: rest)
  end.

Definition finish_callee (call : Call SEScope) (args_and_result : list ptr) : M ptr :=
  let* domain := lift (MakeHigherOrderDomain args_and_result) in
  λ s, Ok (domain, set_call_to_callee (emplace (call_id call) domain (call_to_callee_domain_ s)) s).

Definition DomainForCallee (fuel : nat) (call : Call SEScope) : M ptr :=
  λ s,
  match call_to_callee_domain_ s !! call_id call with
  | Some d => Lookup d s
  | None =>
    (match on_device_props call, device_copy_props call with
     | Some (body, se_scope, is_fixed), _ =>
         let* a := ForSEScope (checked_type body) se_scope in
         if is_fixed then finish_callee call [a; a]
         else
           let* r := lift (Free (checked_type body)) in
           finish_callee call [a; r]
     | None, Some (body, src_se_scope, dst_se_scope) =>
         let* a := ForSEScope (checked_type body) src_se_scope in
         let* r := ForSEScope (checked_type body) dst_se_scope in
         finish_callee call [a; r]
     | None, None =>
         match kind (op call) with
         | alloc_storage_op =>
             let* _ := ICHECK (bool_decide (length (args call) = 2)) in
             match alloc_storage_attrs call with
             | None => fatal
             | Some se_scope =>
                 let* host := (λ s, Ok (host_domain_ s, s)) in
                 let* r := ForSEScope (call_checked_type call) se_scope in
                 finish_callee call [host; host; r]
             end
         | alloc_tensor_op =>
             let* _ := ICHECK (bool_decide (length (args call) = 3)) in
             let* free_domain := lift (Free (call_checked_type call)) in
             let* host := (λ s, Ok (host_domain_ s, s)) in
             finish_callee call [free_domain; host; host; free_domain]
         | shape_of_op =>
             let* _ := ICHECK (bool_decide (length (args call) = 1)) in
             match args call with
             | [] => fatal
             | arg0 :: _ =>
                 let* a := lift (Free (checked_type arg0)) in
                 let* host := (λ s, Ok (host_domain_ s, s)) in
                 finish_callee call [a; host]
             end
         | invoke_tvm_op =>
             let* _ := ICHECK (bool_decide (length (args call) = 3)) in
             match args call with
             | [] => fatal
             | arg0 :: _ =>
                 let* free_domain := lift (Free (call_checked_type call)) in
                 let* a := lift (Free (checked_type arg0)) in
                 finish_callee call [a; free_domain; free_domain; free_domain]
             end
         | reshape_tensor_op =>
             let* _ := ICHECK (bool_decide (length (args call) = 2)) in
             let* free_domain := lift (Free (call_checked_type call)) in
             let* host := (λ s, Ok (host_domain_ s, s)) in
             finish_callee call [free_domain; host; free_domain]
         | OpNode =>
             let* free_domain := lift (MakeFirstOrderDomain scope_FullyUnconstrained) in
             finish_callee call (replicate (length (args call)) free_domain ++ [free_domain])
         | ConstructorNode =>
             match checked_type (op call) with
             | OtherType _ => fatal (* ICHECK_NOTNULL(func_type_node) *)
             | FuncType arg_types ret_type =>
                 let* _ := ICHECK (bool_decide (length arg_types = length (args call))) in
                 let* result_domain := lift (Free ret_type) in
                 let* params := constructor_params fuel result_domain arg_types in
                 finish_callee call (params ++ [result_domain])
             end
         | OtherNode =>
             match call_lowered_props call with
             | Some lowered_func => DomainFor lowered_func
             | None => DomainFor (op call)
             end
         end
     end) s
  end.

(** The fatal entry points: [LOG(FATAL)] on a failed unification. *)
Definition UnifyExprExact (fuel : nat) (lhs rhs : Expr) : M unit :=
  let* lhs_domain := DomainFor lhs in
  let* rhs_domain := DomainFor rhs in
  let* u := UnifyOrNull fuel lhs_domain rhs_domain in
  ICHECK (bool_decide (u ≠ None)).

Definition UnifyExprExact_domain (fuel : nat) (expr : Expr) (expected_domain : ptr) : M unit :=
  let* actual_domain := DomainFor expr in
  let* u := UnifyOrNull fuel actual_domain expected_domain in
  ICHECK (bool_decide (u ≠ None)).

Definition UnifyExprCollapsed (fuel : nat) (expr_first_order : Expr)
    (expected_domain_maybe_higher_order : ptr) : M unit :=
  let* actual_domain_first_order := DomainFor expr_first_order in
  let* ok := UnifyCollapsedOrFalse fuel actual_domain_first_order
               expected_domain_maybe_higher_order in
  ICHECK ok.

(** The constructor: an empty solver whose host domain is pinned to the
    host scope of the configuration. *)
Definition empty_domains : DeviceDomains :=
  {| arena := []; host_domain_ := 0; domain_to_equiv_ := ∅;
     fully_constrained_se_scope_to_domain_ := ∅;
     expr_to_domain_ := ∅; call_to_callee_domain_ := ∅ |}.

Definition new_DeviceDomains : DeviceDomains :=
  let '(h, s) := MakeFirstOrderDomain (host_se_scope config_) empty_domains in
  {| arena := arena s; host_domain_ := h; domain_to_equiv_ := domain_to_equiv_ s;
     fully_constrained_se_scope_to_domain_ := fully_constrained_se_scope_to_domain_ s;
     expr_to_domain_ := expr_to_domain_ s;
     call_to_callee_domain_ := call_to_callee_domain_ s |}.

(** ** Full-constraint test, result leaf, defaulting *)

(** [std::all_of] with an effectful predicate: stops at the first failure. *)
Fixpoint all_of {A} (pred : A → M bool) (l : list A) : M bool :=
  match l with
  | [] => ret true
  | x :: l' =>
      let* b := pred x in
      if b then all_of pred l' else ret false
  end.

(** A range-based [for] loop with an effectful body. *)
Fixpoint for_each {A} (body : A → M unit) (l : list A) : M unit :=
  match l with
  | [] => ret tt
  | x :: l' =>
      let* _ := body x in
      for_each body l'
  end.

Fixpoint IsFullyConstrained (fuel : nat) (domain : ptr) : M bool :=
  match fuel with
  | 0 => out_of_fuel
  | S fuel' =>
      let* domain := Lookup domain in
      let* d := deref domain in
      if bool_decide (args_and_result_ d = []) then
        ret (scope_IsFullyConstrained (se_scope_ d))
      else
        all_of (λ sub_domain, IsFullyConstrained fuel' sub_domain) (args_and_result_ d)
  end.

(** The loop of [ResultDomain]; [domain] has been looked up already. *)
Fixpoint ResultDomain_loop (fuel : nat) (domain : ptr) : M ptr :=
  match fuel with
  | 0 => out_of_fuel
  | S fuel' =>
      let* d := deref domain in
      match last (args_and_result_ d) with
      | None => ret domain
      | Some back =>
          let* domain := Lookup back in
          ResultDomain_loop fuel' domain
      end
  end.

Definition ResultDomain (fuel : nat) (domain : ptr) : M ptr :=
  let* domain := Lookup domain in
  ResultDomain_loop fuel domain.

(** Modelled from the spec: [ResultSEScope] of [device_domains.h], the scope
    of the innermost first-order result leaf. *)
Definition ResultSEScope (fuel : nat) (domain : ptr) : M SEScope :=
  let* r := ResultDomain fuel domain in
  let* d := deref r in
  let* _ := ICHECK (bool_decide (args_and_result_ d = [])) in
  ret (se_scope_ d).

Fixpoint SetDefault (fuel : nat) (domain : ptr) (default_se_scope : SEScope) : M unit :=
  match fuel with
  | 0 => out_of_fuel
  | S fuel' =>
      let* _ := ICHECK (negb (scope_IsFullyUnconstrained default_se_scope)) in
      let* domain := Lookup domain in
      let* d := deref domain in
      if bool_decide (args_and_result_ d = []) then
        let* fresh := lift (MakeFirstOrderDomain
                              (CanonicalSEScope config_
                                 (scope_Default (se_scope_ d) default_se_scope))) in
        let* defaulted_domain_ptr := UnifyOrNull fuel domain fresh in
        ICHECK (bool_decide (defaulted_domain_ptr ≠ None))
      else
        for_each (λ sub_domain, SetDefault fuel' sub_domain default_se_scope)
          (args_and_result_ d)
  end.

Definition SetResultDefaultThenParams (fuel : nat) (domain_maybe_higher_order : ptr)
    (default_se_scope : SEScope) : M unit :=
  let* d := deref domain_maybe_higher_order in
  if bool_decide (args_and_result_ d = []) then
    SetDefault fuel domain_maybe_higher_order default_se_scope
  else
    let* r := ResultDomain fuel domain_maybe_higher_order in
    let* _ := SetDefault fuel r default_se_scope in
    let* result_se_scope := ResultSEScope fuel domain_maybe_higher_order in
    SetDefault fuel domain_maybe_higher_order result_se_scope.

(** ** Diagnostics *)

(** The text of a first-order domain: the address of the node between
    question marks unless the scope is fully constrained, then the scope
    unless it is fully unconstrained. *)
Definition first_order_text (domain : ptr) (d : DeviceDomain) : string :=
  ((if negb (scope_IsFullyConstrained (se_scope_ d))
    then "?" +:+ pretty domain +:+ "?" else "")
   +:+
   (if negb (scope_IsFullyUnconstrained (se_scope_ d))
    then scope_text (se_scope_ d) else ""))%string.

Fixpoint ToString (fuel : nat) (domain : ptr) : M string :=
  match fuel with
  | 0 => out_of_fuel
  | S fuel' =>
      let* domain := Lookup domain in
      let* d := deref domain in
      match last (args_and_result_ d) with
      | None => ret (first_order_text domain d)
      | Some back =>
          let* params :=
            (fix loop (i : nat) (subs : list ptr) : M string :=
               match subs with
               | [] => ret ""
               | sub :: subs' =>
                   let* t := ToString fuel' sub in
                   let* rest := loop (S i) subs' in
                   ret ((if decide (0 < i) then "," else "") +:+ t +:+ rest)
               end) 0 (removelast (args_and_result_ d)) in
          let* res := ToString fuel' back in
          ret ("fn(" +:+ params +:+ "):" +:+ res)
      end
  end.

(** ** Notions used in the statements *)

Definition valid (s : DeviceDomains) (p : ptr) : Prop := p < length (arena s).

(** The nesting depth of a domain: 0 for a first-order domain, one more than
    the deepest part for a higher-order one.  The parts of a domain are
    allocated before it, so the depths are computed along the arena. *)
Definition node_depth (ds : list nat) (d : DeviceDomain) : nat :=
  match args_and_result_ d with
  | [] => 0
  | _ => S (max_list ((λ c, default 0 (ds !! c)) <$> args_and_result_ d))
  end.

Definition depths (a : list DeviceDomain) : list nat :=
  fold_left (λ acc d, acc ++ [node_depth acc d]) a [].

Definition depth (a : list DeviceDomain) (p : ptr) : nat := default 0 (depths a !! p).

(** The parts of a domain are allocated before the domain. *)
Definition parts_wf (a : list DeviceDomain) : Prop :=
  ∀ p d, a !! p = Some d → Forall (λ c, c < p) (args_and_result_ d).

(** The scope a domain resolves to: the scope of its root. *)
Definition resolved (s : DeviceDomains) (p : ptr) (sc : SEScope) : Prop :=
  ∃ r d, root_of (domain_to_equiv_ s) p r ∧ arena s !! r = Some d ∧
         args_and_result_ d = [] ∧ se_scope_ d = sc.

(** A domain that resolves to a fully unconstrained scope. *)
Definition free_resolved (s : DeviceDomains) (p : ptr) : Prop :=
  ∃ sc, resolved s p sc ∧ scope_IsFullyUnconstrained sc = true.

(** The first-order branch of [JoinOrNull], read on scopes. *)
Definition first_order_join (l r : SEScope) : option SEScope :=
  if scope_IsFullyUnconstrained r then Some l
  else if scope_IsFullyUnconstrained l then Some r
  else CanonicalSEScope config_ <$> scope_Join l r.

(** What the planner relies on from the scope lattice: the fully
    unconstrained scope is recognised as such, a fully constrained scope is
    not fully unconstrained, and joining a fully constrained scope with a
    compatible one gives that scope back. *)
Record ScopeLaws : Prop := {
  unconstrained_is_unconstrained :
    scope_IsFullyUnconstrained scope_FullyUnconstrained = true;
  constrained_not_unconstrained sc :
    scope_IsFullyConstrained sc = true → scope_IsFullyUnconstrained sc = false;
  join_constrained_l a b c :
    scope_IsFullyConstrained a = true → scope_Join a b = Some c →
    CanonicalSEScope config_ c = a;
  join_constrained_r a b c :
    scope_IsFullyConstrained b = true → scope_Join a b = Some c →
    CanonicalSEScope config_ c = b;
}.

(** The lattice's [Default] leaves a fully constrained scope untouched and
    resolves a fully unconstrained one to the fallback. *)
Record DefaultLaws : Prop := {
  default_constrained a b : scope_IsFullyConstrained a = true → scope_Default a b = a;
  default_unconstrained a b : scope_IsFullyUnconstrained a = true → scope_Default a b = b;
}.

(** The join of the lattice computes least upper bounds of an order. *)
Record JoinIsLub (le : SEScope → SEScope → Prop) : Prop := {
  lub_refl a : le a a;
  lub_trans a b c : le a b → le b c → le a c;
  lub_join a b c : first_order_join a b = Some c →
    le a c ∧ le b c ∧ ∀ u, le a u → le b u → le c u;
}.

Definition is_lub (le : SEScope → SEScope → Prop) (scs : list SEScope) (c : SEScope) : Prop :=
  Forall (λ a, le a c) scs ∧ ∀ u, Forall (λ a, le a u) scs → le c u.

(** The arena only grows and the caches other than the equivalence table
    keep their entries. *)
Record extends (s s' : DeviceDomains) : Prop := {
  ext_arena : arena s `prefix_of` arena s';
  ext_interned : fully_constrained_se_scope_to_domain_ s ⊆ fully_constrained_se_scope_to_domain_ s';
  ext_dom : dom (domain_to_equiv_ s) ⊆ dom (domain_to_equiv_ s');
}.

(** The invariant of the solver state. *)
Record Inv (s : DeviceDomains) : Prop := {
  inv_parts : parts_wf (arena s);
  inv_entries k v : domain_to_equiv_ s !! k = Some v →
    k < length (arena s) ∧ v < length (arena s) ∧ k ≠ v;
  inv_acyclic : acyclic (domain_to_equiv_ s);
  inv_depth k v : domain_to_equiv_ s !! k = Some v → depth (arena s) k = depth (arena s) v;
  inv_interned sc p : fully_constrained_se_scope_to_domain_ s !! sc = Some p →
    arena s !! p = Some {| se_scope_ := sc; args_and_result_ := [] |} ∧
    scope_IsFullyConstrained sc = true;
  inv_interned_all p d : arena s !! p = Some d → args_and_result_ d = [] →
    scope_IsFullyConstrained (se_scope_ d) = true →
    fully_constrained_se_scope_to_domain_ s !! se_scope_ d = Some p;
  inv_constrained_root p d : arena s !! p = Some d → args_and_result_ d = [] →
    scope_IsFullyConstrained (se_scope_ d) = true →
    domain_to_equiv_ s !! p = None;
}.

(** What every operation of the solver guarantees about the state it
    leaves: the invariant, growth, roots that stay roots keep their class,
    and classes are never split. *)
Record step_ok (s s' : DeviceDomains) : Prop := {
  so_inv : Inv s';
  so_ext : extends s s';
  so_stable x rx :
    root_of (domain_to_equiv_ s) x rx → domain_to_equiv_ s' !! rx = None →
    root_of (domain_to_equiv_ s') x rx;
  so_class x y :
    same_class (domain_to_equiv_ s) x y → same_class (domain_to_equiv_ s') x y;
}.

(** Every domain that got an entry between [s] and [s'] has depth below [n]. *)
Definition new_keys_below (s s' : DeviceDomains) (n : nat) : Prop :=
  ∀ k, domain_to_equiv_ s !! k = None → is_Some (domain_to_equiv_ s' !! k) →
       depth (arena s') k < n.

(** What a successful [JoinOrNull] of two roots guarantees, and what any
    call of it that returns guarantees. *)
Definition Join_post (l r : ptr) (s : DeviceDomains) (res : option ptr) (s' : DeviceDomains)
  : Prop :=
  step_ok s s' ∧ new_keys_below s s' (depth (arena s) l) ∧
  ∀ j, res = Some j →
    valid s' j ∧ domain_to_equiv_ s' !! j = None ∧
    depth (arena s') j = depth (arena s) l ∧
    depth (arena s) r = depth (arena s) l ∧
    (∀ d, arena s !! l = Some d → args_and_result_ d = [] →
          scope_IsFullyConstrained (se_scope_ d) = true → j = l) ∧
    (∀ d, arena s !! r = Some d → args_and_result_ d = [] →
          scope_IsFullyConstrained (se_scope_ d) = true → j = r) ∧
    (l = r → j = l).

(** The same for [UnifyOrNull]: on success both sides end below the
    joined domain, which is a root. *)
Definition Unify_post (lhs rhs : ptr) (s : DeviceDomains) (res : option ptr)
    (s' : DeviceDomains) : Prop :=
  step_ok s s' ∧ new_keys_below s s' (S (depth (arena s) lhs)) ∧
  ∀ j, res = Some j →
    valid s' j ∧ domain_to_equiv_ s' !! j = None ∧
    root_of (domain_to_equiv_ s') lhs j ∧ root_of (domain_to_equiv_ s') rhs j ∧
    depth (arena s') j = depth (arena s) lhs ∧
    depth (arena s) rhs = depth (arena s) lhs.

Definition Unify_spec (unify : ptr → ptr → M (option ptr)) : Prop :=
  ∀ lhs rhs s res s',
    Inv s → valid s lhs → valid s rhs → unify lhs rhs s = Ok (res, s') →
    Unify_post lhs rhs s res s'.

(** What a factory call guarantees: the invariant, growth, an unchanged
    equivalence table and a domain of the arena. *)
Definition factory_post (s : DeviceDomains) (p : ptr) (s' : DeviceDomains) : Prop :=
  Inv s' ∧ extends s s' ∧ domain_to_equiv_ s' = domain_to_equiv_ s ∧ valid s' p.

(** The states of the solver: the constructor's state, and any state that
    the factory, [Lookup] and [UnifyOrNull] produce from one on domains of
    the arena. *)
Inductive reachable : DeviceDomains → Prop :=
  | reachable_new : reachable new_DeviceDomains
  | reachable_MakeFirstOrderDomain s sc :
      reachable s → reachable (MakeFirstOrderDomain sc s).2
  | reachable_MakeDomain s ty sc :
      reachable s → reachable (MakeDomain ty sc s).2
  | reachable_MakeHigherOrderDomain s parts :
      reachable s → Forall (valid s) parts → reachable (MakeHigherOrderDomain parts s).2
  | reachable_Lookup s p r s' :
      reachable s → valid s p → Lookup p s = Ok (r, s') → reachable s'
  | reachable_UnifyOrNull s fuel lhs rhs res s' :
      reachable s → valid s lhs → valid s rhs →
      UnifyOrNull fuel lhs rhs s = Ok (res, s') → reachable s'.

(** A domain shaped by a type, all of whose first-order leaves are fresh
    (allocated at or after [old]) and fully unconstrained. *)
Fixpoint free_shaped (a : list DeviceDomain) (old : nat) (type : Ty) (p : ptr) : Prop :=
  match type with
  | FuncType arg_types ret_type =>
      ∃ ps r, a !! p = Some {| se_scope_ := scope_FullyUnconstrained;
                               args_and_result_ := ps ++ [r] |} ∧
              old ≤ p ∧
              (fix all (tys : list Ty) (ps : list ptr) : Prop :=
                 match tys, ps with
                 | [], [] => True
                 | ty :: tys', q :: ps' => free_shaped a old ty q ∧ all tys' ps'
                 | _, _ => False
                 end) arg_types ps ∧
              free_shaped a old ret_type r
  | OtherType _ =>
      a !! p = Some {| se_scope_ := scope_FullyUnconstrained; args_and_result_ := [] |} ∧
      old ≤ p
  end.

(** What the specification means by the first-order domain unifying with
    every one of the given positions in declared order: each unification
    succeeds, and each runs in the state the one before it left. *)
Inductive unifies_with_each (fuel : nat) (first_order_domain : ptr) :
    list ptr → DeviceDomains → DeviceDomains → Prop :=
  | unifies_with_none s :
      unifies_with_each fuel first_order_domain [] s s
  | unifies_with_next p parts j s s1 s' :
      UnifyOrNull fuel p first_order_domain s = Ok (Some j, s1) →
      unifies_with_each fuel first_order_domain parts s1 s' →
      unifies_with_each fuel first_order_domain (p :: parts) s s'.

(** The same as a function, which also says what happens when a
    unification fails or aborts: the first-order domain is unified against
    every part in declared order and the first failure ends the run. *)
Fixpoint unify_with_all (fuel : nat) (parts : list ptr) (first_order_domain : ptr) : M bool :=
  match parts with
  | [] => ret true
  | p :: parts' =>
      let* u := UnifyOrNull fuel p first_order_domain in
      match u with
      | None => ret false
      | Some _ => unify_with_all fuel parts' first_order_domain
      end
  end.

(** The order of a type: 0 when it is not a function type. *)
Fixpoint type_order (type : Ty) : nat :=
  match type with
  | FuncType arg_types ret_type =>
      S (max (max_list (type_order <$> arg_types)) (type_order ret_type))
  | OtherType _ => 0
  end.

End Domains.

(** ** Further notions used in the statements *)

Section Notions.

Context {SEScope : Type} `{SEScopeOps SEScope}.
Variable config_ : CompilationConfig SEScope.

Local Abbreviation state := (@DeviceDomains SEScope _ _).
Local Abbreviation domain := (@DeviceDomain SEScope).
Local Abbreviation Mon := (@M SEScope _ _).

(** The members of the class that the solver core leaves alone. *)
Definition solver_frame (s s' : state) : Prop :=
  host_domain_ s' = host_domain_ s ∧
  expr_to_domain_ s' = expr_to_domain_ s ∧
  call_to_callee_domain_ s' = call_to_callee_domain_ s.

Definition keeps_caches {A} (m : Mon A) : Prop :=
  ∀ s a s', m s = Ok (a, s') → solver_frame s s'.

(** Every cached domain is a domain of the arena. *)
Definition caches_valid (s : state) : Prop :=
  (∀ e d, expr_to_domain_ s !! e = Some d → valid s d) ∧
  (∀ c d, call_to_callee_domain_ s !! c = Some d → valid s d).

(** What building the signature of a call guarantees: a domain with
    [n + 1] parts, recorded for the call. *)
Definition callee_post (call : Call SEScope) (n : nat) (m : Mon nat) : Prop :=
  ∀ s (d : nat) s', call_to_callee_domain_ s !! call_id call = None → m s = Ok (d, s') →
    ∃ dd : domain, arena s' !! d = Some dd ∧ length (args_and_result_ dd) = S n ∧
                   call_to_callee_domain_ s' !! call_id call = Some d.

(** A computation that returns a root of the equivalence table when it is
    started in a state that satisfies [Q]. *)
Definition returns_root (Q : state → Prop) (m : Mon nat) : Prop :=
  ∀ s (d : nat) s', Q s → m s = Ok (d, s') → domain_to_equiv_ s' !! d = None.

(** The first-order leaves of a domain: the roots reached from it through
    the parts of higher-order roots. *)
Inductive leaf_of (s : state) : nat → nat → Prop :=
  | leaf_here (p r : nat) (d : domain) :
      root_of (domain_to_equiv_ s) p r → arena s !! r = Some d →
      args_and_result_ d = [] → leaf_of s p r
  | leaf_part (p r : nat) (d : domain) (c l : nat) :
      root_of (domain_to_equiv_ s) p r → arena s !! r = Some d →
      c ∈ args_and_result_ d → leaf_of s c l → leaf_of s p l.

(** Every first-order leaf of a domain has a fully constrained scope. *)
Definition leaves_constrained (s : state) (p : nat) : Prop :=
  ∀ (l : nat) (dl : domain), leaf_of s p l → arena s !! l = Some dl →
    scope_IsFullyConstrained (se_scope_ dl) = true.

(** A domain that resolves to a fully constrained scope. *)
Definition constrained_resolved (s : state) (z : nat) : Prop :=
  ∃ sc, resolved s z sc ∧ scope_IsFullyConstrained sc = true.

(** What defaulting relies on from the lattice: defaulting any scope with a
    fully constrained fallback gives a fully constrained scope, with which
    the scope joins. *)
Record DefaultCompletes : Prop := {
  default_fully_constrained a b :
    scope_IsFullyConstrained b = true →
    scope_IsFullyConstrained (CanonicalSEScope config_ (scope_Default a b)) = true;
  default_joins a b :
    scope_IsFullyConstrained b = true → scope_IsFullyUnconstrained a = false →
    is_Some (scope_Join a (CanonicalSEScope config_ (scope_Default a b)));
}.

(** What a defaulting step guarantees: only first-order domains get new
    entries, and a domain that resolved to a fully constrained scope still
    resolves to one. *)
Definition default_step (s s' : state) : Prop :=
  step_ok s s' ∧ new_keys_below s s' 1 ∧
  ∀ z, constrained_resolved s z → constrained_resolved s' z.


(** The innermost result leaf of a domain: the root reached by following
    the last part of every higher-order root on the way. *)
Inductive result_leaf (s : state) : nat → nat → Prop :=
  | result_here (p r : nat) (d : domain) :
      root_of (domain_to_equiv_ s) p r → arena s !! r = Some d →
      args_and_result_ d = [] → result_leaf s p r
  | result_back (p r : nat) (d : domain) (back l : nat) :
      root_of (domain_to_equiv_ s) p r → arena s !! r = Some d →
      last (args_and_result_ d) = Some back → result_leaf s back l → result_leaf s p l.


(** Running a computation over a list of domains from left to right,
    threading the state, and collecting the results. *)
Inductive rendered (f : nat → Mon string) : list nat → state → list string → state → Prop :=
  | rendered_nil s : rendered f [] s [] s
  | rendered_cons (p : nat) ps s t s1 ts s2 :
      f p s = Ok (t, s1) → rendered f ps s1 ts s2 → rendered f (p :: ps) s (t :: ts) s2.

End Notions.

(** ** A concrete scope lattice

    Scopes with four optional fields, in the manner of a virtual device:
    device type, virtual device id, target and memory scope.  A scope is
    fully constrained when every field is given and fully unconstrained
    when none is; two scopes join field by field when they do not disagree;
    [Default] fills the missing fields from the fallback. *)
Record VScope : Type := {
  device_type : option nat;
  virtual_device_id : option nat;
  target : option nat;
  memory_scope : option nat;
}.

#[global] Instance VScope_eq_dec : EqDecision VScope.
Proof. solve_decision. Defined.

#[global] Instance VScope_countable : Countable VScope.
Proof.
  refine (inj_countable'
            (λ v, (device_type v, virtual_device_id v, target v, memory_scope v))
            (λ t, let '(a, b, c, d) := t in
                  {| device_type := a; virtual_device_id := b;
                     target := c; memory_scope := d |}) _).
  by intros [].
Defined.

Definition join_field (a b : option nat) : option (option nat) :=
  match a, b with
  | Some x, Some y => if decide (x = y) then Some (Some x) else None
  | Some x, None => Some (Some x)
  | None, _ => Some b
  end.

Definition default_field (a b : option nat) : option nat :=
  match a with
  | Some x => Some x
  | None => b
  end.

Definition field_text (name : string) (a : option nat) : string :=
  match a with
  | Some x => name +:+ "=" +:+ pretty x +:+ ";"
  | None => ""
  end.

Definition VScope_unconstrained : VScope :=
  {| device_type := None; virtual_device_id := None; target := None; memory_scope := None |}.

Definition VScope_join (a b : VScope) : option VScope :=
  match join_field (device_type a) (device_type b),
        join_field (virtual_device_id a) (virtual_device_id b),
        join_field (target a) (target b),
        join_field (memory_scope a) (memory_scope b) with
  | Some d, Some v, Some t, Some m =>
      Some {| device_type := d; virtual_device_id := v; target := t; memory_scope := m |}
  | _, _, _, _ => None
  end.

#[global] Instance VScope_ops : SEScopeOps VScope := {
  scope_IsFullyConstrained v :=
    bool_decide (is_Some (device_type v)) && bool_decide (is_Some (virtual_device_id v))
    && bool_decide (is_Some (target v)) && bool_decide (is_Some (memory_scope v));
  scope_IsFullyUnconstrained v := bool_decide (v = VScope_unconstrained);
  scope_FullyUnconstrained := VScope_unconstrained;
  scope_Join := VScope_join;
  scope_Default a b :=
    {| device_type := default_field (device_type a) (device_type b);
       virtual_device_id := default_field (virtual_device_id a) (virtual_device_id b);
       target := default_field (target a) (target b);
       memory_scope := default_field (memory_scope a) (memory_scope b) |};
  scope_text v :=
    field_text "device_type" (device_type v) +:+ field_text "id" (virtual_device_id v)
    +:+ field_text "target" (target v) +:+ field_text "memory_scope" (memory_scope v);
}.

(** Field-wise order of the concrete lattice. *)
Definition field_le (a b : option nat) : Prop :=
  match a with
  | Some x => b = Some x
  | None => True
  end.

Definition VScope_le (a b : VScope) : Prop :=
  field_le (device_type a) (device_type b) ∧
  field_le (virtual_device_id a) (virtual_device_id b) ∧
  field_le (target a) (target b) ∧
  field_le (memory_scope a) (memory_scope b).

(** Two devices and a scope that names only a device type. *)
Definition cpu0 : VScope :=
  {| device_type := Some 1; virtual_device_id := Some 0; target := Some 1; memory_scope := Some 0 |}.
Definition gpu0 : VScope :=
  {| device_type := Some 2; virtual_device_id := Some 0; target := Some 2; memory_scope := Some 0 |}.
Definition any_cpu : VScope :=
  {| device_type := Some 1; virtual_device_id := None; target := None; memory_scope := None |}.

(** A configuration whose host is [cpu0]; scopes are compared by value, so
    every scope is its own canonical representative. *)
Definition host_cpu_config : CompilationConfig VScope :=
  {| host_se_scope := cpu0; CanonicalSEScope := λ v, v |}.

Definition int_type : Ty := OtherType 0.

(** Running a computation for its state or its value. *)
Definition state_of {A S} (r : result (A * S)) (d : S) : S :=
  match r with
  | Ok (_, s) => s
  | _ => d
  end.

(** ** Example states over the concrete lattice *)

(** The constructor's state, and the state after [MakeDomain] of
    [fn(int):int] at [gpu0]: domain 0 is the host, 1 the free parameter,
    2 the result at [gpu0], 3 the function domain. *)
Definition ex_new : DeviceDomains := new_DeviceDomains host_cpu_config.
Definition ex_fn : DeviceDomains :=
  (MakeDomain (FuncType [int_type] int_type) gpu0 ex_new).2.

(** A second function domain, of arity two: 4 and 5 its free parameters,
    6 its free result, 7 the function domain. *)
Definition ex_fn2 : DeviceDomains :=
  (MakeDomain (FuncType [int_type; int_type] int_type) VScope_unconstrained ex_fn).2.

(** A table with the chain 1 -> 2 -> 0 over the arena of [ex_fn]. *)
Definition ex_chain : DeviceDomains :=
  set_equiv (<[1 := 2]> (<[2 := 0]> ∅)) ex_fn.

(** The state after unifying the parameter 1 of the function domain with
    the host. *)
Definition ex_unified : DeviceDomains :=
  state_of (UnifyOrNull host_cpu_config 2 1 0 ex_fn) ex_fn.


(** The domain that [MakeDomain] makes for [fn(fn(int):int):int] at [gpu0]:
    5, with the parameter 3 (itself [fn(?1?):?2?]) and the result 4. *)
Definition ex_second_order : nat * DeviceDomains :=
  MakeDomain (FuncType [FuncType [int_type] int_type] int_type) gpu0 ex_new.

(** A first-order domain, 1, whose scope names a device type only. *)
Definition ex_any : DeviceDomains := (MakeFirstOrderDomain any_cpu ex_new).2.

(** A call of a data constructor with the given argument types. *)
Definition ex_constructor_call (arg_types : list Ty) : Call VScope :=
  {| call_id := 0;
     op := {| expr_id := 1; checked_type := FuncType arg_types (OtherType 1);
              kind := ConstructorNode |};
     args := (λ ty, {| expr_id := 2; checked_type := ty; kind := OtherNode |}) <$> arg_types;
     call_checked_type := OtherType 1;
     on_device_props := None;
     device_copy_props := None;
     call_lowered_props := None;
     alloc_storage_attrs := None |}.

(** The state after collapsing the host domain 0 onto the free function
    domain 7 of [ex_fn2]. *)
Definition ex_collapsed : DeviceDomains :=
  state_of (CollapseOrFalse host_cpu_config 2 0 7 ex_fn2) ex_fn2.

(** Expressions, calls and states for the further properties. *)
Definition ex_expr (id : nat) (type : Ty) : Expr :=
  {| expr_id := id; checked_type := type; kind := OtherNode |}.

Definition ex_exprs : DeviceDomains :=
  set_expr_to_domain (<[1 := 0]> (<[2 := 2]> ∅)) ex_fn.

Definition ex_twin : DeviceDomains :=
  (MakeDomain (FuncType [int_type] int_type) VScope_unconstrained ex_fn).2.

Definition ex_primitive_call : Call VScope :=
  {| call_id := 0;
     op := {| expr_id := 1; checked_type := FuncType [int_type; int_type] int_type;
              kind := OpNode |};
     args := [ex_expr 2 int_type; ex_expr 3 int_type];
     call_checked_type := int_type;
     on_device_props := None;
     device_copy_props := None;
     call_lowered_props := None;
     alloc_storage_attrs := None |}.

Definition ex_copy_call : Call VScope :=
  {| call_id := 0;
     op := {| expr_id := 1; checked_type := FuncType [int_type] int_type; kind := OpNode |};
     args := [ex_expr 2 int_type];
     call_checked_type := int_type;
     on_device_props := None;
     device_copy_props := Some (ex_expr 2 int_type, cpu0, gpu0);
     call_lowered_props := None;
     alloc_storage_attrs := None |}.

Definition ex_on_device_call (is_fixed : bool) : Call VScope :=
  {| call_id := 0;
     op := {| expr_id := 1; checked_type := FuncType [int_type] int_type; kind := OpNode |};
     args := [ex_expr 2 int_type];
     call_checked_type := int_type;
     on_device_props := Some (ex_expr 2 int_type, gpu0, is_fixed);
     device_copy_props := None;
     call_lowered_props := None;
     alloc_storage_attrs := None |}.

Definition ex_fn_expr : Expr := ex_expr 5 (FuncType [int_type] int_type).

Definition ex_compressed : DeviceDomains := state_of (Lookup 1 ex_chain) ex_chain.
Definition ex_primitive : DeviceDomains :=
  state_of (DomainForCallee host_cpu_config 1 ex_primitive_call ex_new) ex_new.
Definition ex_cached : DeviceDomains := state_of (DomainFor ex_fn_expr ex_new) ex_new.
Definition ex_exprs_unified : DeviceDomains :=
  state_of (UnifyExprExact host_cpu_config 2 (ex_expr 1 int_type) (ex_expr 2 int_type) ex_new)
    ex_new.
Definition ex_twin_unified : DeviceDomains :=
  state_of (UnifyOrNull host_cpu_config 2 3 6 ex_twin) ex_twin.
Definition ex_expected : DeviceDomains :=
  state_of (UnifyExprExact_domain host_cpu_config 2 (ex_expr 1 int_type) 2 ex_fn) ex_fn.
Definition ex_expr_collapsed : DeviceDomains :=
  state_of (UnifyExprCollapsed host_cpu_config 2 (ex_expr 1 int_type) 3 ex_fn) ex_fn.

(** * Theory of the equivalence table *)

Section Chains.

Implicit Types (t : gmap nat nat) (p q r k v x : nat).

Lemma chain_det t n m p r r' : chain t n p r → chain t m p r' → n = m ∧ r = r'.
Proof.
  intros Hc. revert m r'. induction Hc as [p Hp|n p q r Hp Hc IH]; intros m r' Hc'.
  - inversion Hc'; subst; [done|congruence].
  - inversion Hc' as [|m' ? q' ? Hp' Hc'']; subst; [congruence|].
    assert (q' = q) as -> by congruence.
    destruct (IH _ _ Hc'') as [-> ->]. done.
Qed.

Lemma root_of_det t p r r' : root_of t p r → root_of t p r' → r = r'.
Proof. intros [n Hn] [m Hm]. by destruct (chain_det _ _ _ _ _ _ Hn Hm). Qed.

Lemma chain_end t n p r : chain t n p r → t !! r = None.
Proof. induction 1; done. Qed.

Lemma root_of_end t p r : root_of t p r → t !! r = None.
Proof. intros [n Hn]. by eapply chain_end. Qed.

Lemma root_of_root t p : t !! p = None → root_of t p p.
Proof. intros. exists 0. by constructor. Qed.

Lemma root_of_step t p q r : t !! p = Some q → root_of t q r → root_of t p r.
Proof. intros Hp [n Hn]. exists (S n). by econstructor. Qed.

Lemma root_of_root_inv t p r : t !! p = None → root_of t p r → r = p.
Proof. intros Hp Hr. eapply root_of_det; [done|]. by apply root_of_root. Qed.

Lemma root_of_step_inv t p q r : t !! p = Some q → root_of t p r → root_of t q r.
Proof.
  intros Hp [n Hn]. inversion Hn; subst; [congruence|].
  assert (q0 = q) as -> by congruence. by eexists.
Qed.

Lemma root_of_idem t p r : root_of t p r → root_of t r r.
Proof. intros Hr. apply root_of_root. by eapply root_of_end. Qed.

Lemma chain_no_self t n p r : chain t n p r → t !! p ≠ Some p.
Proof.
  intros Hc Hp. inversion Hc as [|n' ? q ? Hp' Hc']; subst; [congruence|].
  assert (q = p) as -> by congruence.
  destruct (chain_det _ _ _ _ _ _ Hc Hc') as [Hn _]. lia.
Qed.

(** Entries for keys off the chain do not matter. *)
Lemma chain_insert_off t n q r p v :
  chain t n q r → (∀ m r', m ≤ n → ¬ chain t m p r') →
  chain (<[p := v]> t) n q r.
Proof.
  induction 1 as [q Hq|n q q' r Hq Hc IH]; intros Hoff.
  - constructor. rewrite lookup_insert_ne; [done|].
    intros ->. eapply (Hoff 0); [lia|]. by constructor.
  - assert (p ≠ q).
    { intros ->. eapply (Hoff (S n)); [lia|]. by econstructor. }
    econstructor; [by rewrite lookup_insert_ne|].
    apply IH. intros m r' Hm. apply Hoff. lia.
Qed.

(** The keys of a chain are pairwise distinct keys of the table, so a chain
    is no longer than the table. *)
Lemma chain_keys t n p r :
  chain t n p r →
  ∃ ks : list nat, length ks = n ∧ NoDup ks ∧
    (∀ k, k ∈ ks → is_Some (t !! k) ∧ ∃ m, m ≤ n ∧ 0 < m ∧ chain t m k r).
Proof.
  induction 1 as [p Hp|n p q r Hp Hc (ks & Hlen & Hnd & Hks)].
  - exists []. split_and!; [done|constructor|]. intros k Hk. by apply elem_of_nil in Hk.
  - exists (p :: ks). split_and!.
    + simpl. by rewrite Hlen.
    + constructor; [|done]. intros Hin.
      destruct (Hks _ Hin) as (_ & m & Hm & _ & Hcm).
      assert (chain t (S n) p r) as Hfull by (by econstructor).
      destruct (chain_det _ _ _ _ _ _ Hfull Hcm) as [? _]. lia.
    + intros k [->|Hin]%elem_of_cons.
      * split; [by eexists|]. exists (S n). split_and!; [lia|lia|by econstructor].
      * destruct (Hks _ Hin) as (? & m & ? & ? & ?). split; [done|].
        exists m. split_and!; [lia|done|done].
Qed.

Lemma chain_bound t n p r : chain t n p r → n ≤ size t.
Proof.
  intros (ks & <- & Hnd & Hks)%chain_keys.
  rewrite <-(size_dom (D := gset nat) t).
  rewrite <-(size_list_to_set (C := gset nat) ks) by done.
  apply subseteq_size. intros k Hk%elem_of_list_to_set.
  apply elem_of_dom. by apply Hks.
Qed.

Lemma find_root_chain t n p r fuel :
  chain t n p r → n < fuel → find_root fuel t p = Ok r.
Proof.
  intros Hc. revert fuel. induction Hc as [p Hp|n p q r Hp Hc IH]; intros [|fuel] Hlt; try lia.
  - simpl. by rewrite Hp.
  - simpl. rewrite Hp. destruct (decide (q = p)) as [->|].
    + exfalso. eapply chain_no_self; [|done]. by econstructor.
    + apply IH. lia.
Qed.

Lemma find_root_ok t fuel p r : find_root fuel t p = Ok r → root_of t p r.
Proof.
  revert p. induction fuel as [|fuel IH]; intros p; simpl; [done|].
  destruct (t !! p) as [q|] eqn:Hp.
  - destruct (decide (q = p)); [done|]. intros Hq%IH. by eapply root_of_step.
  - intros [= <-]. by apply root_of_root.
Qed.

(** Redirecting a domain to its own root changes no root. *)
Lemma root_of_shortcut t p r :
  root_of t p r → p ≠ r → ∀ x r', root_of (<[p := r]> t) x r' ↔ root_of t x r'.
Proof.
  intros Hpr Hne x r'.
  assert (t !! r = None) as Hr by (by eapply root_of_end).
  assert (root_of (<[p := r]> t) p r) as Hpr'.
  { eapply root_of_step; [apply lookup_insert_eq|].
    apply root_of_root. by rewrite lookup_insert_ne. }
  split.
  - intros [n Hn]. induction Hn as [x Hx|n x y r' Hx Hc IH].
    + destruct (decide (p = x)) as [->|Hpx]; [by rewrite lookup_insert_eq in Hx|].
      rewrite lookup_insert_ne in Hx by done. by apply root_of_root.
    + destruct (decide (p = x)) as [->|Hpx].
      * rewrite lookup_insert_eq in Hx. injection Hx as <-.
        assert (r' = r) as ->; [|done].
        eapply root_of_root_inv; [|by eexists]. by rewrite lookup_insert_ne.
      * rewrite lookup_insert_ne in Hx by done. by eapply root_of_step.
  - intros [n Hn]. induction Hn as [x Hx|n x y r' Hx Hc IH].
    + apply root_of_root. rewrite lookup_insert_ne; [done|].
      intros ->. destruct Hpr as [m Hm]. inversion Hm; subst; congruence.
    + destruct (decide (p = x)) as [->|Hpx].
      * assert (r' = r) as ->; [|done].
        eapply (root_of_det t x); [|done]. eapply root_of_step; [exact Hx|by eexists].
      * eapply root_of_step; [by rewrite lookup_insert_ne|done].
Qed.

Lemma acyclic_shortcut t p r : root_of t p r → p ≠ r → acyclic t → acyclic (<[p := r]> t).
Proof.
  intros Hpr Hne Hac x. destruct (Hac x) as [rx Hrx]. exists rx.
  by apply root_of_shortcut.
Qed.

(** What the compression loop does to the table. *)
Lemma compress_spec t n p r fuel :
  chain t n p r → n < fuel →
  ∃ t', compress fuel t p r = Ok t' ∧
    (∀ x, t' !! x = t !! x ∨ (is_Some (t !! x) ∧ t' !! x = Some r ∧ x ≠ r)) ∧
    (p ≠ r → t' !! p = Some r) ∧
    (∀ x r', root_of t' x r' ↔ root_of t x r').
Proof.
  revert t p fuel. induction n as [|n IH]; intros t p fuel Hc Hlt.
  - inversion Hc; subst. destruct fuel as [|fuel]; [lia|]. simpl.
    rewrite decide_True by done. exists t. split_and!; [done|by left|done|done].
  - inversion Hc as [|? ? q ? Hp Hc']; subst.
    destruct fuel as [|fuel]; [lia|]. simpl.
    assert (t !! r = None) as Hr by (by eapply chain_end).
    assert (p ≠ r) as Hne by congruence.
    rewrite decide_False by done. rewrite Hp.
    assert (chain (<[p := r]> t) n q r) as Hc2.
    { apply chain_insert_off; [done|]. intros m r' Hm Hcm.
      destruct (chain_det _ _ _ _ _ _ Hc Hcm). lia. }
    destruct (IH _ _ fuel Hc2) as (t' & Hcomp & Hlk & Hq & Hroots); [lia|].
    exists t'. split_and!; [done| | |].
    + intros x. destruct (Hlk x) as [Hx|(Hs & Hx & Hxr)].
      * destruct (decide (p = x)) as [->|].
        -- right. rewrite Hx, lookup_insert_eq. split_and!; [by eexists|done|done].
        -- left. by rewrite Hx, lookup_insert_ne.
      * right. split_and!; [|done|done].
        destruct (decide (p = x)) as [->|]; [by eexists|].
        by rewrite lookup_insert_ne in Hs.
    + intros _. destruct (Hlk p) as [Hx|(_ & Hx & _)]; [|done].
      by rewrite Hx, lookup_insert_eq.
    + intros x r'. rewrite Hroots. apply root_of_shortcut; [by eexists|done].
Qed.

Lemma compress_dom t t' fuel p r : compress fuel t p r = Ok t' → dom t' = dom t.
Proof.
  revert t p. induction fuel as [|fuel IH]; intros t p; simpl; [done|].
  destruct (decide (p = r)); [by intros [= ->]|].
  destruct (t !! p) as [q|] eqn:Hp; [|done].
  intros Hc. apply IH in Hc. rewrite Hc, dom_insert_L.
  apply subseteq_union_1_L, singleton_subseteq_l, elem_of_dom. by eexists.
Qed.

(** Linking a root [k] below a domain [v] of another class. *)
Lemma root_of_link t k v rv :
  t !! k = None → root_of t v rv → rv ≠ k →
  ∀ x rx, root_of t x rx → root_of (<[k := v]> t) x (if decide (rx = k) then rv else rx).
Proof.
  intros Hk Hv Hne.
  assert (∀ x rx, root_of t x rx → rx ≠ k → root_of (<[k := v]> t) x rx) as Hother.
  { intros x rx [n Hn] Hrx. induction Hn as [x Hx|n x y rx Hx Hc IH].
    - apply root_of_root. by rewrite lookup_insert_ne.
    - eapply root_of_step; [|by apply IH].
      rewrite lookup_insert_ne; [done|]. congruence. }
  intros x rx [n Hn]. induction Hn as [x Hx|n x y rx Hx Hc IH].
  - destruct (decide (x = k)) as [->|].
    + eapply root_of_step; [apply lookup_insert_eq|]. by apply Hother.
    + apply root_of_root. by rewrite lookup_insert_ne.
  - eapply root_of_step; [|exact IH].
    rewrite lookup_insert_ne; [done|]. congruence.
Qed.

Lemma acyclic_link t k v rv :
  t !! k = None → root_of t v rv → rv ≠ k → acyclic t → acyclic (<[k := v]> t).
Proof.
  intros Hk Hv Hne Hac x. destruct (Hac x) as [rx Hrx].
  eexists. by eapply root_of_link.
Qed.

Lemma acyclic_empty : acyclic ∅.
Proof. intros p. exists p. by apply root_of_root. Qed.

End Chains.

(** * Theory of the solver state *)

Section Theory.

Context {SEScope : Type} `{SEScopeOps SEScope}.
Variable config_ : CompilationConfig SEScope.

Local Abbreviation state := (@DeviceDomains SEScope _ _).
Implicit Types (s : state) (p q r k v x lhs rhs : nat).

Lemma set_equiv_same s : set_equiv (domain_to_equiv_ s) s = s.
Proof. by destruct s. Qed.

Lemma bind_Ok {A B} (m : M A) (k : A → M B) s b s' :
  bind m k s = Ok (b, s') ↔ ∃ a s1, m s = Ok (a, s1) ∧ k a s1 = Ok (b, s').
Proof.
  unfold bind. split.
  - destruct (m s) as [[a s1]| |]; [|done|done]. intros Hk. by exists a, s1.
  - intros (a & s1 & -> & Hk). done.
Qed.

(** ** [Lookup] *)

Lemma Lookup_inv p s r s' :
  Lookup p s = Ok (r, s') →
  root_of (domain_to_equiv_ s) p r ∧
  s' = set_equiv (domain_to_equiv_ s') s ∧
  (∀ x r', root_of (domain_to_equiv_ s') x r' ↔ root_of (domain_to_equiv_ s) x r') ∧
  dom (domain_to_equiv_ s') = dom (domain_to_equiv_ s) ∧
  (p ≠ r → domain_to_equiv_ s' !! p = Some r) ∧
  (∀ x, domain_to_equiv_ s' !! x = domain_to_equiv_ s !! x ∨
        (is_Some (domain_to_equiv_ s !! x) ∧ domain_to_equiv_ s' !! x = Some r ∧ x ≠ r)).
Proof.
  unfold Lookup. destruct (find_root _ _ p) as [r0| |] eqn:Hf; [|done|done].
  pose proof (find_root_ok _ _ _ _ Hf) as Hroot. destruct Hroot as [n Hn].
  pose proof (chain_bound _ _ _ _ Hn) as Hb.
  destruct (compress_spec _ _ _ _ (S (size (domain_to_equiv_ s))) Hn) as
    (t' & Hc & Hlk & Hp & Hroots); [lia|].
  rewrite Hc. intros [= <- <-]. simpl.
  split_and!; [by exists n|done|done|by eapply compress_dom|done|done].
Qed.

Lemma Lookup_arena p s r s' : Lookup p s = Ok (r, s') → arena s' = arena s.
Proof. intros (_ & Hs & _)%Lookup_inv. by rewrite Hs. Qed.

Lemma Lookup_total p s :
  (∃ r, root_of (domain_to_equiv_ s) p r) → ∃ r s', Lookup p s = Ok (r, s').
Proof.
  intros [r [n Hn]]. unfold Lookup.
  pose proof (chain_bound _ _ _ _ Hn) as Hb.
  rewrite (find_root_chain _ _ _ _ _ Hn) by lia.
  destruct (compress_spec _ _ _ _ (S (size (domain_to_equiv_ s))) Hn) as
    (t' & Hc & _); [lia|].
  rewrite Hc. by eexists _, _.
Qed.

Lemma find_root_S fuel (t : gmap nat nat) p :
  find_root (S fuel) t p =
  match t !! p with
  | None => Ok p
  | Some next => if decide (next = p) then Fatal else find_root fuel t next
  end.
Proof. done. Qed.

Lemma compress_S fuel (t : gmap nat nat) p r :
  compress (S fuel) t p r =
  if decide (p = r) then Ok t
  else match t !! p with
       | None => Fatal
       | Some next => compress fuel (<[p := r]> t) next r
       end.
Proof. done. Qed.

Lemma Lookup_root p s : domain_to_equiv_ s !! p = None → Lookup p s = Ok (p, s).
Proof.
  intros Hp. unfold Lookup. rewrite find_root_S, Hp, compress_S.
  rewrite decide_True by done. by rewrite set_equiv_same.
Qed.

Lemma Lookup_again p s r s' : Lookup p s = Ok (r, s') → Lookup p s' = Ok (r, s').
Proof.
  intros (Hroot & Hs' & Hroots & Hdom & Hp & Hlk)%Lookup_inv.
  destruct (decide (p = r)) as [->|Hne].
  - apply Lookup_root. apply root_of_end with r. by apply Hroots.
  - specialize (Hp Hne).
    assert (domain_to_equiv_ s' !! r = None) as Hr.
    { apply root_of_end with p. by apply Hroots. }
    unfold Lookup. rewrite find_root_S, Hp. rewrite decide_False by done.
    destruct (size (domain_to_equiv_ s')) as [|n] eqn:Hsize.
    { apply map_size_empty_inv in Hsize. rewrite Hsize in Hp. by rewrite lookup_empty in Hp. }
    rewrite find_root_S, Hr, compress_S. rewrite decide_False by done. rewrite Hp.
    rewrite compress_S. rewrite decide_True by done.
    rewrite insert_id by done. by rewrite set_equiv_same.
Qed.

(** ** Depth of domains *)

Local Abbreviation domain := (@DeviceDomain SEScope).
Implicit Types (a : list domain) (d : domain).

Lemma depths_snoc a d : depths (a ++ [d]) = depths a ++ [node_depth (depths a) d].
Proof. unfold depths. by rewrite fold_left_app. Qed.

Lemma depths_length a : length (depths a) = length a.
Proof.
  induction a as [|d a IH] using rev_ind; [done|].
  rewrite depths_snoc, !length_app, IH. done.
Qed.

Lemma depths_prefix a ext : depths a `prefix_of` depths (a ++ ext).
Proof.
  induction ext as [|d ext IH] using rev_ind.
  - by rewrite app_nil_r.
  - rewrite app_assoc, depths_snoc. by apply prefix_app_r.
Qed.

Lemma depth_extend a ext p : p < length a → depth (a ++ ext) p = depth a p.
Proof.
  intros Hp. unfold depth. f_equal.
  destruct (depths_prefix a ext) as [ds ->].
  apply lookup_app_l. by rewrite depths_length.
Qed.

Lemma depth_prefix a a' p : a `prefix_of` a' → p < length a → depth a' p = depth a p.
Proof. intros [ext ->]. apply depth_extend. Qed.

Lemma depth_outside a p : length a ≤ p → depth a p = 0.
Proof.
  intros Hp. unfold depth. rewrite lookup_ge_None_2; [done|]. by rewrite depths_length.
Qed.

Lemma depth_unfold a p d :
  parts_wf a → a !! p = Some d →
  depth a p = match args_and_result_ d with
              | [] => 0
              | _ => S (max_list (depth a <$> args_and_result_ d))
              end.
Proof.
  intros Hwf Hp.
  pose proof (take_drop_middle _ _ _ Hp) as Ha.
  assert (length (take p a) = p) as Hlen.
  { apply length_take_le. apply lookup_lt_Some in Hp. lia. }
  assert (depth a p = node_depth (depths (take p a)) d) as ->.
  { rewrite <-Ha at 1. rewrite (cons_middle d), app_assoc.
    rewrite depth_extend by (rewrite length_app; simpl; lia).
    unfold depth. rewrite depths_snoc.
    rewrite lookup_app_r by (rewrite depths_length; lia).
    by rewrite depths_length, Hlen, Nat.sub_diag. }
  pose proof (Hwf _ _ Hp) as Hlt.
  unfold node_depth. destruct (args_and_result_ d) as [|c cs]; [done|].
  f_equal. f_equal. apply Forall_fmap_ext.
  eapply Forall_impl; [exact Hlt|]. simpl. intros c' Hc'.
  fold (depth (take p a) c'). rewrite <-Ha at 2.
  by rewrite depth_extend by lia.
Qed.

Lemma depth_first_order a p d :
  a !! p = Some d → args_and_result_ d = [] → depth a p = 0.
Proof.
  intros Hp Hargs.
  pose proof (take_drop_middle _ _ _ Hp) as Ha.
  assert (length (take p a) = p) as Hlen.
  { apply length_take_le. apply lookup_lt_Some in Hp. lia. }
  rewrite <-Ha. rewrite (cons_middle d), app_assoc.
  rewrite depth_extend by (rewrite length_app; simpl; lia).
  unfold depth. rewrite depths_snoc.
  rewrite lookup_app_r by (rewrite depths_length; lia).
  rewrite depths_length, Hlen, Nat.sub_diag. simpl.
  unfold node_depth. by rewrite Hargs.
Qed.

Lemma depth_higher_order a p d :
  parts_wf a → a !! p = Some d → args_and_result_ d ≠ [] →
  depth a p = S (max_list (depth a <$> args_and_result_ d)).
Proof.
  intros Hwf Hp Hne. rewrite (depth_unfold a p d) by done.
  by destruct (args_and_result_ d).
Qed.

Lemma parts_wf_snoc a d :
  parts_wf a → Forall (λ c, c < length a) (args_and_result_ d) → parts_wf (a ++ [d]).
Proof.
  intros Hwf Hd p d' Hp.
  destruct (decide (p < length a)) as [Hlt|Hge].
  - rewrite lookup_app_l in Hp by done. by eapply Hwf.
  - rewrite lookup_app_r in Hp by lia.
    destruct (p - length a) as [|n] eqn:Hn; [|by destruct n].
    injection Hp as <-. assert (p = length a) as -> by lia. done.
Qed.

Lemma depth_part a p d c :
  parts_wf a → a !! p = Some d → c ∈ args_and_result_ d → depth a c < depth a p.
Proof.
  intros Hwf Hp Hc. rewrite (depth_unfold a p d) by done.
  destruct (args_and_result_ d) as [|c0 cs] eqn:Hargs; [by apply elem_of_nil in Hc|].
  apply Nat.lt_succ_r. apply max_list_elem_of_le. apply list_elem_of_fmap. by exists c.
Qed.

(** ** Growth of the state *)

Lemma extends_refl s : extends s s.
Proof. by split. Qed.

Lemma extends_trans s1 s2 s3 : extends s1 s2 → extends s2 s3 → extends s1 s3.
Proof. intros [] []. split; by etrans. Qed.

Lemma extends_valid s s' p : extends s s' → valid s p → valid s' p.
Proof.
  intros [Hpre _ _]. unfold valid. apply prefix_length in Hpre. lia.
Qed.

Lemma extends_lookup s s' p d :
  extends s s' → arena s !! p = Some d → arena s' !! p = Some d.
Proof. intros [Hpre _ _] Hp. by eapply prefix_lookup_Some. Qed.

Lemma extends_depth s s' p :
  extends s s' → valid s p → depth (arena s') p = depth (arena s) p.
Proof. intros [Hpre _ _]. by apply depth_prefix. Qed.

Lemma extends_key s s' k :
  extends s s' → is_Some (domain_to_equiv_ s !! k) → is_Some (domain_to_equiv_ s' !! k).
Proof. intros [_ _ Hdom]. rewrite <-!elem_of_dom. apply Hdom. Qed.

Lemma extends_no_key s s' k :
  extends s s' → domain_to_equiv_ s' !! k = None → domain_to_equiv_ s !! k = None.
Proof.
  intros Hext Hk. destruct (domain_to_equiv_ s !! k) eqn:Hk'; [|done].
  destruct (extends_key s s' k Hext) as [v Hv]; [by eexists|congruence].
Qed.

Lemma Inv_valid_lookup s p : valid s p → ∃ d, arena s !! p = Some d.
Proof. intros Hp. by apply lookup_lt_is_Some_2. Qed.

Lemma alloc_Inv d s :
  Inv s → Forall (valid s) (args_and_result_ d) →
  (args_and_result_ d = [] → scope_IsFullyConstrained (se_scope_ d) = false) →
  Inv (alloc d s).2.
Proof.
  intros HI Hargs Hfc. unfold alloc. simpl. split; simpl.
  - apply parts_wf_snoc; [apply HI|done].
  - intros k v Hkv. rewrite length_app. simpl.
    destruct (inv_entries s HI k v Hkv) as (? & ? & ?). split_and!; [lia|lia|done].
  - apply HI.
  - intros k v Hkv. destruct (inv_entries s HI k v Hkv) as (? & ? & ?).
    rewrite !depth_extend by done. by apply HI.
  - intros sc p Hsc. destruct (inv_interned s HI sc p Hsc) as [Hp ?].
    split; [|done]. by apply lookup_app_l_Some.
  - intros p d' Hp Hd' Hfc'.
    destruct (decide (p < length (arena s))) as [Hlt|Hge].
    + rewrite lookup_app_l in Hp by done. by eapply inv_interned_all.
    + rewrite lookup_app_r in Hp by lia.
      destruct (p - length (arena s)) as [|n]; [|by destruct n].
      injection Hp as <-. rewrite Hfc in Hfc' by done. done.
  - intros p d' Hp Hd' Hfc'.
    destruct (decide (p < length (arena s))) as [Hlt|Hge].
    + rewrite lookup_app_l in Hp by done. by eapply inv_constrained_root.
    + destruct (domain_to_equiv_ s !! p) as [v|] eqn:Hv; [|done].
      destruct (inv_entries s HI p v Hv) as (? & ? & ?). lia.
Qed.

Lemma alloc_extends d s : extends s (alloc d s).2.
Proof. unfold alloc. split; simpl; [by apply prefix_app_r|done|done]. Qed.

Lemma alloc_lookup d s : arena (alloc d s).2 !! (alloc d s).1 = Some d.
Proof. unfold alloc. simpl. by rewrite lookup_app_r, Nat.sub_diag. Qed.

Lemma MakeFirstOrderDomain_spec sc s p s' :
  Inv s → MakeFirstOrderDomain sc s = (p, s') →
  Inv s' ∧ extends s s' ∧ domain_to_equiv_ s' = domain_to_equiv_ s ∧
  arena s' !! p = Some {| se_scope_ := sc; args_and_result_ := [] |} ∧
  (scope_IsFullyConstrained sc = false →
   p = length (arena s) ∧
   arena s' = arena s ++ [{| se_scope_ := sc; args_and_result_ := [] |}] ∧
   fully_constrained_se_scope_to_domain_ s' = fully_constrained_se_scope_to_domain_ s).
Proof.
  intros HI. unfold MakeFirstOrderDomain.
  destruct (scope_IsFullyConstrained sc) eqn:Hfc.
  - destruct (fully_constrained_se_scope_to_domain_ s !! sc) as [q|] eqn:Hq.
    + intros [= <- <-]. split_and!; [done|apply extends_refl|done| |done].
      by apply (inv_interned s HI sc q).
    + intros [= <- <-]. simpl. split_and!; [|split; simpl| | |done].
      * split; simpl.
        -- apply parts_wf_snoc; [apply HI|by constructor].
        -- intros k v Hkv. rewrite length_app. simpl.
           destruct (inv_entries s HI k v Hkv) as (? & ? & ?). split_and!; [lia|lia|done].
        -- apply HI.
        -- intros k v Hkv. destruct (inv_entries s HI k v Hkv) as (? & ? & ?).
           rewrite !depth_extend by done. by apply HI.
        -- intros sc' p Hsc'. destruct (decide (sc = sc')) as [<-|Hne].
           ++ rewrite lookup_insert_eq in Hsc'. injection Hsc' as <-.
              split; [|done]. by rewrite lookup_app_r, Nat.sub_diag.
           ++ rewrite lookup_insert_ne in Hsc' by done.
              destruct (inv_interned s HI sc' p Hsc') as [Hp ?].
              split; [|done]. by apply lookup_app_l_Some.
        -- intros p d' Hp Hd' Hfc'.
           destruct (decide (p < length (arena s))) as [Hlt|Hge].
           ++ rewrite lookup_app_l in Hp by done.
              pose proof (inv_interned_all s HI p d' Hp Hd' Hfc') as Hi.
              rewrite lookup_insert_ne; [done|]. intros Heq. congruence.
           ++ rewrite lookup_app_r in Hp by lia.
              destruct (p - length (arena s)) as [|n] eqn:Hn; [|by destruct n].
              injection Hp as <-. simpl. rewrite lookup_insert_eq. f_equal. lia.
        -- intros p d' Hp Hd' Hfc'.
           destruct (domain_to_equiv_ s !! p) as [v|] eqn:Hv; [|done].
           destruct (inv_entries s HI p v Hv) as (Hlt & ? & ?).
           rewrite lookup_app_l in Hp by done.
           by rewrite (inv_constrained_root s HI p d' Hp Hd' Hfc') in Hv.
      * by apply prefix_app_r.
      * by apply insert_subseteq.
      * done.
      * done.
      * by rewrite lookup_app_r, Nat.sub_diag.
  - intros [= <- <-]. split_and!.
    + apply alloc_Inv; [done|by constructor|done].
    + apply alloc_extends.
    + done.
    + apply (alloc_lookup {| se_scope_ := sc; args_and_result_ := [] |} s).
    + done.
Qed.

Lemma MakeHigherOrderDomain_spec parts s p s' :
  Inv s → Forall (valid s) parts → scope_IsFullyConstrained scope_FullyUnconstrained = false →
  MakeHigherOrderDomain parts s = (p, s') →
  Inv s' ∧ extends s s' ∧ domain_to_equiv_ s' = domain_to_equiv_ s ∧
  p = length (arena s) ∧
  arena s' = arena s ++ [{| se_scope_ := scope_FullyUnconstrained; args_and_result_ := parts |}].
Proof.
  intros HI Hparts Hfu. unfold MakeHigherOrderDomain. intros [= <- <-].
  split_and!; [|apply alloc_extends|done|done|done].
  apply alloc_Inv; done.
Qed.

(** ** Steps of the solver *)

Lemma step_ok_refl s : Inv s → step_ok s s.
Proof. intros HI. split; [done|apply extends_refl|done|done]. Qed.

Lemma step_ok_trans s1 s2 s3 : step_ok s1 s2 → step_ok s2 s3 → step_ok s1 s3.
Proof.
  intros [HI2 He2 Hs2 Hc2] [HI3 He3 Hs3 Hc3]. split.
  - done.
  - by eapply extends_trans.
  - intros x rx Hx Hrx. apply Hs3; [|done]. apply Hs2; [done|].
    by eapply extends_no_key.
  - intros x y Hxy. by apply Hc3, Hc2.
Qed.

Lemma new_keys_below_trans s1 s2 s3 n :
  Inv s2 → extends s2 s3 →
  new_keys_below s1 s2 n → new_keys_below s2 s3 n → new_keys_below s1 s3 n.
Proof.
  intros HI2 He3 Hn2 Hn3 k Hk1 Hk3.
  destruct (domain_to_equiv_ s2 !! k) as [v|] eqn:Hk2.
  - destruct (inv_entries s2 HI2 k v Hk2) as (Hlt & _).
    rewrite (extends_depth s2 s3) by done. apply Hn2; [done|by eexists].
  - by apply Hn3.
Qed.

Lemma new_keys_below_mono s s' n m : n ≤ m → new_keys_below s s' n → new_keys_below s s' m.
Proof. intros Hnm Hn k Hk Hk'. specialize (Hn k Hk Hk'). lia. Qed.

Lemma new_keys_below_none s s' n :
  dom (domain_to_equiv_ s') = dom (domain_to_equiv_ s) → new_keys_below s s' n.
Proof.
  intros Hdom k Hk Hk'. apply elem_of_dom in Hk'. rewrite Hdom in Hk'.
  apply elem_of_dom in Hk'. rewrite Hk in Hk'. by destruct Hk'.
Qed.

Lemma root_of_is_value (t : gmap nat nat) p r :
  root_of t p r → p ≠ r → ∃ k, t !! k = Some r.
Proof.
  intros [n Hn]. induction Hn as [p Hp|n p q r Hp Hc IH]; [done|].
  intros _. destruct (decide (q = r)) as [->|Hne]; [by exists p|by apply IH].
Qed.

Lemma root_of_depth s x r :
  Inv s → root_of (domain_to_equiv_ s) x r → depth (arena s) x = depth (arena s) r.
Proof.
  intros HI [n Hn]. induction Hn as [p Hp|n p q r Hp Hc IH]; [done|].
  rewrite <-IH. by apply HI.
Qed.

Lemma root_of_valid s x r :
  Inv s → valid s x → root_of (domain_to_equiv_ s) x r → valid s r.
Proof.
  intros HI Hx Hr. destruct (decide (x = r)) as [<-|Hne]; [done|].
  destruct (root_of_is_value _ _ _ Hr Hne) as [k Hk].
  by destruct (inv_entries s HI k r Hk) as (_ & ? & _).
Qed.

Lemma same_class_refl (t : gmap nat nat) x : acyclic t → same_class t x x.
Proof. intros Hac. destruct (Hac x) as [r Hr]. by exists r. Qed.

Lemma same_class_sym (t : gmap nat nat) x y : same_class t x y → same_class t y x.
Proof. intros (r & ? & ?). by exists r. Qed.

Lemma same_class_trans (t : gmap nat nat) x y z :
  same_class t x y → same_class t y z → same_class t x z.
Proof.
  intros (r & Hx & Hy) (r' & Hy' & Hz). exists r. split; [done|].
  by rewrite (root_of_det _ _ _ _ Hy Hy').
Qed.

Lemma same_class_root (t : gmap nat nat) x r : root_of t x r → same_class t x r.
Proof. intros Hr. exists r. split; [done|]. by eapply root_of_idem. Qed.

Lemma Lookup_step p s r s' :
  Inv s → valid s p → Lookup p s = Ok (r, s') →
  step_ok s s' ∧ arena s' = arena s ∧
  dom (domain_to_equiv_ s') = dom (domain_to_equiv_ s) ∧
  root_of (domain_to_equiv_ s) p r ∧ valid s r ∧
  domain_to_equiv_ s' !! r = None ∧
  (∀ x r', root_of (domain_to_equiv_ s') x r' ↔ root_of (domain_to_equiv_ s) x r').
Proof.
  intros HI Hp HL.
  destruct (Lookup_inv _ _ _ _ HL) as (Hroot & Hs' & Hroots & Hdom & Hpr & Hlk).
  assert (arena s' = arena s) as Ha by (by rewrite Hs').
  assert (fully_constrained_se_scope_to_domain_ s' = fully_constrained_se_scope_to_domain_ s)
    as Hi by (by rewrite Hs').
  assert (valid s r) as Hr by (by eapply root_of_valid).
  assert (domain_to_equiv_ s' !! r = None) as Hrn.
  { apply root_of_end with p. by apply Hroots. }
  split_and!; [split| | | | | |]; try done.
  - split.
    + rewrite Ha. apply HI.
    + intros k v Hkv. rewrite Ha. destruct (Hlk k) as [Hk|(Hs & Hk & Hne)].
      * rewrite Hk in Hkv. by apply HI.
      * rewrite Hk in Hkv. injection Hkv as <-. destruct Hs as [v Hv].
        destruct (inv_entries s HI k v Hv) as (? & ? & ?). done.
    + intros x. destruct (inv_acyclic s HI x) as [rx Hrx]. exists rx. by apply Hroots.
    + intros k v Hkv. rewrite Ha. destruct (Hlk k) as [Hk|(Hs & Hk & Hne)].
      * rewrite Hk in Hkv. by apply HI.
      * rewrite Hk in Hkv. injection Hkv as <-.
        apply root_of_depth; [done|]. apply Hroots.
        eapply root_of_step; [done|]. by apply root_of_root.
    + rewrite Ha, Hi. apply HI.
    + rewrite Ha, Hi. apply HI.
    + intros q d Hq Hd Hfc. rewrite Ha in Hq.
      pose proof (inv_constrained_root s HI q d Hq Hd Hfc) as Hn.
      apply not_elem_of_dom. rewrite Hdom. by apply not_elem_of_dom.
  - split; [by rewrite Ha|by rewrite Hi|by rewrite Hdom].
  - intros x rx Hx _. by apply Hroots.
  - intros x y (rx & Hx & Hy). exists rx. by rewrite !Hroots.
Qed.

Lemma emplace_step s k j :
  Inv s → domain_to_equiv_ s !! k = None → valid s k → valid s j →
  domain_to_equiv_ s !! j = None → k ≠ j →
  depth (arena s) k = depth (arena s) j →
  (∀ d, arena s !! k = Some d → args_and_result_ d = [] →
        scope_IsFullyConstrained (se_scope_ d) = false) →
  step_ok s (set_equiv (<[k := j]> (domain_to_equiv_ s)) s) ∧
  (∀ x rx, root_of (domain_to_equiv_ s) x rx →
           root_of (<[k := j]> (domain_to_equiv_ s)) x (if decide (rx = k) then j else rx)).
Proof.
  intros HI Hk Hvk Hvj Hj Hne Hd Hfc.
  assert (∀ x rx, root_of (domain_to_equiv_ s) x rx →
            root_of (<[k := j]> (domain_to_equiv_ s)) x (if decide (rx = k) then j else rx))
    as Hroots.
  { apply root_of_link; [done|by apply root_of_root|congruence]. }
  split; [|done]. split.
  - split; simpl.
    + apply HI.
    + intros k' v Hkv. destruct (decide (k = k')) as [<-|Hne'].
      * rewrite lookup_insert_eq in Hkv. by injection Hkv as <-.
      * rewrite lookup_insert_ne in Hkv by done. by apply HI.
    + eapply acyclic_link; [done|by apply root_of_root|congruence|apply HI].
    + intros k' v Hkv. destruct (decide (k = k')) as [<-|Hne'].
      * rewrite lookup_insert_eq in Hkv. by injection Hkv as <-.
      * rewrite lookup_insert_ne in Hkv by done. by apply HI.
    + apply HI.
    + apply HI.
    + intros q d Hq Hargs Hfcq. destruct (decide (k = q)) as [<-|Hne'].
      * rewrite (Hfc d Hq Hargs) in Hfcq. done.
      * rewrite lookup_insert_ne by done. by eapply inv_constrained_root.
  - split; simpl; [done|done|]. rewrite dom_insert. set_solver.
  - simpl. intros x rx Hx Hrx. specialize (Hroots x rx Hx).
    destruct (decide (rx = k)) as [->|]; [|done]. by rewrite lookup_insert_eq in Hrx.
  - simpl. intros x y (rx & Hx & Hy). eexists. split; by apply Hroots.
Qed.

(** ** Inversion of monadic computations *)

Lemma ret_Ok {A} (a b : A) s s' : ret a s = Ok (b, s') ↔ a = b ∧ s = s'.
Proof. unfold ret. split; [by intros [= -> ->]|by intros [-> ->]]. Qed.

Lemma lift_Ok {A} (f : state → A * state) s (b : A) s' :
  lift f s = Ok (b, s') ↔ f s = (b, s').
Proof. unfold lift. split; [by intros [= ->]|by intros ->]. Qed.

Lemma deref_Ok p s d s' : deref p s = Ok (d, s') ↔ arena s !! p = Some d ∧ s' = s.
Proof.
  unfold deref. destruct (arena s !! p) as [d'|]; split.
  - by intros [= -> ->].
  - by intros [[= ->] ->].
  - done.
  - by intros [? _].
Qed.

Lemma ICHECK_Ok b s u s' : ICHECK b s = Ok (u, s') ↔ b = true ∧ s' = s.
Proof.
  unfold ICHECK. destruct b; split.
  - by intros [_ ->]%ret_Ok.
  - intros [_ ->]. by destruct u.
  - done.
  - by intros [? _].
Qed.

Local Abbreviation Mon := (@M SEScope _ _).

Lemma bind_eq {A B} (m : Mon A) (k : A → Mon B) s (b : A) s' :
  m s = Ok (b, s') → bind m k s = k b s'.
Proof. unfold bind. by intros ->. Qed.

Lemma bind_ICHECK {B} (c : bool) (k : unit → Mon B) s :
  c = true → bind (ICHECK c) k s = k tt s.
Proof. by intros ->. Qed.

Lemma bind_deref {B} p d (k : domain → Mon B) s :
  arena s !! p = Some d → bind (deref p) k s = k d s.
Proof. intros Hp. unfold bind, deref. by rewrite Hp. Qed.

Lemma for_each_cons {A} (body : A → Mon unit) (b : A) (bs : list A) :
  for_each body (b :: bs) = bind (body b) (λ _, for_each body bs).
Proof. done. Qed.

Lemma for_each_nil {A} (body : A → Mon unit) : for_each body [] = ret tt.
Proof. done. Qed.

Lemma link_step s k j u s' :
  Inv s → valid s k → valid s j →
  domain_to_equiv_ s !! k = None → domain_to_equiv_ s !! j = None →
  depth (arena s) k = depth (arena s) j →
  (∀ d, arena s !! k = Some d → args_and_result_ d = [] →
        scope_IsFullyConstrained (se_scope_ d) = true → j = k) →
  (if decide (k = j) then ret tt else emplace_equiv k j) s = Ok (u, s') →
  step_ok s s' ∧ arena s' = arena s ∧
  new_keys_below s s' (S (depth (arena s) k)) ∧
  domain_to_equiv_ s' !! j = None ∧
  (∀ x rx, root_of (domain_to_equiv_ s) x rx →
           root_of (domain_to_equiv_ s') x (if decide (rx = k) then j else rx)) ∧
  (∀ q, q ≠ k → domain_to_equiv_ s' !! q = domain_to_equiv_ s !! q) ∧
  (k ≠ j → domain_to_equiv_ s' !! k = Some j).
Proof.
  intros HI Hk Hj Hkn Hjn Hd Hfc. destruct (decide (k = j)) as [<-|Hne].
  - intros [_ <-]%ret_Ok. split_and!; [by apply step_ok_refl|done| |done| |done|done].
    + by apply new_keys_below_none.
    + intros x rx Hx. by destruct (decide (rx = k)) as [->|].
  - unfold emplace_equiv, emplace. rewrite Hkn. intros [= ? <-].
    destruct (emplace_step s k j) as [Hstep Hroots]; try done.
    { intros d Hdk Hargs. destruct (scope_IsFullyConstrained (se_scope_ d)) eqn:Hc; [|done].
      by destruct Hne; symmetry; eapply Hfc. }
    split_and!; [exact Hstep|reflexivity| | |exact Hroots| |].
    + unfold new_keys_below. simpl. intros q Hq Hq'.
      destruct (decide (k = q)) as [<-|Hne']; [lia|].
      rewrite lookup_insert_ne in Hq' by done. rewrite Hq in Hq'. by destruct Hq'.
    + simpl. by rewrite lookup_insert_ne.
    + simpl. intros q Hq. by rewrite lookup_insert_ne.
    + simpl. intros _. by rewrite lookup_insert_eq.
Qed.

(** ** The factory on function types *)

Lemma Ty_induction (P : Ty → Prop) :
  (∀ tag, P (OtherType tag)) →
  (∀ arg_types ret_type, Forall P arg_types → P ret_type → P (FuncType arg_types ret_type)) →
  ∀ type, P type.
Proof.
  intros Hother Hfunc. fix IH 1. intros [arg_types ret_type|tag]; [|apply Hother].
  apply Hfunc; [|apply IH].
  induction arg_types as [|t ts IHts]; constructor; [apply IH|apply IHts].
Qed.

Lemma MakeDomain_FuncType arg_types ret_type sc s :
  MakeDomain (FuncType arg_types ret_type) sc s =
  let '(ds, s1) := MakeDomain_args arg_types s in
  let '(r, s2) := MakeDomain ret_type sc s1 in
  MakeHigherOrderDomain (ds ++ [r]) s2.
Proof. reflexivity. Qed.

Lemma MakeFirstOrderDomain_prefix sc s : arena s `prefix_of` arena (MakeFirstOrderDomain sc s).2.
Proof.
  unfold MakeFirstOrderDomain. destruct (scope_IsFullyConstrained sc).
  - destruct (fully_constrained_se_scope_to_domain_ s !! sc); simpl; [done|].
    by apply prefix_app_r.
  - simpl. by apply prefix_app_r.
Qed.

Lemma MakeDomain_args_prefix tys :
  Forall (λ ty, ∀ sc s, arena s `prefix_of` arena (MakeDomain ty sc s).2) tys →
  ∀ s, arena s `prefix_of` arena (MakeDomain_args tys s).2.
Proof.
  induction 1 as [|ty tys Hty _ IH]; intros s; simpl; [done|].
  specialize (Hty scope_FullyUnconstrained s).
  destruct (MakeDomain ty scope_FullyUnconstrained s) as [q s1].
  specialize (IH s1). destruct (MakeDomain_args tys s1) as [qs s2]. simpl in *.
  by etrans.
Qed.

Lemma MakeDomain_prefix type : ∀ sc s, arena s `prefix_of` arena (MakeDomain type sc s).2.
Proof.
  induction type as [tag|arg_types ret_type IHargs IHret] using Ty_induction; intros sc s.
  - apply MakeFirstOrderDomain_prefix.
  - rewrite MakeDomain_FuncType.
    pose proof (MakeDomain_args_prefix _ IHargs s) as H1.
    destruct (MakeDomain_args arg_types s) as [ds s1].
    specialize (IHret sc s1). destruct (MakeDomain ret_type sc s1) as [r s2]. simpl in *.
    etrans; [exact H1|]. etrans; [exact IHret|]. by apply prefix_app_r.
Qed.

Lemma free_shaped_FuncType a old arg_types ret_type p :
  free_shaped a old (FuncType arg_types ret_type) p ↔
  ∃ ps r, a !! p = Some {| se_scope_ := scope_FullyUnconstrained;
                           args_and_result_ := ps ++ [r] |} ∧
          old ≤ p ∧
          Forall2 (free_shaped a old) arg_types ps ∧
          free_shaped a old ret_type r.
Proof.
  simpl. split; intros (ps & r & Hp & Hold & Hall & Hret); exists ps, r;
    (split_and!; [done|done| |done]).
  - clear Hp. revert ps Hall.
    induction arg_types as [|ty tys IH]; intros [|q ps] Hall; try done; try (by constructor).
    destruct Hall as [Hq Hall]. constructor; [done|by apply IH].
  - clear Hp. induction Hall as [|ty q tys ps Hq Hall IH]; [done|by split].
Qed.

Lemma free_shaped_mono a a' old old' type : ∀ p,
  a `prefix_of` a' → old' ≤ old → free_shaped a old type p → free_shaped a' old' type p.
Proof.
  induction type as [tag|arg_types ret_type IHargs IHret] using Ty_induction;
    intros p Hpre Hold.
  - simpl. intros [Hp ?]. split; [by eapply prefix_lookup_Some|lia].
  - rewrite !free_shaped_FuncType. intros (ps & r & Hp & ? & Hall & Hret).
    exists ps, r. split_and!; [by eapply prefix_lookup_Some|lia| |by apply IHret].
    clear Hp. induction Hall as [|ty q tys ps' Hq Hall IH]; [constructor|].
    apply Forall_cons in IHargs as [Hty Htys]. constructor; [by apply Hty|by apply IH].
Qed.

Section Free.

Hypothesis Hfu : scope_IsFullyConstrained (scope_FullyUnconstrained (SEScope := SEScope)) = false.

Lemma MakeDomain_args_free tys :
  Forall (λ ty, ∀ s, free_shaped (arena (MakeDomain ty scope_FullyUnconstrained s).2)
                       (length (arena s)) ty (MakeDomain ty scope_FullyUnconstrained s).1) tys →
  Forall (λ ty, ∀ sc s, arena s `prefix_of` arena (MakeDomain ty sc s).2) tys →
  ∀ s, Forall2 (free_shaped (arena (MakeDomain_args tys s).2) (length (arena s)))
         tys (MakeDomain_args tys s).1.
Proof.
  induction 1 as [|ty tys Hty _ IH]; intros Hpre s; simpl; [constructor|].
  apply Forall_cons in Hpre as [Hpre1 Hpre].
  specialize (Hty s). specialize (Hpre1 scope_FullyUnconstrained s).
  destruct (MakeDomain ty scope_FullyUnconstrained s) as [q s1].
  specialize (IH Hpre s1).
  pose proof (MakeDomain_args_prefix _ Hpre s1) as Hpre2.
  destruct (MakeDomain_args tys s1) as [qs s2]. simpl in *. constructor.
  - eapply (free_shaped_mono (arena s1)); [exact Hpre2|reflexivity|exact Hty].
  - eapply Forall2_impl; [exact IH|]. intros ty' q' Hq'.
    eapply (free_shaped_mono (arena s2)); [reflexivity| |exact Hq'].
    by apply prefix_length.
Qed.

Lemma MakeDomain_free type : ∀ s,
  free_shaped (arena (MakeDomain type scope_FullyUnconstrained s).2)
    (length (arena s)) type (MakeDomain type scope_FullyUnconstrained s).1.
Proof.
  induction type as [tag|arg_types ret_type IHargs IHret] using Ty_induction; intros s.
  - simpl. unfold MakeFirstOrderDomain. rewrite Hfu. simpl.
    split; [|done]. by rewrite lookup_app_r, Nat.sub_diag.
  - rewrite MakeDomain_FuncType.
    assert (Forall (λ ty, ∀ sc s, arena s `prefix_of` arena (MakeDomain ty sc s).2) arg_types)
      as Hpre by (apply Forall_forall; intros; apply MakeDomain_prefix).
    pose proof (MakeDomain_args_free _ IHargs Hpre s) as Hargs.
    pose proof (MakeDomain_args_prefix _ Hpre s) as Hpre1.
    destruct (MakeDomain_args arg_types s) as [ds s1].
    specialize (IHret s1).
    pose proof (MakeDomain_prefix ret_type scope_FullyUnconstrained s1) as Hpre2.
    destruct (MakeDomain ret_type scope_FullyUnconstrained s1) as [r s2]. simpl in *.
    apply free_shaped_FuncType. exists ds, r.
    apply prefix_length in Hpre1 as Hl1. apply prefix_length in Hpre2 as Hl2.
    split_and!.
    + by rewrite lookup_app_r, Nat.sub_diag.
    + lia.
    + eapply Forall2_impl; [exact Hargs|]. intros ty' q' Hq'.
      eapply (free_shaped_mono (arena s1)); [|reflexivity|exact Hq'].
      etrans; [exact Hpre2|]. by apply prefix_app_r.
    + eapply (free_shaped_mono (arena s2)); [|exact Hl1|exact IHret]. by apply prefix_app_r.
Qed.

(** C3, as the code has it.  For a function type of arity n and a scope,
    [MakeDomain] returns a higher-order domain with exactly n+1 parts.  The
    first n parts are [MakeDomain] of the argument types at the fully
    unconstrained scope: domains shaped by the argument types, first-order
    for an argument type that is not a function type and higher-order for
    one that is, all of whose leaves are fresh and fully unconstrained.  The
    last part is [MakeDomain] of the result type at the requested scope. *)
Theorem MakeDomain_function_type arg_types ret_type sc s :
  ∃ ps s1 r s2 p s',
    MakeDomain_args arg_types s = (ps, s1) ∧
    MakeDomain ret_type sc s1 = (r, s2) ∧
    MakeDomain (FuncType arg_types ret_type) sc s = (p, s') ∧
    arena s' !! p = Some {| se_scope_ := scope_FullyUnconstrained;
                            args_and_result_ := ps ++ [r] |} ∧
    length (ps ++ [r]) = length arg_types + 1 ∧
    Forall2 (free_shaped (arena s') (length (arena s))) arg_types ps ∧
    Forall2 (λ ty q,
               match ty with
               | OtherType _ =>
                   arena s' !! q = Some {| se_scope_ := scope_FullyUnconstrained;
                                           args_and_result_ := [] |} ∧
                   length (arena s) ≤ q
               | FuncType _ _ =>
                   ∃ dq, arena s' !! q = Some dq ∧ is_higher_order dq = true
               end) arg_types ps.
Proof.
  rewrite MakeDomain_FuncType.
  assert (Forall (λ ty, ∀ sc s, arena s `prefix_of` arena (MakeDomain ty sc s).2) arg_types)
    as Hpre by (apply Forall_forall; intros; apply MakeDomain_prefix).
  assert (Forall (λ ty, ∀ s, free_shaped (arena (MakeDomain ty scope_FullyUnconstrained s).2)
                       (length (arena s)) ty (MakeDomain ty scope_FullyUnconstrained s).1)
            arg_types) as Hfree by (apply Forall_forall; intros; apply MakeDomain_free).
  pose proof (MakeDomain_args_free _ Hfree Hpre s) as Hargs.
  destruct (MakeDomain_args arg_types s) as [ps s1] eqn:Hps.
  pose proof (MakeDomain_prefix ret_type sc s1) as Hpre2.
  destruct (MakeDomain ret_type sc s1) as [r s2] eqn:Hr. simpl in *.
  eexists ps, s1, r, s2, _, _. split_and!; [reflexivity|exact Hr|reflexivity| | | |].
  - simpl. by rewrite lookup_app_r, Nat.sub_diag.
  - rewrite length_app. simpl. by rewrite (Forall2_length _ _ _ Hargs).
  - simpl. eapply Forall2_impl; [exact Hargs|]. intros ty' q' Hq'.
    eapply (free_shaped_mono (arena s1)); [|reflexivity|exact Hq'].
    etrans; [exact Hpre2|]. by apply prefix_app_r.
  - simpl. eapply Forall2_impl; [exact Hargs|]. intros ty' q' Hq'.
    assert (free_shaped (arena s2 ++ [{| se_scope_ := scope_FullyUnconstrained;
                                         args_and_result_ := ps ++ [r] |}])
              (length (arena s)) ty' q') as Hq.
    { eapply (free_shaped_mono (arena s1)); [|reflexivity|exact Hq'].
      etrans; [exact Hpre2|]. by apply prefix_app_r. }
    destruct ty' as [tys ret|tag]; [|done].
    apply free_shaped_FuncType in Hq as (qs & qr & Hq & _).
    eexists. split; [done|]. unfold is_higher_order. simpl.
    rewrite bool_decide_eq_false_2; [done|]. by destruct qs.
Qed.

End Free.

(** ** [JoinOrNull] and [UnifyOrNull] keep the invariant *)

Section Solver.

Hypothesis HL : ScopeLaws config_.

Lemma unconstrained_not_constrained :
  scope_IsFullyConstrained (scope_FullyUnconstrained (SEScope := SEScope)) = false.
Proof.
  destruct (scope_IsFullyConstrained scope_FullyUnconstrained) eqn:Hc; [|done].
  apply (constrained_not_unconstrained _ HL) in Hc.
  by rewrite (unconstrained_is_unconstrained _ HL) in Hc.
Qed.

Lemma depth_fmap_extends s s' (l : list nat) :
  extends s s' → Forall (valid s) l → depth (arena s') <$> l = depth (arena s) <$> l.
Proof.
  intros Hext Hl. apply Forall_fmap_ext. eapply Forall_impl; [exact Hl|].
  intros x Hx. by apply extends_depth.
Qed.

Lemma join_parts_spec unify ls rs s res s' :
  Unify_spec unify → Inv s → Forall (valid s) ls → Forall (valid s) rs →
  length ls = length rs →
  join_parts unify ls rs s = Ok (res, s') →
  step_ok s s' ∧ new_keys_below s s' (S (max_list (depth (arena s) <$> ls))) ∧
  ∀ js, res = Some js →
    Forall (valid s') js ∧
    depth (arena s') <$> js = depth (arena s) <$> ls ∧
    depth (arena s) <$> rs = depth (arena s) <$> ls.
Proof.
  intros HU. revert rs s res s'.
  induction ls as [|l ls IH]; intros [|r rs] s res s' HI Hls Hrs Hlen; simpl in Hlen; try done.
  - simpl. intros [<- <-]%ret_Ok.
    split_and!; [by apply step_ok_refl|by apply new_keys_below_none|].
    by intros js [= <-].
  - simpl. intros (u & s1 & Hu & Hk)%bind_Ok.
    apply Forall_cons in Hls as [Hl Hls]. apply Forall_cons in Hrs as [Hr Hrs].
    destruct (HU _ _ _ _ _ HI Hl Hr Hu) as (Hstep1 & Hnew1 & Hres1).
    destruct u as [j|].
    + apply bind_Ok in Hk as (rest & s2 & Hrest & Hk). apply ret_Ok in Hk as [<- <-].
      pose proof (so_inv _ _ Hstep1) as HI1. pose proof (so_ext _ _ Hstep1) as He1.
      destruct (IH rs s1 rest s2) as (Hstep2 & Hnew2 & Hres2); [done| | |lia|done|].
      { eapply Forall_impl; [exact Hls|]. intros x. by apply extends_valid. }
      { eapply Forall_impl; [exact Hrs|]. intros x. by apply extends_valid. }
      pose proof (so_ext _ _ Hstep2) as He2.
      rewrite (depth_fmap_extends s s1 ls) in Hnew2 by done.
      split_and!.
      * by eapply step_ok_trans.
      * eapply new_keys_below_trans; [exact HI1|exact He2| |].
        -- eapply new_keys_below_mono; [|exact Hnew1]. simpl. apply le_n_S, Nat.le_max_l.
        -- eapply new_keys_below_mono; [|exact Hnew2]. simpl. apply le_n_S, Nat.le_max_r.
      * intros js Hjs. destruct rest as [js'|]; simpl in Hjs; [|done]. injection Hjs as <-.
        destruct (Hres1 j eq_refl) as (Hvj & _ & _ & _ & Hdj & Hdr).
        destruct (Hres2 js' eq_refl) as (Hvjs & Hd1 & Hd2).
        rewrite (depth_fmap_extends s s1 ls) in Hd1, Hd2 by done.
        rewrite (depth_fmap_extends s s1 rs) in Hd2 by done.
        split_and!.
        -- constructor; [by eapply extends_valid|done].
        -- simpl. f_equal; [|done]. by rewrite (extends_depth s1 s2).
        -- simpl. by f_equal.
    + apply ret_Ok in Hk as [<- <-]. split_and!; [done| |by intros js [=]].
      eapply new_keys_below_mono; [|exact Hnew1]. simpl. apply le_n_S, Nat.le_max_l.
Qed.

Lemma JoinOrNull_body_spec unify l r s res s' :
  Unify_spec unify → Inv s → valid s l → valid s r →
  domain_to_equiv_ s !! l = None → domain_to_equiv_ s !! r = None →
  JoinOrNull_body config_ unify l r s = Ok (res, s') →
  Join_post l r s res s'.
Proof.
  intros HU HI Hl Hr Hln Hrn. unfold JoinOrNull_body, Join_post.
  destruct (decide (l = r)) as [<-|Hne].
  { intros [<- <-]%ret_Ok.
    split_and!; [by apply step_ok_refl|by apply new_keys_below_none|].
    intros j [= <-]. by split_and!. }
  intros (dl & s1 & [Hdl ->]%deref_Ok & Hk)%bind_Ok.
  apply bind_Ok in Hk as (dr & s1 & [Hdr ->]%deref_Ok & Hk).
  apply bind_Ok in Hk as (u & s1 & [Hlen ->]%ICHECK_Ok & Hk).
  apply bool_decide_eq_true in Hlen.
  case_bool_decide as Hfo.
  - (* first-order *)
    assert (args_and_result_ dr = []) as Hfo'.
    { apply nil_length_inv. by rewrite <-Hlen, Hfo. }
    pose proof (depth_first_order _ _ _ Hdl Hfo) as Hd0l.
    pose proof (depth_first_order _ _ _ Hdr Hfo') as Hd0r.
    destruct (scope_IsFullyUnconstrained (se_scope_ dr)) eqn:Hfur.
    { apply ret_Ok in Hk as [<- <-].
      split_and!; [by apply step_ok_refl|by apply new_keys_below_none|].
      intros j [= <-]. split_and!; [done|done|done|congruence|done| |done].
      intros d Hd _ Hfc. assert (d = dr) as -> by congruence.
      apply (constrained_not_unconstrained _ HL) in Hfc. congruence. }
    destruct (scope_IsFullyUnconstrained (se_scope_ dl)) eqn:Hful.
    { apply ret_Ok in Hk as [<- <-].
      split_and!; [by apply step_ok_refl|by apply new_keys_below_none|].
      intros j [= <-]. split_and!; [done|done|congruence|congruence| |done|done].
      intros d Hd _ Hfc. assert (d = dl) as -> by congruence.
      apply (constrained_not_unconstrained _ HL) in Hfc. congruence. }
    destruct (scope_Join (se_scope_ dl) (se_scope_ dr)) as [c|] eqn:Hjoin.
    + apply bind_Ok in Hk as (j & s2 & Hm%lift_Ok & [<- <-]%ret_Ok).
      destruct (MakeFirstOrderDomain_spec _ _ _ _ HI Hm) as (HI' & Hext & Htbl & Hj & Hfresh).
      split_and!.
      * split; [done|done| |]; rewrite Htbl; done.
      * apply new_keys_below_none. by rewrite Htbl.
      * intros ? [= <-]. split_and!.
        -- by eapply lookup_lt_Some.
        -- destruct (scope_IsFullyConstrained (CanonicalSEScope config_ c)) eqn:Hfc.
           ++ by eapply (inv_constrained_root s2 HI' j).
           ++ destruct (Hfresh eq_refl) as (-> & _). rewrite Htbl.
              destruct (domain_to_equiv_ s !! length (arena s)) as [v|] eqn:Hv; [|done].
              destruct (inv_entries s HI _ _ Hv) as (? & _). lia.
        -- rewrite Hd0l. by eapply depth_first_order.
        -- congruence.
        -- intros d Hd _ Hfc. assert (d = dl) as -> by congruence.
           pose proof (join_constrained_l _ HL _ _ _ Hfc Hjoin) as Hc.
           pose proof (inv_interned_all s HI l dl Hdl Hfo Hfc) as Hi.
           unfold MakeFirstOrderDomain in Hm. rewrite Hc, Hfc, Hi in Hm. congruence.
        -- intros d Hd _ Hfc. assert (d = dr) as -> by congruence.
           pose proof (join_constrained_r _ HL _ _ _ Hfc Hjoin) as Hc.
           pose proof (inv_interned_all s HI r dr Hdr Hfo' Hfc) as Hi.
           unfold MakeFirstOrderDomain in Hm. rewrite Hc, Hfc, Hi in Hm. congruence.
        -- done.
    + apply ret_Ok in Hk as [<- <-].
      split_and!; [by apply step_ok_refl|by apply new_keys_below_none|by intros j [=]].
  - (* higher-order *)
    assert (args_and_result_ dr ≠ []) as Hho'.
    { intros Hnil. apply Hfo. apply nil_length_inv. by rewrite Hlen, Hnil. }
    apply bind_Ok in Hk as (parts & s1 & Hjp & Hk).
    assert (Forall (valid s) (args_and_result_ dl)) as Hvl.
    { eapply Forall_impl; [by apply (inv_parts s HI l dl)|]. unfold valid in *. simpl. lia. }
    assert (Forall (valid s) (args_and_result_ dr)) as Hvr.
    { eapply Forall_impl; [by apply (inv_parts s HI r dr)|]. unfold valid in *. simpl. lia. }
    destruct (join_parts_spec _ _ _ _ _ _ HU HI Hvl Hvr Hlen Hjp) as (Hstep1 & Hnew1 & Hres1).
    rewrite <-(depth_higher_order (arena s) l dl) in Hnew1 by (done || apply HI).
    pose proof (so_inv _ _ Hstep1) as HI1. pose proof (so_ext _ _ Hstep1) as He1.
    destruct parts as [js|].
    + apply bind_Ok in Hk as (j & s2 & Hm%lift_Ok & [<- <-]%ret_Ok).
      destruct (Hres1 js eq_refl) as (Hvjs & Hdjs & Hdrs).
      destruct (MakeHigherOrderDomain_spec _ _ _ _ HI1 Hvjs unconstrained_not_constrained Hm)
        as (HI2 & He2 & Htbl & -> & Ha2).
      assert (step_ok s1 s2) as Hstep2.
      { split; [done|done| |]; rewrite Htbl; done. }
      split_and!.
      * by eapply step_ok_trans.
      * eapply new_keys_below_trans; [exact HI1|exact He2|exact Hnew1|].
        apply new_keys_below_none. by rewrite Htbl.
      * intros ? [= <-].
        assert (js ≠ []) as Hjs.
        { intros ->. apply Hfo. apply (f_equal length) in Hdjs.
          rewrite !length_fmap in Hdjs. simpl in Hdjs. by apply nil_length_inv. }
        split_and!.
        -- unfold valid. rewrite Ha2, length_app. simpl. lia.
        -- rewrite Htbl.
           destruct (domain_to_equiv_ s1 !! length (arena s1)) as [v|] eqn:Hv; [|done].
           destruct (inv_entries s1 HI1 _ _ Hv) as (? & _). lia.
        -- rewrite (depth_higher_order (arena s2) (length (arena s1))
                      {| se_scope_ := scope_FullyUnconstrained; args_and_result_ := js |}).
           ++ simpl. rewrite (depth_fmap_extends s1 s2) by done. rewrite Hdjs.
              symmetry. apply depth_higher_order; [apply HI|done|done].
           ++ apply HI2.
           ++ rewrite Ha2. by rewrite lookup_app_r, Nat.sub_diag.
           ++ done.
        -- rewrite (depth_higher_order (arena s) r dr) by (done || apply HI).
           rewrite (depth_higher_order (arena s) l dl) by (done || apply HI).
           by rewrite Hdrs.
        -- intros d Hd Hargs _. assert (d = dl) as -> by congruence. done.
        -- intros d Hd Hargs _. assert (d = dr) as -> by congruence. done.
        -- done.
    + apply ret_Ok in Hk as [<- <-]. split_and!; [done|done|by intros j [=]].
Qed.

Lemma UnifyOrNull_body_spec join lhs rhs s res s' :
  (∀ l r s res s',
     Inv s → valid s l → valid s r →
     domain_to_equiv_ s !! l = None → domain_to_equiv_ s !! r = None →
     join l r s = Ok (res, s') → Join_post l r s res s') →
  Inv s → valid s lhs → valid s rhs →
  UnifyOrNull_body join lhs rhs s = Ok (res, s') →
  Unify_post lhs rhs s res s'.
Proof.
  intros HJ HI Hl Hr. unfold UnifyOrNull_body, Unify_post.
  intros (l' & s1 & HL1 & Hk)%bind_Ok.
  apply bind_Ok in Hk as (r' & s2 & HL2 & Hk).
  apply bind_Ok in Hk as (jr & s3 & Hj & Hk).
  destruct (Lookup_step _ _ _ _ HI Hl HL1) as (Hstep1 & Ha1 & Hdom1 & Hroot1 & Hvl' & Hl'n & Hroots1).
  pose proof (so_inv _ _ Hstep1) as HI1.
  assert (valid s1 rhs) as Hr1 by (unfold valid; by rewrite Ha1).
  destruct (Lookup_step _ _ _ _ HI1 Hr1 HL2) as (Hstep2 & Ha2 & Hdom2 & Hroot2 & Hvr' & Hr'n & Hroots2).
  pose proof (so_inv _ _ Hstep2) as HI2.
  assert (domain_to_equiv_ s2 !! l' = None) as Hl'n2.
  { apply not_elem_of_dom. rewrite Hdom2. by apply not_elem_of_dom. }
  assert (valid s2 l') as Hvl2 by (unfold valid in *; by rewrite Ha2, Ha1).
  assert (valid s2 r') as Hvr2 by (unfold valid in *; by rewrite Ha2).
  destruct (HJ _ _ _ _ _ HI2 Hvl2 Hvr2 Hl'n2 Hr'n Hj) as (Hstep3 & Hnew3 & Hres3).
  pose proof (so_inv _ _ Hstep3) as HI3. pose proof (so_ext _ _ Hstep3) as He3.
  assert (depth (arena s2) l' = depth (arena s) lhs) as Hdl.
  { rewrite Ha2, Ha1. symmetry. by apply root_of_depth. }
  assert (depth (arena s2) r' = depth (arena s) rhs) as Hdr.
  { rewrite Ha2, <-Ha1. symmetry. by apply root_of_depth. }
  assert (new_keys_below s s3 (S (depth (arena s) lhs))) as Hnew.
  { eapply new_keys_below_trans; [exact HI1|by eapply extends_trans; [apply Hstep2|]| |].
    { by apply new_keys_below_none. }
    eapply new_keys_below_trans; [exact HI2|done| |].
    { by apply new_keys_below_none. }
    eapply new_keys_below_mono; [|exact Hnew3]. lia. }
  assert (step_ok s s3) as Hstep.
  { eapply step_ok_trans; [exact Hstep1|]. by eapply step_ok_trans. }
  destruct jr as [j|]; cycle 1.
  { apply ret_Ok in Hk as [<- <-]. split_and!; [done|done|by intros j [=]]. }
  apply bind_Ok in Hk as (u1 & s4 & Hlink1 & Hk).
  apply bind_Ok in Hk as (u2 & s5 & Hlink2 & Hk).
  apply ret_Ok in Hk as [<- <-].
  destruct (Hres3 j eq_refl) as (Hvj & Hjn & Hdj & Hdrl & Hfcl & Hfcr & Hid).
  assert (domain_to_equiv_ s3 !! l' = None) as Hl'n3.
  { destruct (domain_to_equiv_ s3 !! l') as [v|] eqn:Hv; [|done].
    assert (depth (arena s3) l' < depth (arena s2) l') as Hlt by (apply Hnew3; [done|by eexists]).
    rewrite (extends_depth s2 s3) in Hlt by done. lia. }
  assert (domain_to_equiv_ s3 !! r' = None) as Hr'n3.
  { destruct (domain_to_equiv_ s3 !! r') as [v|] eqn:Hv; [|done].
    assert (depth (arena s3) r' < depth (arena s2) l') as Hlt by (apply Hnew3; [done|by eexists]).
    rewrite (extends_depth s2 s3) in Hlt by done. lia. }
  assert (valid s3 l') as Hvl3 by (by eapply extends_valid).
  assert (valid s3 r') as Hvr3 by (by eapply extends_valid).
  destruct (link_step s3 l' j u1 s4) as (Hstep4 & Ha4 & Hnew4 & Hjn4 & Hroots4 & Hother4 & _);
    try done.
  { rewrite Hdj. by apply extends_depth. }
  { intros d Hd. destruct (Inv_valid_lookup s2 l' Hvl2) as [d2 Hd2].
    rewrite (extends_lookup s2 s3 l' d2 He3 Hd2) in Hd. injection Hd as <-. by apply Hfcl. }
  pose proof (so_inv _ _ Hstep4) as HI4.
  assert (domain_to_equiv_ s4 !! r' = None) as Hr'n4.
  { destruct (decide (r' = l')) as [->|Hne]; [|by rewrite Hother4].
    by rewrite (Hid eq_refl) in Hjn4. }
  destruct (link_step s4 r' j u2 s5) as (Hstep5 & Ha5 & Hnew5 & Hjn5 & Hroots5 & Hother5 & _);
    try done.
  { unfold valid. by rewrite Ha4. }
  { unfold valid. by rewrite Ha4. }
  { rewrite Ha4, Hdj, <-Hdrl. by apply extends_depth. }
  { rewrite Ha4. intros d Hd. destruct (Inv_valid_lookup s2 r' Hvr2) as [d2 Hd2].
    rewrite (extends_lookup s2 s3 r' d2 He3 Hd2) in Hd. injection Hd as <-. by apply Hfcr. }
  split_and!.
  - eapply step_ok_trans; [exact Hstep|]. by eapply step_ok_trans.
  - eapply new_keys_below_trans; [exact HI3|by eapply extends_trans; [apply Hstep4|apply Hstep5]|done|].
    eapply new_keys_below_trans; [exact HI4|apply Hstep5| |].
    + rewrite (extends_depth s2 s3), Hdl in Hnew4 by done. done.
    + rewrite Ha4, (extends_depth s2 s3), Hdrl, Hdl in Hnew5 by done. done.
  - intros ? [= <-]. split_and!.
    + unfold valid. by rewrite Ha5, Ha4.
    + done.
    + assert (root_of (domain_to_equiv_ s3) lhs l') as H3.
      { apply (so_stable _ _ Hstep3); [|done]. by apply Hroots2, Hroots1. }
      apply Hroots4 in H3. rewrite decide_True in H3 by done.
      apply Hroots5 in H3. by destruct (decide (j = r')).
    + assert (root_of (domain_to_equiv_ s3) rhs r') as H3.
      { apply (so_stable _ _ Hstep3); [|done]. by apply Hroots2. }
      apply Hroots4 in H3. destruct (decide (r' = l')).
      * apply Hroots5 in H3. by destruct (decide (j = r')).
      * apply Hroots5 in H3. by rewrite decide_True in H3.
    + rewrite Ha5, Ha4. congruence.
    + congruence.
Qed.

Lemma UnifyOrNull_spec fuel : Unify_spec (UnifyOrNull config_ fuel).
Proof.
  induction fuel as [|fuel IH]; intros lhs rhs s res s' HI Hl Hr; simpl; [done|].
  apply UnifyOrNull_body_spec; [|done|done|done].
  intros l r s0 res0 s0'. by apply JoinOrNull_body_spec.
Qed.

Lemma JoinOrNull_spec fuel l r s res s' :
  Inv s → valid s l → valid s r →
  domain_to_equiv_ s !! l = None → domain_to_equiv_ s !! r = None →
  JoinOrNull config_ fuel l r s = Ok (res, s') →
  Join_post l r s res s'.
Proof. apply JoinOrNull_body_spec, UnifyOrNull_spec. Qed.

(** ** The factory keeps the invariant *)

Lemma MakeFirstOrderDomain_post sc s p s' :
  Inv s → MakeFirstOrderDomain sc s = (p, s') → factory_post s p s'.
Proof.
  intros HI Hm. destruct (MakeFirstOrderDomain_spec _ _ _ _ HI Hm) as (? & ? & ? & Hp & _).
  split_and!; [done|done|done|]. by eapply lookup_lt_Some.
Qed.

Lemma MakeHigherOrderDomain_post parts s p s' :
  Inv s → Forall (valid s) parts → MakeHigherOrderDomain parts s = (p, s') →
  factory_post s p s'.
Proof.
  intros HI Hparts Hm.
  destruct (MakeHigherOrderDomain_spec _ _ _ _ HI Hparts unconstrained_not_constrained Hm)
    as (? & ? & ? & -> & Ha).
  split_and!; [done|done|done|]. unfold valid. rewrite Ha, length_app. simpl. lia.
Qed.

Lemma MakeDomain_args_post tys :
  Forall (λ ty, ∀ sc s p s', Inv s → MakeDomain ty sc s = (p, s') → factory_post s p s') tys →
  ∀ s ps s', Inv s → MakeDomain_args tys s = (ps, s') →
    Inv s' ∧ extends s s' ∧ domain_to_equiv_ s' = domain_to_equiv_ s ∧
    Forall (valid s') ps ∧ length ps = length tys.
Proof.
  induction 1 as [|ty tys Hty _ IH]; intros s ps s' HI; simpl.
  - intros [= <- <-]. split_and!; [done|apply extends_refl|done|done|done].
  - destruct (MakeDomain ty scope_FullyUnconstrained s) as [d s1] eqn:Hd.
    destruct (MakeDomain_args tys s1) as [ds s2] eqn:Hds. intros [= <- <-].
    destruct (Hty _ _ _ _ HI Hd) as (HI1 & He1 & Ht1 & Hv1).
    destruct (IH _ _ _ HI1 Hds) as (HI2 & He2 & Ht2 & Hv2 & Hlen).
    split_and!; [done|by eapply extends_trans|congruence| |simpl; congruence].
    constructor; [by eapply extends_valid|done].
Qed.

Lemma MakeDomain_post type : ∀ sc s p s',
  Inv s → MakeDomain type sc s = (p, s') → factory_post s p s'.
Proof.
  induction type as [tag|arg_types ret_type IHargs IHret] using Ty_induction;
    intros sc s p s' HI.
  - simpl. by apply MakeFirstOrderDomain_post.
  - rewrite MakeDomain_FuncType.
    destruct (MakeDomain_args arg_types s) as [ds s1] eqn:Hds.
    destruct (MakeDomain ret_type sc s1) as [r s2] eqn:Hr. intros Hm.
    destruct (MakeDomain_args_post _ IHargs _ _ _ HI Hds) as (HI1 & He1 & Ht1 & Hv1 & _).
    destruct (IHret _ _ _ _ HI1 Hr) as (HI2 & He2 & Ht2 & Hv2).
    assert (Forall (valid s2) (ds ++ [r])) as Hparts.
    { apply Forall_app. split; [|by constructor].
      eapply Forall_impl; [exact Hv1|]. intros x. by apply extends_valid. }
    destruct (MakeHigherOrderDomain_post _ _ _ _ HI2 Hparts Hm) as (HI3 & He3 & Ht3 & Hv3).
    split_and!; [done| |congruence|done].
    eapply extends_trans; [exact He1|]. by eapply extends_trans.
Qed.

Lemma Inv_empty : Inv (empty_domains (SEScope := SEScope)).
Proof.
  split; simpl.
  - intros p d Hp. by rewrite lookup_nil in Hp.
  - intros k v Hkv. by rewrite lookup_empty in Hkv.
  - apply acyclic_empty.
  - intros k v Hkv. by rewrite lookup_empty in Hkv.
  - intros sc p Hp. by rewrite lookup_empty in Hp.
  - intros p d Hp. by rewrite lookup_nil in Hp.
  - done.
Qed.

Lemma Inv_new : Inv (new_DeviceDomains config_).
Proof.
  unfold new_DeviceDomains.
  destruct (MakeFirstOrderDomain (host_se_scope config_) empty_domains) as [h s] eqn:Hm.
  destruct (MakeFirstOrderDomain_post _ _ _ _ Inv_empty Hm) as (HI & _).
  destruct HI. by split.
Qed.

Lemma reachable_Inv s : reachable config_ s → Inv s.
Proof.
  induction 1 as [|s sc Hs IH|s ty sc Hs IH|s parts Hs IH Hparts
                  |s p r s' Hs IH Hp HL'|s fuel lhs rhs res s' Hs IH Hl Hr HU].
  - apply Inv_new.
  - destruct (MakeFirstOrderDomain sc s) as [p s'] eqn:Hm.
    by destruct (MakeFirstOrderDomain_post _ _ _ _ IH Hm).
  - destruct (MakeDomain ty sc s) as [p s'] eqn:Hm.
    by destruct (MakeDomain_post _ _ _ _ _ IH Hm).
  - destruct (MakeHigherOrderDomain parts s) as [p s'] eqn:Hm.
    by destruct (MakeHigherOrderDomain_post _ _ _ _ IH Hparts Hm).
  - by destruct (Lookup_step _ _ _ _ IH Hp HL') as [[] _].
  - by destruct (UnifyOrNull_spec fuel _ _ _ _ _ IH Hl Hr HU) as [[] _].
Qed.

(** ** Unification of first-order domains *)

Lemma first_order_record d :
  args_and_result_ d = [] → d = {| se_scope_ := se_scope_ d; args_and_result_ := [] |}.
Proof. destruct d as [sc parts]. simpl. by intros ->. Qed.

Lemma Join_first_order unify l r s dl dr :
  Inv s → arena s !! l = Some dl → arena s !! r = Some dr →
  args_and_result_ dl = [] → args_and_result_ dr = [] →
  ∃ jr s3, JoinOrNull_body config_ unify l r s = Ok (jr, s3) ∧
    domain_to_equiv_ s3 = domain_to_equiv_ s ∧
    match (if decide (l = r) then Some (se_scope_ dl)
           else first_order_join config_ (se_scope_ dl) (se_scope_ dr)) with
    | None => jr = None ∧ s3 = s
    | Some c => ∃ j, jr = Some j ∧
        arena s3 !! j = Some {| se_scope_ := c; args_and_result_ := [] |}
    end.
Proof.
  intros HI Hdl Hdr Hfl Hfr. unfold JoinOrNull_body.
  destruct (decide (l = r)) as [<-|Hne].
  { eexists _, _. split; [done|]. split; [done|]. exists l. split; [done|].
    by rewrite Hdl, (first_order_record dl) at 1. }
  unfold bind at 1. unfold deref at 1. rewrite Hdl.
  unfold bind at 1. unfold deref at 1. rewrite Hdr.
  unfold bind at 1. rewrite Hfl, Hfr. simpl.
  unfold first_order_join.
  destruct (scope_IsFullyUnconstrained (se_scope_ dr)).
  { eexists _, _. split; [done|]. split; [done|]. exists l. split; [done|].
    by rewrite Hdl, (first_order_record dl) at 1. }
  destruct (scope_IsFullyUnconstrained (se_scope_ dl)).
  { eexists _, _. split; [done|]. split; [done|]. exists r. split; [done|].
    by rewrite Hdr, (first_order_record dr) at 1. }
  destruct (scope_Join (se_scope_ dl) (se_scope_ dr)) as [c|]; simpl.
  - unfold bind, lift.
    destruct (MakeFirstOrderDomain (CanonicalSEScope config_ c) s) as [j s3] eqn:Hm.
    destruct (MakeFirstOrderDomain_spec _ _ _ _ HI Hm) as (_ & _ & Ht & Hj & _).
    eexists _, _. split; [done|]. split; [done|]. by exists j.
  - by eexists _, _.
Qed.

Lemma link_total k j s :
  ∃ s', (if decide (k = j) then ret tt else emplace_equiv k j) s = Ok (tt, s').
Proof. destruct (decide (k = j)); by eexists. Qed.

Lemma Lookup_root_of p s r :
  Inv s → valid s p → root_of (domain_to_equiv_ s) p r →
  ∃ s', Lookup p s = Ok (r, s') ∧ step_ok s s' ∧ arena s' = arena s ∧
    domain_to_equiv_ s' !! r = None ∧
    dom (domain_to_equiv_ s') = dom (domain_to_equiv_ s) ∧
    (∀ x r', root_of (domain_to_equiv_ s') x r' ↔ root_of (domain_to_equiv_ s) x r').
Proof.
  intros HI Hp Hr. destruct (Lookup_total p s) as (r0 & s' & HL'); [by eexists|].
  destruct (Lookup_step _ _ _ _ HI Hp HL') as (? & ? & ? & Hr0 & ? & ? & ?).
  rewrite (root_of_det _ _ _ _ Hr Hr0). by exists s'.
Qed.

Lemma Unify_first_order fuel lhs rhs s l' r' dl dr :
  Inv s → valid s lhs → valid s rhs →
  root_of (domain_to_equiv_ s) lhs l' → root_of (domain_to_equiv_ s) rhs r' →
  arena s !! l' = Some dl → arena s !! r' = Some dr →
  args_and_result_ dl = [] → args_and_result_ dr = [] →
  ∃ res s', UnifyOrNull config_ (S fuel) lhs rhs s = Ok (res, s') ∧ step_ok s s' ∧
    match (if decide (l' = r') then Some (se_scope_ dl)
           else first_order_join config_ (se_scope_ dl) (se_scope_ dr)) with
    | None => res = None ∧ arena s' = arena s ∧
        ∀ x rx, root_of (domain_to_equiv_ s') x rx ↔ root_of (domain_to_equiv_ s) x rx
    | Some c => ∃ j, res = Some j ∧
        arena s' !! j = Some {| se_scope_ := c; args_and_result_ := [] |} ∧
        domain_to_equiv_ s' !! j = None ∧
        ∀ x rx, root_of (domain_to_equiv_ s) x rx →
                root_of (domain_to_equiv_ s') x (if decide (rx = l' ∨ rx = r') then j else rx)
    end.
Proof.
  intros HI Ha Hb Hra Hrb Hdl Hdr Hfl Hfr.
  destruct (Lookup_root_of _ _ _ HI Ha Hra) as (s1 & HL1 & Hstep1 & Ha1 & Hl1 & Hdom1 & Hroots1).
  pose proof (so_inv _ _ Hstep1) as HI1.
  assert (valid s1 rhs) as Hb1 by (unfold valid; by rewrite Ha1).
  assert (root_of (domain_to_equiv_ s1) rhs r') as Hrb1 by (by apply Hroots1).
  destruct (Lookup_root_of _ _ _ HI1 Hb1 Hrb1) as (s2 & HL2 & Hstep2 & Ha2 & Hr2 & Hdom2 & Hroots2).
  pose proof (so_inv _ _ Hstep2) as HI2.
  assert (domain_to_equiv_ s2 !! l' = None) as Hl2.
  { apply not_elem_of_dom. rewrite Hdom2. by apply not_elem_of_dom. }
  assert (arena s2 = arena s) as Ha02 by congruence.
  assert (∀ x rx, root_of (domain_to_equiv_ s2) x rx ↔ root_of (domain_to_equiv_ s) x rx)
    as Hroots02.
  { intros x rx. by rewrite Hroots2, Hroots1. }
  assert (step_ok s s2) as Hstep02 by (by eapply step_ok_trans).
  assert (valid s2 l') as Hvl by (eapply lookup_lt_Some; by rewrite Ha02).
  assert (valid s2 r') as Hvr by (eapply lookup_lt_Some; by rewrite Ha02).
  rewrite <-Ha02 in Hdl, Hdr.
  destruct (Join_first_order (UnifyOrNull config_ fuel) l' r' s2 dl dr)
    as (jr & s3 & Hj & Ht3 & Hcase); try done.
  pose proof (JoinOrNull_body_spec _ _ _ _ _ _ (UnifyOrNull_spec fuel) HI2 Hvl Hvr Hl2 Hr2 Hj)
    as (Hstep3 & _ & Hres3).
  assert (UnifyOrNull config_ (S fuel) lhs rhs s =
          match jr with
          | None => Ok (None, s3)
          | Some j =>
              bind (if decide (l' = j) then ret tt else emplace_equiv l' j)
                (λ _, bind (if decide (r' = j) then ret tt else emplace_equiv r' j)
                        (λ _, ret (Some j))) s3
          end) as ->.
  { simpl. unfold UnifyOrNull_body. unfold bind at 1. rewrite HL1.
    unfold bind at 1. rewrite HL2. unfold bind at 1. rewrite Hj. by destruct jr. }
  destruct (if decide (l' = r') then Some (se_scope_ dl)
            else first_order_join config_ (se_scope_ dl) (se_scope_ dr)) as [c|].
  - destruct Hcase as (j & -> & Hjc).
    destruct (Hres3 j eq_refl) as (Hvj & Hjn & Hdj & Hdrl & Hfcl & Hfcr & Hid).
    pose proof (so_inv _ _ Hstep3) as HI3. pose proof (so_ext _ _ Hstep3) as He3.
    assert (domain_to_equiv_ s3 !! l' = None) as Hl3 by congruence.
    assert (domain_to_equiv_ s3 !! r' = None) as Hr3 by congruence.
    destruct (link_total l' j s3) as [s4 Hlink1].
    destruct (link_step s3 l' j tt s4) as (Hstep4 & Ha4 & _ & Hjn4 & Hroots4 & Hother4 & _);
      try done.
    { by eapply extends_valid. }
    { rewrite Hdj. by apply extends_depth. }
    { intros d Hd. rewrite (extends_lookup s2 s3 l' dl He3 Hdl) in Hd. injection Hd as <-.
      by apply Hfcl. }
    pose proof (so_inv _ _ Hstep4) as HI4.
    destruct (link_total r' j s4) as [s5 Hlink2].
    assert (domain_to_equiv_ s4 !! r' = None) as Hr4.
    { destruct (decide (r' = l')) as [->|Hne]; [|by rewrite Hother4].
      by rewrite (Hid eq_refl) in Hjn4. }
    destruct (link_step s4 r' j tt s5) as (Hstep5 & Ha5 & _ & Hjn5 & Hroots5 & Hother5 & _);
      try done.
    { unfold valid. rewrite Ha4. by eapply extends_valid. }
    { unfold valid. by rewrite Ha4. }
    { rewrite Ha4, Hdj, <-Hdrl. by apply extends_depth. }
    { rewrite Ha4. intros d Hd.
      rewrite (extends_lookup s2 s3 r' dr He3 Hdr) in Hd. injection Hd as <-. by apply Hfcr. }
    exists (Some j), s5. split_and!.
    + unfold bind. by rewrite Hlink1, Hlink2.
    + eapply step_ok_trans; [exact Hstep02|]. eapply step_ok_trans; [exact Hstep3|].
      by eapply step_ok_trans.
    + exists j. split_and!; [done|by rewrite Ha5, Ha4|done|].
      intros x rx Hx. apply Hroots02 in Hx. rewrite <-Ht3 in Hx.
      apply Hroots4 in Hx. apply Hroots5 in Hx.
      destruct (decide (rx = l')) as [->|Hnl].
      * rewrite decide_True by auto. by destruct (decide (j = r')).
      * destruct (decide (rx = r')) as [->|Hnr].
        -- by rewrite decide_True by auto.
        -- rewrite decide_False by (intros [|]; done). done.
  - destruct Hcase as (-> & ->). exists None, s2. split_and!; [done|done|done|done|done].
Qed.

(** ** The equivalence table *)

(** C8. Across every sequence of factory calls, [Lookup]s and
    [UnifyOrNull]s from the constructor's state, following the entries of
    the equivalence table from any domain ends at a domain without an entry
    and never runs into a cycle; no domain is mapped to itself, and so
    [Lookup] returns (a root) on every domain.  The scope lattice is assumed
    to satisfy [ScopeLaws]. *)
Theorem equivalence_table_acyclic s :
  reachable config_ s →
  acyclic (domain_to_equiv_ s) ∧
  (∀ k, domain_to_equiv_ s !! k ≠ Some k) ∧
  (∀ d : nat, ∃ r s', Lookup d s = Ok (r, s') ∧ domain_to_equiv_ s' !! r = None).
Proof.
  intros HI%reachable_Inv. split_and!.
  - apply HI.
  - intros k Hk. by destruct (inv_entries s HI k k Hk) as (_ & _ & ?).
  - intros d. destruct (Lookup_total d s) as (r & s' & HL'); [apply HI|].
    exists r, s'. split; [done|].
    destruct (Lookup_inv _ _ _ _ HL') as (Hr & _ & Hroots & _).
    apply root_of_end with d. by apply Hroots.
Qed.

(** C7. After a successful [UnifyOrNull] of [x] and [y], in either order,
    [Lookup] of [x] and [Lookup] of [y] return the same root, the joined
    domain.  The state is one that satisfies the solver invariant, as every
    reachable state does ([reachable_Inv]). *)
Theorem Unify_same_root fuel x y s j s' :
  Inv s → valid s x → valid s y →
  UnifyOrNull config_ fuel x y s = Ok (Some j, s') ∨
  UnifyOrNull config_ fuel y x s = Ok (Some j, s') →
  ∃ s1 s2, Lookup x s' = Ok (j, s1) ∧ Lookup y s1 = Ok (j, s2).
Proof.
  intros HI Hx Hy HU.
  assert (Inv s' ∧ extends s s' ∧ root_of (domain_to_equiv_ s') x j ∧
          root_of (domain_to_equiv_ s') y j) as (HI' & He & Hrx & Hry).
  { destruct HU as [HU|HU].
    - destruct (UnifyOrNull_spec fuel _ _ _ _ _ HI Hx Hy HU) as (Hstep & _ & Hres).
      destruct (Hres j eq_refl) as (_ & _ & ? & ? & _). split_and!; [apply Hstep..|done|done].
    - destruct (UnifyOrNull_spec fuel _ _ _ _ _ HI Hy Hx HU) as (Hstep & _ & Hres).
      destruct (Hres j eq_refl) as (_ & _ & ? & ? & _). split_and!; [apply Hstep..|done|done]. }
  destruct (Lookup_root_of x s' j) as (s1 & HL1 & Hstep1 & Ha1 & _ & _ & Hroots1);
    [done|by eapply extends_valid|done|].
  destruct (Lookup_root_of y s1 j) as (s2 & HL2 & _);
    [apply Hstep1|unfold valid; rewrite Ha1; by eapply extends_valid|by apply Hroots1|].
  by exists s1, s2.
Qed.


(** ** Defaulting *)

Lemma resolved_det s x sc sc' : resolved s x sc → resolved s x sc' → sc = sc'.
Proof.
  intros (r & d & Hr & Hd & _ & <-) (r' & d' & Hr' & Hd' & _ & <-).
  rewrite (root_of_det _ _ _ _ Hr Hr') in Hd. congruence.
Qed.

Lemma resolved_lookup s s' x sc :
  arena s' = arena s →
  (∀ y ry, root_of (domain_to_equiv_ s') y ry ↔ root_of (domain_to_equiv_ s) y ry) →
  resolved s x sc → resolved s' x sc.
Proof.
  intros Ha Hroots (r & d & Hr & Hd & Hfo & Hsc). exists r, d.
  split_and!; [by apply Hroots|by rewrite Ha|done|done].
Qed.

Lemma SetDefault_S fuel x default_se_scope :
  SetDefault config_ (S fuel) x default_se_scope =
  bind (ICHECK (negb (scope_IsFullyUnconstrained default_se_scope))) (λ _,
  bind (Lookup x) (λ domain,
  bind (deref domain) (λ d,
    if bool_decide (args_and_result_ d = []) then
      bind (lift (MakeFirstOrderDomain
                    (CanonicalSEScope config_
                       (scope_Default (se_scope_ d) default_se_scope)))) (λ fresh,
      bind (UnifyOrNull config_ (S fuel) domain fresh) (λ defaulted_domain_ptr,
      ICHECK (bool_decide (defaulted_domain_ptr ≠ None))))
    else
      for_each (λ sub_domain, SetDefault config_ fuel sub_domain default_se_scope)
        (args_and_result_ d)))).
Proof. reflexivity. Qed.

Lemma SetDefault_via_Unify fuel x default_se_scope s rx drx :
  Inv s → valid s x → root_of (domain_to_equiv_ s) x rx →
  arena s !! rx = Some drx → args_and_result_ drx = [] →
  scope_IsFullyUnconstrained default_se_scope = false →
  ∃ s1 f s2,
    Lookup x s = Ok (rx, s1) ∧ Inv s1 ∧ arena s1 = arena s ∧
    fully_constrained_se_scope_to_domain_ s1 = fully_constrained_se_scope_to_domain_ s ∧
    MakeFirstOrderDomain
      (CanonicalSEScope config_ (scope_Default (se_scope_ drx) default_se_scope)) s1 = (f, s2) ∧
    step_ok s s2 ∧
    dom (domain_to_equiv_ s2) = dom (domain_to_equiv_ s) ∧
    arena s2 !! rx = Some drx ∧
    arena s2 !! f =
      Some {| se_scope_ := CanonicalSEScope config_
                             (scope_Default (se_scope_ drx) default_se_scope);
              args_and_result_ := [] |} ∧
    domain_to_equiv_ s2 !! rx = None ∧ domain_to_equiv_ s2 !! f = None ∧
    (∀ y ry, root_of (domain_to_equiv_ s2) y ry ↔ root_of (domain_to_equiv_ s) y ry) ∧
    SetDefault config_ (S fuel) x default_se_scope s =
      bind (UnifyOrNull config_ (S fuel) rx f)
        (λ u, ICHECK (bool_decide (u ≠ None))) s2.
Proof.
  intros HI Hx Hrx Hdrx Hfo Hdef.
  destruct (Lookup_root_of _ _ _ HI Hx Hrx) as (s1 & HL1 & Hstep1 & Ha1 & Hrxn & Hdom1 & Hroots1).
  pose proof (so_inv _ _ Hstep1) as HI1.
  set (target := CanonicalSEScope config_ (scope_Default (se_scope_ drx) default_se_scope)).
  destruct (MakeFirstOrderDomain target s1) as [f s2] eqn:Hm.
  destruct (MakeFirstOrderDomain_spec _ _ _ _ HI1 Hm) as (HI2 & He2 & Ht2 & Hf & Hfresh).
  exists s1, f, s2.
  assert (step_ok s1 s2) as Hstep2.
  { split; [done|done| |]; rewrite Ht2; done. }
  split_and!; try done.
  - destruct (Lookup_inv _ _ _ _ HL1) as (_ & Hs1 & _). by rewrite Hs1.
  - by eapply step_ok_trans.
  - by rewrite Ht2.
  - eapply extends_lookup; [exact He2|]. by rewrite Ha1.
  - by rewrite Ht2.
  - destruct (scope_IsFullyConstrained target) eqn:Hfc.
    + by eapply (inv_constrained_root s2 HI2 f).
    + destruct (Hfresh eq_refl) as (-> & _). rewrite Ht2.
      destruct (domain_to_equiv_ s1 !! length (arena s1)) as [v|] eqn:Hv; [|done].
      destruct (inv_entries s1 HI1 _ _ Hv) as (? & _). lia.
  - intros y ry. by rewrite Ht2.
  - rewrite SetDefault_S. unfold bind at 1. unfold ICHECK at 1. rewrite Hdef. simpl.
    unfold bind at 1. rewrite HL1. unfold bind at 1. unfold deref at 1.
    rewrite Ha1, Hdrx. rewrite bool_decide_eq_true_2 by done.
    unfold bind at 1. unfold lift at 1. fold target. by rewrite Hm.
Qed.

(** Defaulting a domain that resolves to a fully constrained canonical
    scope returns and changes what no domain resolves to. *)
Lemma SetDefault_constrained fuel x default_se_scope s R :
  DefaultLaws → Inv s → valid s x → resolved s x R →
  scope_IsFullyConstrained R = true → CanonicalSEScope config_ R = R →
  scope_IsFullyUnconstrained default_se_scope = false →
  ∃ s', SetDefault config_ (S fuel) x default_se_scope s = Ok (tt, s') ∧
    step_ok s s' ∧ new_keys_below s s' 1 ∧
    (∀ y sc, resolved s y sc → resolved s' y sc).
Proof.
  intros HD HI Hx (rx & drx & Hrx & Hdrx & Hfo & <-) Hfc Hcanon Hdef.
  destruct (SetDefault_via_Unify fuel x default_se_scope s rx drx)
    as (s1 & f & s2 & HL1 & HI1 & Ha1 & Hi1 & Hm & Hstep2 & Hdom2 & Hdrx2 & Hf2 & Hrxn & Hfn
        & Hroots2 & ->); try done.
  rewrite (default_constrained HD), Hcanon in Hm, Hf2 by done.
  assert (f = rx ∧ s2 = s1) as [-> ->].
  { unfold MakeFirstOrderDomain in Hm. rewrite Hfc in Hm.
    rewrite Hi1, (inv_interned_all s HI rx drx Hdrx Hfo Hfc) in Hm. by injection Hm as <- <-. }
  pose proof (so_inv _ _ Hstep2) as HI2.
  assert (valid s1 rx) as Hvrx by (by eapply lookup_lt_Some).
  destruct (Unify_first_order fuel rx rx s1 rx rx drx drx)
    as (res & s' & HU & Hstep3 & Hcase); try done; try (by apply root_of_root).
  rewrite decide_True in Hcase by done. destruct Hcase as (j & -> & Hj & Hjn & Hroots3).
  destruct (UnifyOrNull_spec (S fuel) _ _ _ _ _ HI2 Hvrx Hvrx HU) as (_ & Hnew3 & _).
  rewrite (depth_first_order _ _ _ Hdrx2 Hfo) in Hnew3.
  exists s'. split_and!.
  - unfold bind. by rewrite HU.
  - by eapply step_ok_trans.
  - eapply new_keys_below_trans; [exact HI2|apply Hstep3| |exact Hnew3].
    by apply new_keys_below_none.
  - intros y sc (ry & dry & Hry & Hdry & Hfoy & Hsc).
    apply Hroots2 in Hry. apply Hroots3 in Hry.
    destruct (decide (ry = rx ∨ ry = rx)) as [[->| ->]|Hne].
    + exists j, {| se_scope_ := se_scope_ drx; args_and_result_ := [] |}.
      split_and!; [done|done|done|]. simpl. congruence.
    + exists j, {| se_scope_ := se_scope_ drx; args_and_result_ := [] |}.
      split_and!; [done|done|done|]. simpl. congruence.
    + exists ry, dry. split_and!; [done| |done|done].
      eapply extends_lookup; [eapply step_ok_trans; [exact Hstep2|exact Hstep3]|done].
Qed.

(** Defaulting a domain that resolves to a fully unconstrained scope with a
    fully constrained canonical fallback returns; the domain resolves to
    the fallback afterwards, and whatever resolved to a scope that is not
    fully unconstrained still does. *)
Lemma SetDefault_unconstrained fuel x R s scp :
  DefaultLaws → Inv s → valid s x → resolved s x scp →
  scope_IsFullyUnconstrained scp = true →
  scope_IsFullyConstrained R = true → CanonicalSEScope config_ R = R →
  ∃ s', SetDefault config_ (S fuel) x R s = Ok (tt, s') ∧
    step_ok s s' ∧ new_keys_below s s' 1 ∧
    resolved s' x R ∧
    (∀ y sc, resolved s y sc → scope_IsFullyUnconstrained sc = false → resolved s' y sc).
Proof.
  intros HD HI Hx (rx & drx & Hrx & Hdrx & Hfo & <-) Hfu Hfc Hcanon.
  pose proof (constrained_not_unconstrained _ HL _ Hfc) as HfuR.
  destruct (SetDefault_via_Unify fuel x R s rx drx)
    as (s1 & f & s2 & HL1 & HI1 & Ha1 & Hi1 & Hm & Hstep2 & Hdom2 & Hdrx2 & Hf2 & Hrxn & Hfn
        & Hroots2 & ->); try done.
  rewrite (default_unconstrained HD), Hcanon in Hm, Hf2 by done.
  pose proof (so_inv _ _ Hstep2) as HI2.
  assert (valid s2 rx) as Hvrx by (by eapply lookup_lt_Some).
  assert (valid s2 f) as Hvf by (by eapply lookup_lt_Some).
  assert (rx ≠ f) as Hne.
  { intros ->. rewrite Hdrx2 in Hf2. injection Hf2 as ->. simpl in Hfu. congruence. }
  destruct (Unify_first_order fuel rx f s2 rx f drx
              {| se_scope_ := R; args_and_result_ := [] |})
    as (res & s' & HU & Hstep3 & Hcase); try done; try (by apply root_of_root).
  rewrite decide_False in Hcase by done. unfold first_order_join in Hcase. simpl in Hcase.
  rewrite HfuR, Hfu in Hcase. destruct Hcase as (j & -> & Hj & Hjn & Hroots3).
  destruct (UnifyOrNull_spec (S fuel) _ _ _ _ _ HI2 Hvrx Hvf HU) as (_ & Hnew3 & _).
  rewrite (depth_first_order _ _ _ Hdrx2 Hfo) in Hnew3.
  exists s'. split_and!.
  - unfold bind. by rewrite HU.
  - by eapply step_ok_trans.
  - eapply new_keys_below_trans; [exact HI2|apply Hstep3| |exact Hnew3].
    by apply new_keys_below_none.
  - exists j, {| se_scope_ := R; args_and_result_ := [] |}.
    split_and!; [|done|done|done].
    apply Hroots2 in Hrx. apply Hroots3 in Hrx. by rewrite decide_True in Hrx by auto.
  - intros y sc (ry & dry & Hry & Hdry & Hfoy & Hsc) Hnfu.
    apply Hroots2 in Hry. apply Hroots3 in Hry.
    assert (arena s2 !! ry = Some dry) as Hdry2.
    { eapply extends_lookup; [apply Hstep2|done]. }
    destruct (decide (ry = rx ∨ ry = f)) as [[->| ->]|Hne'].
    + assert (dry = drx) as -> by congruence. congruence.
    + rewrite Hf2 in Hdry2. injection Hdry2 as <-. simpl in Hsc. subst sc.
      by exists j, {| se_scope_ := R; args_and_result_ := [] |}.
    + exists ry, dry. split_and!; [done| |done|done].
      eapply extends_lookup; [apply Hstep3|done].
Qed.


Lemma ResultDomain_single fuel (d r rr : nat) s dd drr :
  Inv s → domain_to_equiv_ s !! d = None →
  arena s !! d = Some dd → last (args_and_result_ dd) = Some r →
  root_of (domain_to_equiv_ s) r rr → arena s !! rr = Some drr →
  args_and_result_ drr = [] →
  ∃ s', ResultDomain (S (S fuel)) d s = Ok (rr, s') ∧
    ResultSEScope (S (S fuel)) d s = Ok (se_scope_ drr, s') ∧
    step_ok s s' ∧ arena s' = arena s ∧
    dom (domain_to_equiv_ s') = dom (domain_to_equiv_ s) ∧
    (∀ y ry, root_of (domain_to_equiv_ s') y ry ↔ root_of (domain_to_equiv_ s) y ry).
Proof.
  intros HI Hdn Hd Hlast Hr Hrr Hfo.
  assert (valid s r) as Hvr.
  { pose proof (inv_parts s HI d dd Hd) as Hparts.
    apply last_Some in Hlast as [l' Hl']. rewrite Hl' in Hparts.
    rewrite Forall_app, Forall_singleton in Hparts. destruct Hparts as [_ Hparts].
    apply lookup_lt_Some in Hd. unfold valid. lia. }
  destruct (Lookup_root_of _ _ _ HI Hvr Hr) as (s1 & HL1 & Hstep1 & Ha1 & _ & Hdom1 & Hroots1).
  assert (ResultDomain (S (S fuel)) d s = Ok (rr, s1)) as HR.
  { unfold ResultDomain. unfold bind at 1. rewrite (Lookup_root _ _ Hdn). simpl.
    unfold bind at 1. unfold deref at 1. rewrite Hd, Hlast.
    unfold bind at 1. rewrite HL1.
    unfold bind at 1. unfold deref at 1. rewrite Ha1, Hrr, Hfo. done. }
  exists s1. split_and!; try done.
  unfold ResultSEScope. unfold bind at 1. rewrite HR.
  unfold bind at 1. unfold deref at 1. rewrite Ha1, Hrr.
  unfold bind at 1. by rewrite Hfo.
Qed.

(** C5. For a higher-order domain [SetResultDefaultThenParams] first runs
    [SetDefault] with the supplied fallback on the innermost result leaf
    only, then runs [SetDefault] over the whole domain with the scope the
    result leaf now has as the fallback.  In particular, for a function
    domain with one parameter that resolves to a fully unconstrained scope
    and a result that resolves to a fully constrained (canonical) scope [R],
    the call returns and the parameter resolves to [R] afterwards, whatever
    the supplied fallback is. *)
Theorem SetResultDefaultThenParams_spec :
  (∀ fuel (d : nat) fallback s dd,
     arena s !! d = Some dd → args_and_result_ dd ≠ [] →
     SetResultDefaultThenParams config_ fuel d fallback s =
     bind (ResultDomain fuel d) (λ leaf,
       bind (SetDefault config_ fuel leaf fallback) (λ _,
         bind (ResultSEScope fuel d) (λ result_se_scope,
           SetDefault config_ fuel d result_se_scope))) s) ∧
  (∀ fuel (d p r : nat) fallback s dd R scp,
     DefaultLaws → Inv s →
     arena s !! d = Some dd → args_and_result_ dd = [p; r] →
     domain_to_equiv_ s !! d = None →
     resolved s p scp → scope_IsFullyUnconstrained scp = true →
     resolved s r R → scope_IsFullyConstrained R = true →
     CanonicalSEScope config_ R = R →
     scope_IsFullyUnconstrained fallback = false →
     ∃ s', SetResultDefaultThenParams config_ (S (S fuel)) d fallback s = Ok (tt, s') ∧
           resolved s' p R ∧
           (fallback ≠ R → ¬ resolved s' p fallback)).
Proof.
  split.
  { intros fuel d fallback s dd Hd Hho. unfold SetResultDefaultThenParams.
    unfold bind at 1. unfold deref at 1. rewrite Hd.
    by rewrite bool_decide_eq_false_2. }
  intros fuel d p r fallback s dd R scp HD HI Hd Hargs Hdn Hp Hfup Hr Hfc Hcanon Hfb.
  pose proof (constrained_not_unconstrained _ HL _ Hfc) as HfuR.
  assert (valid s d) as Hvd by (by eapply lookup_lt_Some).
  pose proof (inv_parts s HI d dd Hd) as Hparts. rewrite Hargs in Hparts.
  apply Forall_cons in Hparts as [Hpd Hparts]. apply Forall_cons in Hparts as [Hrd _].
  assert (valid s p) as Hvp by (unfold valid in *; lia).
  assert (valid s r) as Hvr by (unfold valid in *; lia).
  assert (1 ≤ depth (arena s) d) as Hdepth.
  { rewrite (depth_higher_order (arena s) d dd); [lia|apply HI|done|by rewrite Hargs]. }
  assert (last (args_and_result_ dd) = Some r) as Hlast by (by rewrite Hargs).
  (* the result leaf *)
  pose proof Hr as (rr & drr & Hrr & Hdrr & Hfo & Hsc).
  destruct (ResultDomain_single fuel d r rr s dd drr)
    as (s1 & HR1 & _ & Hstep1 & Ha1 & Hdom1 & Hroots1); try done.
  pose proof (so_inv _ _ Hstep1) as HI1.
  assert (∀ y sc, resolved s y sc → resolved s1 y sc) as Hres1.
  { intros y sc. by apply resolved_lookup. }
  (* defaulting the result leaf *)
  assert (valid s1 rr) as Hvrr by (eapply lookup_lt_Some; by rewrite Ha1).
  assert (resolved s1 rr R) as Hrr1.
  { exists rr, drr. split_and!; [|by rewrite Ha1|done|done].
    apply root_of_root. apply root_of_end with r. by apply Hroots1. }
  destruct (SetDefault_constrained (S fuel) rr fallback s1 R)
    as (s2 & HS2 & Hstep2 & Hnew2 & Hres2); try done.
  pose proof (so_inv _ _ Hstep2) as HI2.
  assert (extends s s2) as He02.
  { eapply extends_trans; [apply Hstep1|apply Hstep2]. }
  assert (domain_to_equiv_ s2 !! d = None) as Hdn2.
  { destruct (domain_to_equiv_ s2 !! d) as [v|] eqn:Hv; [|done].
    assert (depth (arena s2) d < 1) as Hlt.
    { apply Hnew2; [|by eexists]. apply not_elem_of_dom. rewrite Hdom1.
      by apply not_elem_of_dom. }
    rewrite (extends_depth s s2) in Hlt by done. lia. }
  (* the scope of the result leaf *)
  pose proof (Hres2 _ _ (Hres1 _ _ Hr)) as (rr2 & drr2 & Hrr2 & Hdrr2 & Hfo2 & Hsc2).
  destruct (ResultDomain_single fuel d r rr2 s2 dd drr2)
    as (s3 & _ & HR3 & Hstep3 & Ha3 & Hdom3 & Hroots3); try done.
  { by eapply extends_lookup. }
  rewrite Hsc2 in HR3.
  pose proof (so_inv _ _ Hstep3) as HI3.
  assert (∀ y sc, resolved s y sc → resolved s3 y sc) as Hres3.
  { intros y sc Hy. eapply resolved_lookup; [done|done|]. by apply Hres2, Hres1. }
  assert (extends s s3) as He03.
  { eapply extends_trans; [exact He02|apply Hstep3]. }
  assert (domain_to_equiv_ s3 !! d = None) as Hdn3.
  { apply not_elem_of_dom. rewrite Hdom3. by apply not_elem_of_dom. }
  (* defaulting the whole domain *)
  destruct (SetDefault_unconstrained fuel p R s3 scp)
    as (s4 & HS4 & Hstep4 & _ & Hp4 & Hres4); try done.
  { by eapply extends_valid. }
  { by apply Hres3. }
  pose proof (so_inv _ _ Hstep4) as HI4.
  destruct (SetDefault_constrained fuel r R s4 R)
    as (s5 & HS5 & Hstep5 & _ & Hres5); try done.
  { eapply extends_valid; [apply Hstep4|]. by eapply extends_valid. }
  { apply Hres4; [by apply Hres3|done]. }
  exists s5. split_and!.
  - unfold SetResultDefaultThenParams.
    unfold bind at 1. unfold deref at 1. rewrite Hd.
    rewrite bool_decide_eq_false_2 by (by rewrite Hargs).
    unfold bind at 1. rewrite HR1. unfold bind at 1. rewrite HS2.
    unfold bind at 1. rewrite HR3.
    rewrite SetDefault_S. rewrite bind_ICHECK by (by rewrite HfuR).
    rewrite (bind_eq _ _ _ _ _ (Lookup_root _ _ Hdn3)).
    rewrite (bind_deref _ _ _ _ (extends_lookup s s3 d dd He03 Hd)).
    rewrite bool_decide_eq_false_2 by (by rewrite Hargs). rewrite Hargs.
    rewrite !for_each_cons, for_each_nil.
    rewrite (bind_eq _ _ _ _ _ HS4). by rewrite (bind_eq _ _ _ _ _ HS5).
  - by apply Hres5.
  - intros Hne Hpf. apply Hne. eapply resolved_det; [exact Hpf|by apply Hres5].
Qed.

(** ** Collapsing free domains *)

Lemma resolved_valid s x sc : Inv s → resolved s x sc → valid s x.
Proof.
  intros HI (r & d & Hr & Hd & _). destruct (domain_to_equiv_ s !! x) as [v|] eqn:Hx.
  - by destruct (inv_entries s HI x v Hx) as (? & _).
  - rewrite (root_of_root_inv _ _ _ Hx Hr) in Hd. by eapply lookup_lt_Some.
Qed.

(** Two domains that resolve to fully unconstrained scopes always unify,
    and every domain that resolved to a fully unconstrained scope still
    does. *)
Lemma Unify_free fuel x y s :
  Inv s → free_resolved s x → free_resolved s y →
  ∃ j s', UnifyOrNull config_ (S fuel) x y s = Ok (Some j, s') ∧ step_ok s s' ∧
    (∀ z, free_resolved s z → free_resolved s' z).
Proof.
  intros HI (scx & Hx & Hfx) (scy & Hy & Hfy).
  pose proof (resolved_valid _ _ _ HI Hx) as Hvx.
  pose proof (resolved_valid _ _ _ HI Hy) as Hvy.
  destruct Hx as (rx & dx & Hrx & Hdx & Hfox & <-).
  destruct Hy as (ry & dy & Hry & Hdy & Hfoy & <-).
  destruct (Unify_first_order fuel x y s rx ry dx dy)
    as (res & s' & HU & Hstep & Hcase); try done.
  assert ((if decide (rx = ry) then Some (se_scope_ dx)
           else first_order_join config_ (se_scope_ dx) (se_scope_ dy)) = Some (se_scope_ dx))
    as Heq.
  { destruct (decide (rx = ry)); [done|]. unfold first_order_join. by rewrite Hfy. }
  rewrite Heq in Hcase. destruct Hcase as (j & -> & Hj & Hjn & Hroots).
  exists j, s'. split_and!; [done|done|].
  intros z (scz & (rz & dz & Hrz & Hdz & Hfoz & <-) & Hfz).
  apply Hroots in Hrz. destruct (decide (rz = rx ∨ rz = ry)) as [Hin|Hout].
  - exists (se_scope_ dx). split; [|done].
    by exists j, {| se_scope_ := se_scope_ dx; args_and_result_ := [] |}.
  - exists (se_scope_ dz). split; [|done]. exists rz, dz.
    split_and!; [done| |done|done]. eapply extends_lookup; [apply Hstep|done].
Qed.

Lemma collapse_params_free fuel params fo s :
  Inv s → free_resolved s fo → Forall (free_resolved s) params →
  ∃ s', collapse_params config_ (S fuel) params fo s = Ok (true, s') ∧ step_ok s s' ∧
    (∀ z, free_resolved s z → free_resolved s' z).
Proof.
  revert s. induction params as [|q params IH]; intros s HI Hfo Hparams.
  - exists s. split_and!; [done|by apply step_ok_refl|done].
  - apply Forall_cons in Hparams as [Hq Hparams].
    destruct (Unify_free fuel q fo s) as (j & s1 & HU & Hstep1 & Hfree1); try done.
    destruct (IH s1) as (s2 & HC & Hstep2 & Hfree2).
    { apply Hstep1. }
    { by apply Hfree1. }
    { eapply Forall_impl; [exact Hparams|]. done. }
    exists s2. split_and!.
    + cbn [collapse_params]. by rewrite (bind_eq _ _ _ _ _ HU).
    + by eapply step_ok_trans.
    + intros z Hz. by apply Hfree2, Hfree1.
Qed.

Lemma UnifyCollapsed_free fuel fo p s dfo dp :
  Inv s → arena s !! fo = Some dfo → args_and_result_ dfo = [] → free_resolved s fo →
  arena s !! p = Some dp →
  (args_and_result_ dp = [] → free_resolved s p) →
  Forall (free_resolved s) (args_and_result_ dp) →
  ∃ s', UnifyCollapsedOrFalse config_ (S fuel) fo p s = Ok (true, s') ∧ step_ok s s' ∧
    (∀ z, free_resolved s z → free_resolved s' z).
Proof.
  intros HI Hdfo Hfo Hfree Hdp Hpfo Hparts. unfold UnifyCollapsedOrFalse.
  rewrite (bind_deref _ _ _ _ Hdfo), (bind_deref _ _ _ _ Hdp).
  rewrite bind_ICHECK by (unfold is_higher_order; by rewrite bool_decide_eq_true_2).
  unfold is_higher_order at 1. case_bool_decide as Hp; simpl.
  - destruct (Unify_free fuel fo p s) as (j & s' & HU & Hstep & Hfree'); try done.
    { by apply Hpfo. }
    exists s'. split_and!; [|done|done]. by rewrite (bind_eq _ _ _ _ _ HU).
  - unfold CollapseOrFalse.
    rewrite (bind_deref _ _ _ _ Hdfo), (bind_deref _ _ _ _ Hdp).
    rewrite bind_ICHECK by (unfold is_higher_order; by rewrite bool_decide_eq_true_2).
    rewrite bind_ICHECK by (unfold is_higher_order; by rewrite bool_decide_eq_false_2).
    unfold function_params, function_result.
    destruct (exists_last Hp) as (params & res & Hargs). rewrite Hargs in *.
    rewrite removelast_last, last_snoc.
    rewrite Forall_app, Forall_singleton in Hparts. destruct Hparts as [Hparams Hres].
    destruct (collapse_params_free fuel params fo s) as (s1 & HC & Hstep1 & Hfree1); try done.
    rewrite (bind_eq _ _ _ _ _ HC).
    destruct (Unify_free fuel res fo s1) as (j & s2 & HU & Hstep2 & Hfree2).
    { apply Hstep1. }
    { by apply Hfree1. }
    { by apply Hfree1. }
    exists s2. split_and!.
    + by rewrite (bind_eq _ _ _ _ _ HU).
    + by eapply step_ok_trans.
    + intros z Hz. by apply Hfree2, Hfree1.
Qed.

Lemma free_resolved_fresh s q :
  arena s !! q = Some {| se_scope_ := scope_FullyUnconstrained; args_and_result_ := [] |} →
  domain_to_equiv_ s !! q = None → free_resolved s q.
Proof.
  intros Hq Hn. exists scope_FullyUnconstrained.
  split; [|apply (unconstrained_is_unconstrained _ HL)].
  eexists q, _. split_and!; [by apply root_of_root|done|done|done].
Qed.

Lemma free_resolved_extends s s' z :
  extends s s' → domain_to_equiv_ s' = domain_to_equiv_ s →
  free_resolved s z → free_resolved s' z.
Proof.
  intros He Ht (sc & (r & d & Hr & Hd & Hfo & Hsc) & Hfu). exists sc. split; [|done].
  exists r, d. split_and!; [by rewrite Ht|by eapply extends_lookup|done|done].
Qed.

Lemma type_order_0 type : type_order type = 0 → ∃ tag, type = OtherType tag.
Proof. destruct type as [tys ret|tag]; [done|by eexists]. Qed.

Lemma free_leaves a old tys qs :
  Forall (λ ty, type_order ty = 0) tys → Forall2 (free_shaped a old) tys qs →
  Forall (λ q, a !! q = Some {| se_scope_ := scope_FullyUnconstrained;
                                args_and_result_ := [] |} ∧ old ≤ q) qs.
Proof.
  intros Hord Hqs. induction Hqs as [|ty q tys qs Hq Hqs IH]; [constructor|].
  apply Forall_cons in Hord as [Hty Htys]. constructor; [|by apply IH].
  by destruct (type_order_0 _ Hty) as [tag ->].
Qed.

Lemma Free_order_1 type s p s1 :
  Inv s → type_order type ≤ 1 → Free type s = (p, s1) →
  Inv s1 ∧ extends s s1 ∧ domain_to_equiv_ s1 = domain_to_equiv_ s ∧
  ∃ dp, arena s1 !! p = Some dp ∧
    (args_and_result_ dp = [] → free_resolved s1 p) ∧
    Forall (free_resolved s1) (args_and_result_ dp).
Proof.
  intros HI Hord Hfree. unfold Free in Hfree.
  destruct (MakeDomain_post _ _ _ _ _ HI Hfree) as (HI1 & He1 & Ht1 & Hv1).
  pose proof (MakeDomain_free unconstrained_not_constrained type s) as Hshape.
  rewrite Hfree in Hshape. simpl in Hshape.
  assert (∀ q, length (arena s) ≤ q → domain_to_equiv_ s1 !! q = None) as Hfresh.
  { intros q Hq. rewrite Ht1. destruct (domain_to_equiv_ s !! q) as [v|] eqn:Hv; [|done].
    destruct (inv_entries s HI q v Hv) as (? & _). lia. }
  split_and!; [done|done|done|].
  destruct type as [arg_types ret_type|tag].
  - apply free_shaped_FuncType in Hshape as (ps & r & Hp & _ & Hps & Hr).
    eexists. split; [exact Hp|]. simpl. split; [by destruct ps|].
    simpl in Hord. apply Nat.succ_le_mono, Nat.le_0_r in Hord.
    assert (max_list (type_order <$> arg_types) = 0 ∧ type_order ret_type = 0)
      as [Hargs Hret].
    { pose proof (Nat.le_max_l (max_list (type_order <$> arg_types)) (type_order ret_type)).
      pose proof (Nat.le_max_r (max_list (type_order <$> arg_types)) (type_order ret_type)).
      lia. }
    apply Forall_app. split.
    + assert (Forall (λ ty, type_order ty = 0) arg_types) as Hargs0.
      { apply Forall_forall. intros ty Hty.
        assert (type_order ty ≤ max_list (type_order <$> arg_types)) as Hle.
        { apply max_list_elem_of_le, list_elem_of_fmap. by exists ty. }
        lia. }
      eapply Forall_impl; [exact (free_leaves _ _ _ _ Hargs0 Hps)|].
      intros q [Hq ?]. apply free_resolved_fresh; [done|by apply Hfresh].
    + apply Forall_singleton. destruct (type_order_0 _ Hret) as [tag ->].
      destruct Hr as [Hr ?]. apply free_resolved_fresh; [done|by apply Hfresh].
  - destruct Hshape as [Hp ?]. eexists. split; [exact Hp|]. simpl. split; [|constructor].
    intros _. apply free_resolved_fresh; [done|by apply Hfresh].
Qed.

Lemma constructor_params_ok fuel result dres arg_types : ∀ s,
  Inv s → arena s !! result = Some dres → args_and_result_ dres = [] →
  free_resolved s result → Forall (λ ty, type_order ty ≤ 1) arg_types →
  ∃ params s', constructor_params config_ (S fuel) result arg_types s = Ok (params, s') ∧
    Inv s' ∧ extends s s' ∧ length params = length arg_types ∧ Forall (valid s') params.
Proof.
  induction arg_types as [|ty tys IH]; intros s HI Hres Hfo Hfree Hord.
  - exists [], s. split_and!; [done|done|apply extends_refl|done|done].
  - apply Forall_cons in Hord as [Hty Htys].
    destruct (Free ty s) as [p s1] eqn:Hp.
    destruct (Free_order_1 _ _ _ _ HI Hty Hp) as (HI1 & He1 & Ht1 & dp & Hdp & Hpfo & Hparts).
    destruct (UnifyCollapsed_free fuel result p s1 dres dp)
      as (s2 & HU & Hstep2 & Hfree2); try done.
    { by eapply extends_lookup. }
    { by eapply free_resolved_extends. }
    destruct (IH s2) as (params & s3 & HC & HI3 & He3 & Hlen & Hvalid); try done.
    { apply Hstep2. }
    { eapply extends_lookup; [apply Hstep2|]. by eapply extends_lookup. }
    { apply Hfree2. by eapply free_resolved_extends. }
    exists (p :: params), s3. split_and!.
    + cbn [constructor_params]. rewrite (bind_eq _ _ _ _ _ (proj2 (lift_Ok _ _ _ _) Hp)).
      rewrite (bind_eq _ _ _ _ _ HU). rewrite bind_ICHECK by done.
      by rewrite (bind_eq _ _ _ _ _ HC).
    + done.
    + eapply extends_trans; [exact He1|]. eapply extends_trans; [apply Hstep2|done].
    + simpl. by rewrite Hlen.
    + constructor; [|done]. eapply extends_valid; [exact He3|].
      eapply extends_valid; [apply Hstep2|]. by eapply lookup_lt_Some.
Qed.

(** Where the collapse of C10 does succeed.  For a call of a data constructor whose
    argument types are of order at most one (not function types, or
    function types whose own argument and result types are not function
    types) the collapse of every freshly made parameter domain against the
    freshly made first-order result domain succeeds, the success assertion
    holds each time, and [DomainForCallee] returns a function domain of the
    constructor's arity. *)
Theorem constructor_collapse_succeeds fuel (call : Call SEScope) s arg_types ret_tag :
  Inv s →
  call_to_callee_domain_ s !! call_id call = None →
  on_device_props call = None → device_copy_props call = None →
  kind (op call) = ConstructorNode →
  checked_type (op call) = FuncType arg_types (OtherType ret_tag) →
  length arg_types = length (args call) →
  Forall (λ ty, type_order ty ≤ 1) arg_types →
  (∃ params s1,
     constructor_params config_ (S fuel) (Free (OtherType ret_tag) s).1 arg_types
       (Free (OtherType ret_tag) s).2 = Ok (params, s1) ∧
     length params = length arg_types) ∧
  (∃ (d : nat) s' dd,
     DomainForCallee config_ (S fuel) call s = Ok (d, s') ∧
     arena s' !! d = Some dd ∧ function_arity dd = length arg_types).
Proof.
  intros HI Hcache Hon Hcopy Hkind Htype Hlen Hord.
  destruct (Free (OtherType ret_tag) s) as [result s0] eqn:Hres.
  destruct (Free_order_1 (OtherType ret_tag) _ _ _ HI (Nat.le_0_l 1) Hres)
    as (HI0 & He0 & Ht0 & dres & Hdres & Hrfo & _).
  pose proof (MakeDomain_free unconstrained_not_constrained (OtherType ret_tag) s) as Hshape.
  unfold Free in Hres. rewrite Hres in Hshape. destruct Hshape as [Hdres' _].
  simpl in Hdres'. rewrite Hdres in Hdres'. injection Hdres' as ->.
  destruct (constructor_params_ok fuel result _ arg_types s0 HI0 Hdres eq_refl (Hrfo eq_refl) Hord)
    as (params & s1 & HC & HI1 & He1 & Hplen & Hvalid).
  split; [by exists params, s1|].
  eexists _, _, _. split_and!.
  - unfold DomainForCallee. rewrite Hcache, Hon, Hcopy, Hkind, Htype.
    rewrite bind_ICHECK by (by apply bool_decide_eq_true_2).
    rewrite (bind_eq _ _ _ _ _ (proj2 (lift_Ok _ _ _ _) Hres)).
    rewrite (bind_eq _ _ _ _ _ HC). unfold finish_callee, bind, lift. done.
  - simpl. by rewrite lookup_app_r, Nat.sub_diag.
  - unfold function_arity. simpl. rewrite length_app. simpl. lia.
Qed.

(** ** Collapse *)

Lemma collapse_is_unify_with_all fuel (l : list nat) fo : l ≠ [] → ∀ s,
  bind (collapse_params config_ fuel (removelast l) fo)
    (λ ok, if ok then
             match last l with
             | None => fatal
             | Some res =>
                 bind (UnifyOrNull config_ fuel res fo) (λ u, ret (bool_decide (u ≠ None)))
             end
           else ret false) s =
  unify_with_all config_ fuel l fo s.
Proof.
  induction l as [|q l IH]; [done|]. intros _ s. destruct l as [|q' l].
  - simpl. unfold bind, ret.
    destruct (UnifyOrNull config_ fuel q fo s) as [[[j|] s1]| |]; done.
  - change (removelast (q :: q' :: l)) with (q :: removelast (q' :: l)).
    change (last (q :: q' :: l)) with (last (q' :: l)).
    cbn [collapse_params unify_with_all]. unfold bind at 1 2 4.
    destruct (UnifyOrNull config_ fuel q fo s) as [[[j|] s1]| |]; [|done..].
    by apply IH.
Qed.

(** What a successful unification of two domains with first-order roots
    does to the scopes that domains resolve to. *)
Lemma Unify_resolved (le : SEScope → SEScope → Prop) fuel x y s sa sb j s' :
  JoinIsLub config_ le → Inv s → resolved s x sa → resolved s y sb →
  UnifyOrNull config_ (S fuel) x y s = Ok (Some j, s') →
  ∃ c, resolved s' x c ∧ resolved s' y c ∧
    le sa c ∧ le sb c ∧ (∀ u, le sa u → le sb u → le c u) ∧
    ∀ z sz, resolved s z sz →
      resolved s' z sz ∨ (same_class (domain_to_equiv_ s') z x ∧ (sz = sa ∨ sz = sb)).
Proof.
  intros Hle HI Hx Hy HU.
  pose proof (resolved_valid _ _ _ HI Hx) as Hvx.
  pose proof (resolved_valid _ _ _ HI Hy) as Hvy.
  destruct Hx as (rx & dx & Hrx & Hdx & Hfox & <-).
  destruct Hy as (ry & dy & Hry & Hdy & Hfoy & <-).
  destruct (Unify_first_order fuel x y s rx ry dx dy)
    as (res & s'' & HU' & Hstep & Hcase); try done.
  rewrite HU in HU'. injection HU' as <- <-.
  assert (∃ c, (if decide (rx = ry) then Some (se_scope_ dx)
                else first_order_join config_ (se_scope_ dx) (se_scope_ dy)) = Some c ∧
               le (se_scope_ dx) c ∧ le (se_scope_ dy) c ∧
               ∀ u, le (se_scope_ dx) u → le (se_scope_ dy) u → le c u) as (c & Hc & Hlub).
  { destruct (decide (rx = ry)) as [->|Hne].
    - assert (dy = dx) as -> by congruence. exists (se_scope_ dx).
      split_and!; [done|apply (lub_refl _ _ Hle)..|done].
    - destruct (first_order_join config_ (se_scope_ dx) (se_scope_ dy)) as [c|] eqn:Hj.
      + exists c. split; [done|]. by apply (lub_join _ _ Hle).
      + by destruct Hcase as [? _]. }
  rewrite Hc in Hcase. destruct Hcase as (j' & [= <-] & Hj & Hjn & Hroots).
  assert (root_of (domain_to_equiv_ s') x j) as Hxj.
  { apply Hroots in Hrx. by rewrite decide_True in Hrx by auto. }
  assert (root_of (domain_to_equiv_ s') y j) as Hyj.
  { apply Hroots in Hry. by rewrite decide_True in Hry by auto. }
  exists c. split_and!; [| |apply Hlub..|].
  - by exists j, {| se_scope_ := c; args_and_result_ := [] |}.
  - by exists j, {| se_scope_ := c; args_and_result_ := [] |}.
  - intros z sz (rz & dz & Hrz & Hdz & Hfoz & <-). apply Hroots in Hrz.
    destruct (decide (rz = rx ∨ rz = ry)) as [Hin|Hout].
    + right. split; [by exists j|]. destruct Hin as [-> | ->].
      * left. congruence.
      * right. congruence.
    + left. exists rz, dz. split_and!; [done| |done|done].
      eapply extends_lookup; [apply Hstep|done].
Qed.

Lemma is_lub_snoc (le : SEScope → SEScope → Prop) scs c sb c' :
  JoinIsLub config_ le → is_lub le scs c →
  le sb c' → le c c' → (∀ u, le sb u → le c u → le c' u) →
  is_lub le (scs ++ [sb]) c'.
Proof.
  intros Hle [Hub Hleast] Hb Hc Hmin. split.
  - apply Forall_app. split; [|by apply Forall_singleton].
    eapply Forall_impl; [exact Hub|]. intros sa Ha.
    eapply (lub_trans _ _ Hle); [exact Ha|exact Hc].
  - intros u Hu. rewrite Forall_app, Forall_singleton in Hu. destruct Hu as [Hu Hbu].
    apply Hmin; [done|]. by apply Hleast.
Qed.

Lemma is_lub_absorb (le : SEScope → SEScope → Prop) scs c sb c' :
  JoinIsLub config_ le → is_lub le scs c →
  le sb c → le c c' → (∀ u, le c u → le c u → le c' u) →
  is_lub le (scs ++ [sb]) c'.
Proof.
  intros Hle Hlub Hb Hc Hmin.
  eapply is_lub_snoc; [done|exact Hlub| |done|].
  - eapply (lub_trans _ _ Hle); [exact Hb|exact Hc].
  - intros u _ Hu. by apply Hmin.
Qed.

(** The loop of the collapse, with the scopes the parts resolved to
    before it. *)
Lemma unify_with_all_lub (le : SEScope → SEScope → Prop) fuel fo s0 :
  JoinIsLub config_ le → Inv s0 →
  ∀ parts scs done_scs s c s',
    Inv s → resolved s fo c → is_lub le done_scs c →
    (∀ z sz, resolved s0 z sz →
       resolved s z sz ∨ (same_class (domain_to_equiv_ s) z fo ∧ le sz c)) →
    Forall2 (resolved s0) parts scs →
    unify_with_all config_ (S fuel) parts fo s = Ok (true, s') →
    ∃ c', Inv s' ∧ resolved s' fo c' ∧ is_lub le (done_scs ++ scs) c' ∧
      Forall (λ p, same_class (domain_to_equiv_ s') p fo) parts ∧
      (∀ x y, same_class (domain_to_equiv_ s) x y → same_class (domain_to_equiv_ s') x y).
Proof.
  intros Hle HI0 parts. induction parts as [|p parts IH];
    intros scs done_scs s c s' HI Hfo Hlub Hinv Hscs HU.
  - apply Forall2_nil_inv_l in Hscs as ->. apply ret_Ok in HU as [_ <-].
    exists c. rewrite app_nil_r. by split_and!.
  - apply Forall2_cons_inv_l in Hscs as (sp & scs' & Hp & Hscs & ->).
    cbn [unify_with_all] in HU. apply bind_Ok in HU as (u & s1 & HU1 & HU).
    destruct u as [j|]; [|by apply ret_Ok in HU as [? _]].
    pose proof (resolved_valid _ _ _ HI Hfo) as Hvfo.
    assert (∃ tp, resolved s p tp ∧ (tp = sp ∨ (tp = c ∧ le sp c))) as (tp & Htp & Hcase).
    { destruct (Hinv p sp Hp) as [Hsame|[(r & Hpr & Hfor) Hlec]].
      - exists sp. split; [done|by left].
      - exists c. split; [|by right]. destruct Hfo as (rfo & dfo & Hrfo & Hrest).
        exists rfo, dfo. split; [|done]. by rewrite (root_of_det _ _ _ _ Hrfo Hfor). }
    pose proof (resolved_valid _ _ _ HI Htp) as Hvp.
    destruct (UnifyOrNull_spec (S fuel) _ _ _ _ _ HI Hvp Hvfo HU1) as (Hstep1 & _ & Hres1).
    destruct (Hres1 j eq_refl) as (_ & _ & Hpj & Hfoj & _).
    destruct (Unify_resolved le fuel p fo s tp c j s1 Hle HI Htp Hfo HU1)
      as (c1 & Hp1 & Hfo1 & Hle1 & Hle2 & Hmin & Hother).
    pose proof (so_inv _ _ Hstep1) as HI1.
    assert (is_lub le (done_scs ++ [sp]) c1) as Hlub1.
    { destruct Hcase as [->|[-> Hlec]].
      - by eapply is_lub_snoc.
      - by eapply is_lub_absorb. }
    destruct (IH scs' (done_scs ++ [sp]) s1 c1 s') as (c' & HI' & Hfo' & Hlub' & Hparts & Hcls);
      try done.
    { intros z sz Hz. destruct (Hinv z sz Hz) as [Hsame|[Hcl Hlec]].
      - destruct (Hother z sz Hsame) as [?|[Hcl Heq]]; [by left|right].
        split.
        + eapply same_class_trans; [exact Hcl|]. by exists j.
        + destruct Heq as [-> | ->]; [|done].
          destruct Hcase as [->|[-> _]]; done.
      - right. split; [by apply (so_class _ _ Hstep1)|].
        eapply (lub_trans _ _ Hle); [exact Hlec|exact Hle2]. }
    exists c'. rewrite <-app_assoc in Hlub'. split_and!; [done|done|done| |].
    + constructor; [|done]. apply Hcls. by exists j.
    + intros x y Hxy. by apply Hcls, (so_class _ _ Hstep1).
Qed.

Lemma unify_with_all_true fuel fo parts : ∀ s s',
  unify_with_all config_ fuel parts fo s = Ok (true, s') ↔
  unifies_with_each config_ fuel fo parts s s'.
Proof.
  induction parts as [|p parts IH]; intros s s'; cbn [unify_with_all].
  - split.
    + intros Hr. apply ret_Ok in Hr as [_ <-]. constructor.
    + by inversion 1.
  - split.
    + intros HU. apply bind_Ok in HU as (u & s1 & HU1 & HU).
      destruct u as [j|]; [|by apply ret_Ok in HU as [? _]].
      econstructor; [exact HU1|]. by apply IH.
    + inversion 1 as [|p' parts' j s0 s1 s0' HU1 Hrest]; subst.
      rewrite (bind_eq _ _ _ _ _ HU1). by apply IH.
Qed.

Lemma unify_with_all_false fuel fo parts : ∀ s s',
  unify_with_all config_ fuel parts fo s = Ok (false, s') ↔
  ∃ before p after s1,
    parts = before ++ p :: after ∧
    unifies_with_each config_ fuel fo before s s1 ∧
    UnifyOrNull config_ fuel p fo s1 = Ok (None, s').
Proof.
  induction parts as [|p parts IH]; intros s s'; cbn [unify_with_all].
  - split.
    + intros Hr. by apply ret_Ok in Hr as [? _].
    + intros (before & q & after & s1 & Heq & _). by destruct before.
  - split.
    + intros HU. apply bind_Ok in HU as (u & s1 & HU1 & HU). destruct u as [j|].
      * apply IH in HU as (before & q & after & s2 & -> & Hbefore & Hq).
        exists (p :: before), q, after, s2. split_and!; [done| |done].
        econstructor; [exact HU1|exact Hbefore].
      * apply ret_Ok in HU as [_ <-].
        exists [], p, parts, s. split_and!; [done|constructor|done].
    + intros (before & q & after & s1 & Heq & Hbefore & Hq).
      destruct before as [|p' before]; simpl in Heq; injection Heq as -> ->.
      * inversion Hbefore; subst. by rewrite (bind_eq _ _ _ _ _ Hq).
      * inversion Hbefore as [|p0 parts0 j s0 s2 s0' HU1 Hrest]; subst.
        rewrite (bind_eq _ _ _ _ _ HU1). apply IH. by exists before, q, after, s1.
Qed.

(** C4. For a first-order domain and a higher-order one, [CollapseOrFalse]
    returns true exactly when the first-order domain unifies with every
    parameter of the higher-order one in declared order and then with its
    result, each unification in the state the previous one left, and the
    state it returns is the state the last unification left.  It returns
    false exactly when one of those unifications, reached after all the
    ones before it have succeeded, returns none; the positions after that
    one are not tried and the entries of the ones before it stay.  On
    success the first-order domain and every one of those positions resolve
    to one scope, and that scope is the join (least upper bound) of the
    scope the first-order domain resolved to before the call together with
    the scopes the positions resolved to before the call: the first-order
    domain's own scope takes part in the join. *)
Theorem Collapse_spec :
  (∀ fuel (fo ho : nat) s dfo dho params res,
     arena s !! fo = Some dfo → arena s !! ho = Some dho →
     args_and_result_ dfo = [] → args_and_result_ dho = params ++ [res] →
     (∀ s', CollapseOrFalse config_ fuel fo ho s = Ok (true, s') ↔
            unifies_with_each config_ fuel fo (params ++ [res]) s s') ∧
     (∀ s', CollapseOrFalse config_ fuel fo ho s = Ok (false, s') ↔
            ∃ before p after s1,
              params ++ [res] = before ++ p :: after ∧
              unifies_with_each config_ fuel fo before s s1 ∧
              UnifyOrNull config_ fuel p fo s1 = Ok (None, s'))) ∧
  (∀ (le : SEScope → SEScope → Prop) fuel (fo ho : nat) s dfo dho c0 scs s',
     JoinIsLub config_ le → Inv s →
     arena s !! fo = Some dfo → arena s !! ho = Some dho →
     args_and_result_ dfo = [] → args_and_result_ dho ≠ [] →
     resolved s fo c0 → Forall2 (resolved s) (args_and_result_ dho) scs →
     CollapseOrFalse config_ (S fuel) fo ho s = Ok (true, s') →
     ∃ c, resolved s' fo c ∧
          Forall (λ p, resolved s' p c) (args_and_result_ dho) ∧
          is_lub le (c0 :: scs) c).
Proof.
  assert (∀ fuel (fo ho : nat) s dfo dho,
     arena s !! fo = Some dfo → arena s !! ho = Some dho →
     args_and_result_ dfo = [] → args_and_result_ dho ≠ [] →
     CollapseOrFalse config_ fuel fo ho s =
     unify_with_all config_ fuel (args_and_result_ dho) fo s) as Hrefine.
  { intros fuel fo ho s dfo dho Hdfo Hdho Hfo Hho. unfold CollapseOrFalse.
    rewrite (bind_deref _ _ _ _ Hdfo), (bind_deref _ _ _ _ Hdho).
    rewrite bind_ICHECK by (unfold is_higher_order; by rewrite bool_decide_eq_true_2).
    rewrite bind_ICHECK by (unfold is_higher_order; by rewrite bool_decide_eq_false_2).
    by apply collapse_is_unify_with_all. }
  split.
  { intros fuel fo ho s dfo dho params res Hdfo Hdho Hfo Hparts.
    assert (args_and_result_ dho ≠ []) as Hho by (rewrite Hparts; by destruct params).
    rewrite (Hrefine _ _ _ _ _ _ Hdfo Hdho Hfo Hho), Hparts. split; intros s'.
    - apply unify_with_all_true.
    - apply unify_with_all_false. }
  intros le fuel fo ho s dfo dho c0 scs s' Hle HI Hdfo Hdho Hfo Hho Hc0 Hscs HC.
  rewrite (Hrefine _ _ _ _ _ _ Hdfo Hdho Hfo Hho) in HC.
  destruct (unify_with_all_lub le fuel fo s Hle HI (args_and_result_ dho) scs [c0] s c0 s')
    as (c & HI' & Hfo' & Hlub & Hparts & _); try done.
  { split; [apply Forall_singleton, (lub_refl _ _ Hle)|].
    intros u Hu. by rewrite Forall_singleton in Hu. }
  { intros z sz Hz. by left. }
  exists c. split_and!; [done| |done].
  eapply Forall_impl; [exact Hparts|]. intros p (r & Hp & Hfor).
  destruct Hfo' as (rfo & d & Hrfo & Hrest). exists rfo, d. split; [|done].
  by rewrite (root_of_det _ _ _ _ Hrfo Hfor).
Qed.

End Solver.

(** ** [Lookup] is idempotent *)

(** C6. Whenever the chain of entries from [d] ends at a root [r0] (in
    every state of the solver it does, see C8), [Lookup d] returns [r0];
    looking up the result, or [d] again, returns [r0] once more and leaves
    the state as it is.  When [d] has no entry it is its own root and the
    first [Lookup] changes nothing either. *)
Theorem Lookup_idempotent s (d r0 : nat) :
  root_of (domain_to_equiv_ s) d r0 →
  ∃ s', Lookup d s = Ok (r0, s') ∧
        Lookup r0 s' = Ok (r0, s') ∧
        Lookup d s' = Ok (r0, s') ∧
        (domain_to_equiv_ s !! d = None → r0 = d ∧ s' = s).
Proof.
  intros Hr. destruct (Lookup_total d s) as (r & s' & HL); [by eexists|].
  destruct (Lookup_inv _ _ _ _ HL) as (Hr' & _ & Hroots & _).
  rewrite (root_of_det _ _ _ _ Hr' Hr) in HL. exists s'. split_and!.
  - done.
  - apply Lookup_root. apply root_of_end with d. by apply Hroots.
  - by eapply Lookup_again.
  - intros Hd. rewrite (Lookup_root _ _ Hd) in HL. by injection HL as <- <-.
Qed.

(** ** Shape mismatch *)

(** C1, as the code has it.  When the roots of the two domains are distinct
    and differ in shape (first-order against higher-order, or higher-order
    of different arity), [JoinOrNull] and [UnifyOrNull] do not return the
    sentinel: the check on the sizes fails and the call is fatal. *)
Theorem shape_mismatch_is_fatal fuel s lhs rhs l' s1 r' s2 dl dr :
  Lookup lhs s = Ok (l', s1) → Lookup rhs s1 = Ok (r', s2) →
  l' ≠ r' → arena s !! l' = Some dl → arena s !! r' = Some dr →
  length (args_and_result_ dl) ≠ length (args_and_result_ dr) →
  JoinOrNull config_ fuel l' r' s2 = Fatal ∧
  UnifyOrNull config_ (S fuel) lhs rhs s = Fatal.
Proof.
  intros HL1 HL2 Hne Hdl Hdr Hlen.
  assert (arena s2 = arena s) as Ha.
  { rewrite (Lookup_arena _ _ _ _ HL2). by apply Lookup_arena in HL1. }
  assert (∀ unify, JoinOrNull_body config_ unify l' r' s2 = Fatal) as HJ.
  { intros unify. unfold JoinOrNull_body. rewrite decide_False by done.
    unfold bind at 1. unfold deref at 1. rewrite Ha, Hdl.
    unfold bind at 1. unfold deref at 1. rewrite Ha, Hdr.
    unfold bind at 1. by rewrite bool_decide_eq_false_2. }
  split; [apply HJ|].
  simpl. unfold UnifyOrNull_body. unfold bind at 1. rewrite HL1.
  unfold bind at 1. rewrite HL2. unfold bind at 1. by rewrite HJ.
Qed.

(** ** Diagnostics *)

(** C9. For a domain whose root [r] is first-order, [ToString] returns the
    placeholder [?r?] exactly when the scope of the root is not fully
    constrained, followed by the text of the scope exactly when the scope is
    not fully unconstrained; for a partially constrained scope it returns
    both. *)
Theorem ToString_first_order fuel (d r : nat) s s1 dr :
  Lookup d s = Ok (r, s1) → arena s !! r = Some dr → args_and_result_ dr = [] →
  ToString (S fuel) d s =
    Ok (((if scope_IsFullyConstrained (se_scope_ dr) then ""
          else "?" +:+ pretty r +:+ "?")
         +:+
         (if scope_IsFullyUnconstrained (se_scope_ dr) then ""
          else scope_text (se_scope_ dr)))%string, s1) ∧
  (scope_IsFullyConstrained (se_scope_ dr) = false →
   scope_IsFullyUnconstrained (se_scope_ dr) = false →
   ToString (S fuel) d s =
     Ok ((("?" +:+ pretty r +:+ "?") +:+ scope_text (se_scope_ dr))%string, s1)).
Proof.
  intros HL Hr Hfo.
  assert (ToString (S fuel) d s = Ok (first_order_text r dr, s1)) as ->.
  { simpl. unfold bind at 1. rewrite HL. unfold bind at 1. unfold deref.
    rewrite (Lookup_arena _ _ _ _ HL), Hr, Hfo. done. }
  unfold first_order_text. split.
  - by destruct (scope_IsFullyConstrained _), (scope_IsFullyUnconstrained _).
  - by intros -> ->.
Qed.


End Theory.

(** * Further properties of the solver *)

Section Further.

Context {SEScope : Type} `{SEScopeOps SEScope}.
Variable config_ : CompilationConfig SEScope.

Local Abbreviation state := (@DeviceDomains SEScope _ _).
Local Abbreviation domain := (@DeviceDomain SEScope).
Local Abbreviation Mon := (@M SEScope _ _).
Implicit Types (s : state).


Lemma same_class_root_of (t : gmap nat nat) (a b j : nat) :
  same_class t a b → root_of t b j → root_of t a j.
Proof. intros (r & Ha & Hb) Hj. by rewrite (root_of_det _ _ _ _ Hj Hb). Qed.

(** X1. [MakeFirstOrderDomain] called twice in a row with the same scope: for
    a fully constrained scope the second call returns the domain of the
    first and changes nothing, and the scope is in the interning table; for
    any other scope the two calls return two distinct new domains and leave
    the interning table alone. *)
Theorem MakeFirstOrderDomain_interning sc s (p q : nat) s1 s2 :
  MakeFirstOrderDomain sc s = (p, s1) →
  MakeFirstOrderDomain sc s1 = (q, s2) →
  if scope_IsFullyConstrained sc
  then q = p ∧ s2 = s1 ∧ fully_constrained_se_scope_to_domain_ s1 !! sc = Some p
  else p = length (arena s) ∧ q = S p ∧
       arena s2 = arena s ++ [ {| se_scope_ := sc; args_and_result_ := [] |};
                               {| se_scope_ := sc; args_and_result_ := [] |} ] ∧
       fully_constrained_se_scope_to_domain_ s2 = fully_constrained_se_scope_to_domain_ s.
Proof.
  intros H1 H2. unfold MakeFirstOrderDomain in *.
  destruct (scope_IsFullyConstrained sc).
  - destruct (fully_constrained_se_scope_to_domain_ s !! sc) as [d|] eqn:Hd.
    + injection H1 as <- <-. rewrite Hd in H2. by injection H2 as <- <-.
    + simpl in H1. injection H1 as <- <-. simpl in H2. rewrite lookup_insert_eq in H2.
      injection H2 as <- <-. simpl. by rewrite lookup_insert_eq.
  - unfold alloc in *. injection H1 as <- <-. injection H2 as <- <-. simpl.
    rewrite length_app, <-app_assoc. simpl. split_and!; [done|lia|done|done].
Qed.


Lemma find_root_two_cycle (t : gmap nat nat) (d q : nat) fuel :
  q ≠ d → t !! d = Some q → t !! q = Some d →
  find_root fuel t d = OutOfFuel ∧ find_root fuel t q = OutOfFuel.
Proof.
  intros Hne Hd Hq. induction fuel as [|fuel [IHd IHq]]; [done|].
  rewrite !find_root_S, Hd, Hq.
  rewrite decide_False by done. rewrite decide_False by done. done.
Qed.

(** X2. [Lookup] returns [r] exactly when the chain of entries from the
    domain ends at the root [r].  An entry from the domain to itself is a
    failed check, and on a cycle of two domains the first loop does not
    end. *)
Theorem Lookup_returns_iff s (d : nat) :
  (∀ r, (∃ s', Lookup d s = Ok (r, s')) ↔ root_of (domain_to_equiv_ s) d r) ∧
  (domain_to_equiv_ s !! d = Some d → Lookup d s = Fatal) ∧
  (∀ q, q ≠ d → domain_to_equiv_ s !! d = Some q → domain_to_equiv_ s !! q = Some d →
        Lookup d s = OutOfFuel).
Proof.
  split_and!.
  - intros r. split.
    + intros [s' HL]. by destruct (Lookup_inv _ _ _ _ HL) as (? & _).
    + intros Hr. destruct (Lookup_total d s) as (r' & s' & HL); [by exists r|].
      destruct (Lookup_inv _ _ _ _ HL) as (Hr' & _).
      rewrite (root_of_det _ _ _ _ Hr Hr'). by exists s'.
  - intros Hd. unfold Lookup. rewrite find_root_S, Hd. by rewrite decide_True.
  - intros q Hne Hd Hq. unfold Lookup.
    by destruct (find_root_two_cycle (domain_to_equiv_ s) d q
                   (S (size (domain_to_equiv_ s))) Hne Hd Hq) as [-> _].
Qed.

(** X3. A [Lookup] that returns changes nothing but the equivalence table.
    The table keeps its keys, the result has no entry, the domain looked up
    points straight at the result unless it is the result, every entry is
    either unchanged or redirected to the result, and every domain keeps
    its root. *)
Theorem Lookup_path_compression s (d r : nat) s' :
  Lookup d s = Ok (r, s') →
  s' = set_equiv (domain_to_equiv_ s') s ∧
  dom (domain_to_equiv_ s') = dom (domain_to_equiv_ s) ∧
  domain_to_equiv_ s' !! r = None ∧
  (d ≠ r → domain_to_equiv_ s' !! d = Some r) ∧
  (∀ x, domain_to_equiv_ s' !! x = domain_to_equiv_ s !! x ∨
        (is_Some (domain_to_equiv_ s !! x) ∧ domain_to_equiv_ s' !! x = Some r ∧ x ≠ r)) ∧
  (∀ x rx, root_of (domain_to_equiv_ s') x rx ↔ root_of (domain_to_equiv_ s) x rx).
Proof.
  intros HL. destruct (Lookup_inv _ _ _ _ HL) as (Hr & Hs & Hroots & Hdom & Hd & Hx).
  split_and!; try done.
  apply (root_of_end _ r r), Hroots. by eapply root_of_idem.
Qed.

(** X4. Unifying two domains that already have the same root, first-order or
    higher-order, returns that root; no domain is allocated, no entry is
    added and every domain keeps its root. *)
Theorem Unify_same_class fuel (x y r : nat) s :
  root_of (domain_to_equiv_ s) x r → root_of (domain_to_equiv_ s) y r →
  ∃ s', UnifyOrNull config_ (S fuel) x y s = Ok (Some r, s') ∧
        arena s' = arena s ∧
        dom (domain_to_equiv_ s') = dom (domain_to_equiv_ s) ∧
        (∀ z rz, root_of (domain_to_equiv_ s') z rz ↔ root_of (domain_to_equiv_ s) z rz).
Proof.
  intros Hx Hy.
  destruct (Lookup_total x s) as (r1 & s1 & HL1); [by exists r|].
  destruct (Lookup_inv _ _ _ _ HL1) as (Hr1 & _ & Hroots1 & Hdom1 & _).
  pose proof (root_of_det _ _ _ _ Hr1 Hx) as ->.
  destruct (Lookup_total y s1) as (r2 & s2 & HL2); [exists r; by apply Hroots1|].
  destruct (Lookup_inv _ _ _ _ HL2) as (Hr2 & _ & Hroots2 & Hdom2 & _).
  assert (r2 = r) as ->. { eapply root_of_det; [exact Hr2|]. by apply Hroots1. }
  exists s2. split_and!.
  - simpl. unfold UnifyOrNull_body.
    rewrite (bind_eq _ _ _ _ _ HL1), (bind_eq _ _ _ _ _ HL2).
    unfold JoinOrNull_body. rewrite decide_True by done.
    unfold bind, ret. by rewrite !decide_True.
  - by rewrite (Lookup_arena _ _ _ _ HL2), (Lookup_arena _ _ _ _ HL1).
  - by rewrite Hdom2.
  - intros z rz. by rewrite Hroots2.
Qed.

(** ** The solver and the caches *)

Lemma solver_frame_refl s : solver_frame s s.
Proof. done. Qed.

Lemma solver_frame_trans s1 s2 s3 :
  solver_frame s1 s2 → solver_frame s2 s3 → solver_frame s1 s3.
Proof. intros (? & ? & ?) (? & ? & ?). split_and!; congruence. Qed.

Lemma keeps_ret {A} (a : A) : keeps_caches (ret a : Mon A).
Proof. intros s b s' [_ <-]%ret_Ok. apply solver_frame_refl. Qed.

Lemma keeps_bind {A B} (m : Mon A) (k : A → Mon B) :
  keeps_caches m → (∀ a, keeps_caches (k a)) → keeps_caches (bind m k).
Proof.
  intros Hm Hk s b s' (a & s1 & H1 & H2)%bind_Ok.
  eapply solver_frame_trans; [by eapply Hm|by eapply Hk].
Qed.

Lemma keeps_ICHECK b : keeps_caches (ICHECK b : Mon unit).
Proof. intros s u s' [_ ->]%ICHECK_Ok. apply solver_frame_refl. Qed.

Lemma keeps_deref (p : nat) : keeps_caches (deref p : Mon domain).
Proof. intros s d s' [_ ->]%deref_Ok. apply solver_frame_refl. Qed.

Lemma keeps_lift {A} (f : state → A * state) :
  (∀ s, solver_frame s (f s).2) → keeps_caches (lift f).
Proof. intros Hf s a s' Hl%lift_Ok. specialize (Hf s). by rewrite Hl in Hf. Qed.

Lemma keeps_Lookup (p : nat) : keeps_caches (Lookup p : Mon nat).
Proof.
  intros s r s' HL. destruct (Lookup_inv _ _ _ _ HL) as (_ & -> & _). done.
Qed.

Lemma keeps_emplace_equiv (k v : nat) : keeps_caches (emplace_equiv k v : Mon unit).
Proof. intros s u s' Hx. unfold emplace_equiv in Hx. injection Hx as _ <-. done. Qed.

Lemma frame_MakeFirstOrderDomain sc s : solver_frame s (MakeFirstOrderDomain sc s).2.
Proof.
  unfold MakeFirstOrderDomain.
  destruct (scope_IsFullyConstrained sc); [|done].
  by destruct (fully_constrained_se_scope_to_domain_ s !! sc).
Qed.

Lemma frame_MakeHigherOrderDomain parts s : solver_frame s (MakeHigherOrderDomain parts s).2.
Proof. done. Qed.

Lemma frame_MakeDomain type : ∀ sc s, solver_frame s (MakeDomain type sc s).2.
Proof.
  induction type as [tag|arg_types ret_type IHargs IHret] using Ty_induction; intros sc s.
  - apply frame_MakeFirstOrderDomain.
  - rewrite MakeDomain_FuncType.
    assert (∀ s, solver_frame s (MakeDomain_args arg_types s).2) as Hargs.
    { clear s. induction IHargs as [|ty tys Hty _ IH]; intros s; [done|]. simpl.
      specialize (Hty scope_FullyUnconstrained s).
      destruct (MakeDomain ty scope_FullyUnconstrained s) as [d s1].
      specialize (IH s1). destruct (MakeDomain_args tys s1) as [ds s2].
      by eapply solver_frame_trans. }
    specialize (Hargs s). destruct (MakeDomain_args arg_types s) as [ds s1].
    specialize (IHret sc s1). destruct (MakeDomain ret_type sc s1) as [r s2].
    eapply solver_frame_trans; [exact Hargs|].
    eapply solver_frame_trans; [exact IHret|apply frame_MakeHigherOrderDomain].
Qed.

Lemma keeps_join_parts (unify : nat → nat → Mon (option nat)) ls :
  (∀ l r, keeps_caches (unify l r)) → ∀ rs, keeps_caches (join_parts unify ls rs).
Proof.
  intros Hu. induction ls as [|l ls IH]; intros [|r rs]; simpl;
    [apply keeps_ret|apply keeps_ret|by intros ???|].
  apply keeps_bind; [done|]. intros [j|]; [|apply keeps_ret].
  apply keeps_bind; [done|]. intros ?. apply keeps_ret.
Qed.

Lemma keeps_JoinOrNull_body (unify : nat → nat → Mon (option nat)) (l r : nat) :
  (∀ l r, keeps_caches (unify l r)) → keeps_caches (JoinOrNull_body config_ unify l r).
Proof.
  intros Hu. unfold JoinOrNull_body. destruct (decide (l = r)); [apply keeps_ret|].
  apply keeps_bind; [apply keeps_deref|]. intros dl.
  apply keeps_bind; [apply keeps_deref|]. intros dr.
  apply keeps_bind; [apply keeps_ICHECK|]. intros _.
  case_bool_decide.
  - destruct (scope_IsFullyUnconstrained (se_scope_ dr)); [apply keeps_ret|].
    destruct (scope_IsFullyUnconstrained (se_scope_ dl)); [apply keeps_ret|].
    destruct (scope_Join (se_scope_ dl) (se_scope_ dr)); [|apply keeps_ret].
    apply keeps_bind; [|intros ?; apply keeps_ret].
    apply keeps_lift, frame_MakeFirstOrderDomain.
  - apply keeps_bind; [by apply keeps_join_parts|].
    intros [parts|]; [|apply keeps_ret].
    apply keeps_bind; [|intros ?; apply keeps_ret].
    by apply keeps_lift.
Qed.

Lemma keeps_UnifyOrNull_body (join : nat → nat → Mon (option nat)) (lhs rhs : nat) :
  (∀ l r, keeps_caches (join l r)) → keeps_caches (UnifyOrNull_body join lhs rhs).
Proof.
  intros Hj. unfold UnifyOrNull_body.
  apply keeps_bind; [apply keeps_Lookup|]. intros l.
  apply keeps_bind; [apply keeps_Lookup|]. intros r.
  apply keeps_bind; [done|]. intros [j|]; [|apply keeps_ret].
  apply keeps_bind; [destruct (decide (l = j)); [apply keeps_ret|apply keeps_emplace_equiv]|].
  intros _.
  apply keeps_bind; [destruct (decide (r = j)); [apply keeps_ret|apply keeps_emplace_equiv]|].
  intros _. apply keeps_ret.
Qed.

Lemma keeps_UnifyOrNull fuel : ∀ lhs rhs, keeps_caches (UnifyOrNull config_ fuel lhs rhs).
Proof.
  induction fuel as [|fuel IH]; intros lhs rhs; [by intros ???|].
  simpl. apply keeps_UnifyOrNull_body. intros l r. by apply keeps_JoinOrNull_body.
Qed.

Lemma keeps_collapse_params fuel params (fo : nat) :
  keeps_caches (collapse_params config_ fuel params fo).
Proof.
  induction params as [|p params IH]; simpl; [apply keeps_ret|].
  apply keeps_bind; [apply keeps_UnifyOrNull|]. intros [j|]; [done|apply keeps_ret].
Qed.

Lemma keeps_CollapseOrFalse fuel (fo ho : nat) :
  keeps_caches (CollapseOrFalse config_ fuel fo ho).
Proof.
  unfold CollapseOrFalse.
  apply keeps_bind; [apply keeps_deref|]. intros dfo.
  apply keeps_bind; [apply keeps_deref|]. intros dho.
  apply keeps_bind; [apply keeps_ICHECK|]. intros _.
  apply keeps_bind; [apply keeps_ICHECK|]. intros _.
  apply keeps_bind; [apply keeps_collapse_params|]. intros [|]; [|apply keeps_ret].
  destruct (function_result dho); [|by intros ???].
  apply keeps_bind; [apply keeps_UnifyOrNull|]. intros ?. apply keeps_ret.
Qed.

Lemma keeps_UnifyCollapsedOrFalse fuel (l r : nat) :
  keeps_caches (UnifyCollapsedOrFalse config_ fuel l r).
Proof.
  unfold UnifyCollapsedOrFalse.
  apply keeps_bind; [apply keeps_deref|]. intros dl.
  apply keeps_bind; [apply keeps_deref|]. intros dr.
  apply keeps_bind; [apply keeps_ICHECK|]. intros _.
  destruct (is_higher_order dr); [apply keeps_CollapseOrFalse|].
  apply keeps_bind; [apply keeps_UnifyOrNull|]. intros ?. apply keeps_ret.
Qed.

Lemma keeps_for_each {A} (body : A → Mon unit) (l : list A) :
  (∀ x, keeps_caches (body x)) → keeps_caches (for_each body l).
Proof.
  intros Hb. induction l as [|x l IH]; simpl; [apply keeps_ret|].
  apply keeps_bind; [done|]. by intros _.
Qed.

Lemma keeps_SetDefault fuel : ∀ (d : nat) sc, keeps_caches (SetDefault config_ fuel d sc).
Proof.
  induction fuel as [|fuel IH]; intros d sc; [by intros ???|].
  rewrite SetDefault_S.
  apply keeps_bind; [apply keeps_ICHECK|]. intros _.
  apply keeps_bind; [apply keeps_Lookup|]. intros r.
  apply keeps_bind; [apply keeps_deref|]. intros dr.
  case_bool_decide.
  - apply keeps_bind; [apply keeps_lift, frame_MakeFirstOrderDomain|]. intros f.
    apply keeps_bind; [apply keeps_UnifyOrNull|]. intros ?. apply keeps_ICHECK.
  - apply keeps_for_each. intros x. apply IH.
Qed.

(** X5. [Lookup], [UnifyOrNull], [JoinOrNull], [UnifyCollapsedOrFalse] and
    [SetDefault] never touch the host domain pointer, the expression cache
    or the callee cache. *)
Theorem solver_keeps_caches fuel (x y : nat) sc :
  keeps_caches (Lookup x : Mon nat) ∧
  keeps_caches (UnifyOrNull config_ fuel x y) ∧
  keeps_caches (JoinOrNull config_ fuel x y) ∧
  keeps_caches (UnifyCollapsedOrFalse config_ fuel x y) ∧
  keeps_caches (SetDefault config_ fuel x sc).
Proof.
  split_and!.
  - apply keeps_Lookup.
  - apply keeps_UnifyOrNull.
  - apply keeps_JoinOrNull_body, keeps_UnifyOrNull.
  - apply keeps_UnifyCollapsedOrFalse.
  - apply keeps_SetDefault.
Qed.

(** ** Call signatures *)

Lemma keeps_ForSEScope type sc : keeps_caches (ForSEScope config_ type sc).
Proof.
  unfold ForSEScope. apply keeps_bind; [apply keeps_ICHECK|]. intros _.
  apply keeps_lift, frame_MakeDomain.
Qed.

Lemma keeps_Free type : keeps_caches (lift (Free type) : Mon nat).
Proof. apply keeps_lift. intros s. apply frame_MakeDomain. Qed.

Lemma keeps_host : keeps_caches ((λ s, Ok (host_domain_ s, s)) : Mon nat).
Proof. intros s a s' [= _ <-]. apply solver_frame_refl. Qed.

Lemma constructor_params_length fuel (result_domain : nat) arg_types :
  ∀ s params s', constructor_params config_ fuel result_domain arg_types s = Ok (params, s') →
    solver_frame s s' ∧ length params = length arg_types.
Proof.
  induction arg_types as [|ty tys IH]; intros s params s'; simpl.
  - by intros [<- <-]%ret_Ok.
  - intros (p & s1 & Hp & Hk)%bind_Ok.
    apply bind_Ok in Hk as (ok & s2 & Hok & Hk).
    apply bind_Ok in Hk as (u & s3 & [_ ->]%ICHECK_Ok & Hk).
    apply bind_Ok in Hk as (rest & s4 & Hrest & [<- <-]%ret_Ok).
    destruct (IH _ _ _ Hrest) as [Hfr Hlen]. split; [|simpl; by rewrite Hlen].
    eapply solver_frame_trans; [by eapply keeps_Free|].
    eapply solver_frame_trans; [by eapply keeps_UnifyCollapsedOrFalse|done].
Qed.

Lemma callee_post_finish call n parts :
  length parts = S n → callee_post call n (finish_callee call parts).
Proof.
  intros Hlen s d s' Hc HF. unfold finish_callee in HF.
  apply bind_Ok in HF as (p & s1 & Hp%lift_Ok & HF).
  unfold MakeHigherOrderDomain, alloc in Hp. injection Hp as <- <-.
  injection HF as <- <-. simpl.
  exists {| se_scope_ := scope_FullyUnconstrained; args_and_result_ := parts |}.
  split_and!; [|done|].
  - by rewrite lookup_app_r, Nat.sub_diag.
  - unfold emplace. rewrite Hc. by rewrite lookup_insert_eq.
Qed.

Lemma callee_post_bind {A} call n (m : Mon A) (k : A → Mon nat) (P : A → Prop) :
  (∀ s a s', m s = Ok (a, s') → solver_frame s s' ∧ P a) →
  (∀ a, P a → callee_post call n (k a)) →
  callee_post call n (bind m k).
Proof.
  intros Hm Hk s d s' Hc (a & s1 & H1 & H2)%bind_Ok.
  destruct (Hm _ _ _ H1) as [(_ & _ & Hcc) HP].
  eapply Hk; [done| |done]. by rewrite Hcc.
Qed.

Lemma callee_post_keeps {A} call n (m : Mon A) (k : A → Mon nat) :
  keeps_caches m → (∀ a, callee_post call n (k a)) → callee_post call n (bind m k).
Proof.
  intros Hm Hk. apply (callee_post_bind call n m k (λ _, True)); [|by intros].
  intros s a s' Hs. split; [by eapply Hm|done].
Qed.

Lemma callee_post_ICHECK call n b (k : unit → Mon nat) :
  (b = true → callee_post call n (k tt)) → callee_post call n (bind (ICHECK b) k).
Proof.
  intros Hk. apply (callee_post_bind call n _ k (λ _, b = true)).
  - intros s a s' [-> ->]%ICHECK_Ok. split; [apply solver_frame_refl|done].
  - intros []. done.
Qed.

Lemma callee_post_fatal call n : callee_post call n (fatal : Mon nat).
Proof. by intros ?????. Qed.

Lemma DomainForCallee_shape fuel call s (d : nat) s' :
  call_to_callee_domain_ s !! call_id call = None →
  DomainForCallee config_ fuel call s = Ok (d, s') →
  (is_Some (on_device_props call) ∨
   (on_device_props call = None ∧ is_Some (device_copy_props call)) →
   ∃ dd : domain, arena s' !! d = Some dd ∧ function_arity dd = 1 ∧
     is_higher_order dd = true ∧ call_to_callee_domain_ s' !! call_id call = Some d) ∧
  (on_device_props call = None → device_copy_props call = None →
   kind (op call) ≠ OtherNode →
   ∃ dd : domain, arena s' !! d = Some dd ∧ function_arity dd = length (args call) ∧
     is_higher_order dd = true ∧ call_to_callee_domain_ s' !! call_id call = Some d).
Proof.
  intros Hc HD. unfold DomainForCallee in HD. rewrite Hc in HD.
  assert (∀ n m, callee_post call n m → m s = Ok (d, s') →
            ∃ dd : domain, arena s' !! d = Some dd ∧ function_arity dd = n ∧
              is_higher_order dd = true ∧ call_to_callee_domain_ s' !! call_id call = Some d)
    as Huse.
  { intros n m Hpost Hm. destruct (Hpost _ _ _ Hc Hm) as (dd & Hdd & Hlen & Hcache).
    exists dd. unfold function_arity, is_higher_order. rewrite Hlen.
    split_and!; [done|lia| |done].
    rewrite bool_decide_eq_false_2; [done|]. intros Hnil. by rewrite Hnil in Hlen. }
  split.
  - intros [[[[body sc] is_fixed] Hon]|[Hon [[[body src] dst] Hcopy]]]; rewrite Hon in HD.
    + eapply Huse; [|exact HD].
      apply callee_post_keeps; [apply keeps_ForSEScope|]. intros a.
      destruct is_fixed; [by apply callee_post_finish|].
      apply callee_post_keeps; [apply keeps_Free|]. intros r. by apply callee_post_finish.
    + rewrite Hcopy in HD. eapply Huse; [|exact HD].
      apply callee_post_keeps; [apply keeps_ForSEScope|]. intros a.
      apply callee_post_keeps; [apply keeps_ForSEScope|]. intros r.
      by apply callee_post_finish.
  - intros Hon Hcopy Hkind. rewrite Hon, Hcopy in HD.
    eapply Huse; [|exact HD]. clear HD Huse.
    destruct (kind (op call)); [| | | | | | |done].
    + apply callee_post_ICHECK. intros Hlen%bool_decide_eq_true. rewrite Hlen.
      destruct (alloc_storage_attrs call); [|apply callee_post_fatal].
      apply callee_post_keeps; [apply keeps_host|]. intros host.
      apply callee_post_keeps; [apply keeps_ForSEScope|]. intros r.
      by apply callee_post_finish.
    + apply callee_post_ICHECK. intros Hlen%bool_decide_eq_true. rewrite Hlen.
      apply callee_post_keeps; [apply keeps_Free|]. intros free_domain.
      apply callee_post_keeps; [apply keeps_host|]. intros host.
      by apply callee_post_finish.
    + apply callee_post_ICHECK. intros Hlen%bool_decide_eq_true. rewrite Hlen.
      destruct (args call); [apply callee_post_fatal|].
      apply callee_post_keeps; [apply keeps_Free|]. intros a.
      apply callee_post_keeps; [apply keeps_host|]. intros host.
      by apply callee_post_finish.
    + apply callee_post_ICHECK. intros Hlen%bool_decide_eq_true. rewrite Hlen.
      destruct (args call); [apply callee_post_fatal|].
      apply callee_post_keeps; [apply keeps_Free|]. intros free_domain.
      apply callee_post_keeps; [apply keeps_Free|]. intros a.
      by apply callee_post_finish.
    + apply callee_post_ICHECK. intros Hlen%bool_decide_eq_true. rewrite Hlen.
      apply callee_post_keeps; [apply keeps_Free|]. intros free_domain.
      apply callee_post_keeps; [apply keeps_host|]. intros host.
      by apply callee_post_finish.
    + apply callee_post_keeps; [apply keeps_lift, frame_MakeFirstOrderDomain|].
      intros free_domain. apply callee_post_finish.
      rewrite length_app, length_replicate. simpl. lia.
    + destruct (checked_type (op call)) as [arg_types ret_type|]; [|apply callee_post_fatal].
      apply callee_post_ICHECK. intros Hlen%bool_decide_eq_true.
      apply callee_post_keeps; [apply keeps_Free|]. intros result_domain.
      apply (callee_post_bind _ _ _ _ (λ params, length params = length arg_types)).
      * apply constructor_params_length.
      * intros params Hp. apply callee_post_finish.
        rewrite length_app, Hp, Hlen. simpl. lia.
Qed.

(** X6. A signature that [DomainForCallee] builds for a call that is not
    cached is a higher-order domain recorded for the call.  For an
    [on_device] or [device_copy] call it has one parameter; for the memory
    and shape operators, a primitive operator or a constructor it has as
    many parameters as the call has arguments. *)
Theorem DomainForCallee_arity fuel call s (d : nat) s' :
  call_to_callee_domain_ s !! call_id call = None →
  DomainForCallee config_ fuel call s = Ok (d, s') →
  (is_Some (on_device_props call) ∨
   (on_device_props call = None ∧ is_Some (device_copy_props call)) →
   ∃ dd : domain, arena s' !! d = Some dd ∧ function_arity dd = 1 ∧
     is_higher_order dd = true ∧ call_to_callee_domain_ s' !! call_id call = Some d) ∧
  (on_device_props call = None → device_copy_props call = None →
   kind (op call) ≠ OtherNode →
   ∃ dd : domain, arena s' !! d = Some dd ∧ function_arity dd = length (args call) ∧
     is_higher_order dd = true ∧ call_to_callee_domain_ s' !! call_id call = Some d).
Proof. apply DomainForCallee_shape. Qed.


(** ** Diagnostics of higher-order domains *)

Lemma append_nil_r (t : string) : (t +:+ "")%string = t.
Proof.
  induction t as [|a t IH]; [done|].
  change (String a (t +:+ "") = String a t). by f_equal.
Qed.

Lemma append_nil_l (t : string) : ("" +:+ t)%string = t.
Proof. reflexivity. Qed.

Lemma ToString_S fuel (x : nat) :
  ToString (S fuel) x =
  bind (Lookup x) (λ domain,
  bind (deref domain) (λ d,
    match last (args_and_result_ d) with
    | None => ret (first_order_text domain d)
    | Some back =>
        bind ((fix loop (i : nat) (subs : list nat) : Mon string :=
                 match subs with
                 | [] => ret ""%string
                 | sub :: subs' =>
                     bind (ToString fuel sub) (λ t,
                     bind (loop (S i) subs') (λ rest,
                     ret ((if decide (0 < i) then "," else "") +:+ t +:+ rest)%string))
                 end) 0 (removelast (args_and_result_ d))) (λ params,
        bind (ToString fuel back) (λ res,
        ret ("fn(" +:+ params +:+ "):" +:+ res)%string))
    end)).
Proof. reflexivity. Qed.

Lemma ToString_params fuel ps s texts s2 :
  rendered (ToString fuel) ps s texts s2 →
  ∀ i,
  (fix loop (i : nat) (subs : list nat) : Mon string :=
     match subs with
     | [] => ret ""%string
     | sub :: subs' =>
         bind (ToString fuel sub) (λ t,
         bind (loop (S i) subs') (λ rest,
         ret ((if decide (0 < i) then "," else "") +:+ t +:+ rest)%string))
     end) i ps s =
  Ok ((match i, texts with
       | _, [] => ""
       | 0, _ => String.concat "," texts
       | S _, _ => "," +:+ String.concat "," texts
       end)%string, s2).
Proof.
  induction 1 as [s|p ps s t s1 ts s2 Hp Hps IH]; intros i.
  - by destruct i.
  - rewrite (bind_eq _ _ _ _ _ Hp), (bind_eq _ _ _ _ _ (IH (S i))).
    unfold ret. do 2 f_equal.
    destruct i; [rewrite decide_False by lia|rewrite decide_True by lia];
      destruct ts as [|t' ts]; simpl; by rewrite ?append_nil_l, ?append_nil_r.
Qed.

(** X7. [ToString] of a domain with a higher-order root is [fn(], the
    texts of the parameters in order separated by commas, [):] and the text
    of the result, each rendered in the state the previous one left. *)
Theorem ToString_higher_order fuel (d r res : nat) s s1 (dr : domain) ps texts s2 t s3 :
  Lookup d s = Ok (r, s1) → arena s !! r = Some dr →
  args_and_result_ dr = ps ++ [res] →
  rendered (ToString fuel) ps s1 texts s2 →
  ToString fuel res s2 = Ok (t, s3) →
  ToString (S fuel) d s =
    Ok (("fn(" +:+ String.concat "," texts +:+ "):" +:+ t)%string, s3).
Proof.
  intros HLk Hdr Hargs Hps Hres. rewrite ToString_S.
  rewrite (bind_eq _ _ _ _ _ HLk).
  assert (arena s1 !! r = Some dr) as Hdr1 by by rewrite (Lookup_arena _ _ _ _ HLk).
  rewrite (bind_deref _ _ _ _ Hdr1), Hargs, last_snoc, removelast_last.
  rewrite (bind_eq _ _ _ _ _ (ToString_params _ _ _ _ _ Hps 0)).
  rewrite (bind_eq _ _ _ _ _ Hres). unfold ret. do 3 f_equal.
  by destruct texts.
Qed.

Section Laws.

Hypothesis HL : ScopeLaws config_.

Lemma resolved_grow s s' (p : nat) sc :
  arena s `prefix_of` arena s' → domain_to_equiv_ s' = domain_to_equiv_ s →
  resolved s p sc → resolved s' p sc.
Proof.
  intros Hpre Ht (r & d & Hr & Hd & Ha & Hsc). exists r, d. rewrite Ht.
  split_and!; [done| |done|done]. by eapply prefix_lookup_Some.
Qed.

Lemma ForSEScope_post type sc s (p : nat) s' :
  Inv s → ForSEScope config_ type sc s = Ok (p, s') →
  Inv s' ∧ valid s' p ∧ domain_to_equiv_ s' = domain_to_equiv_ s ∧
  arena s `prefix_of` arena s' ∧
  (∀ tag, type = OtherType tag → resolved s' p (CanonicalSEScope config_ sc)).
Proof.
  unfold ForSEScope. intros HI HF. apply bind_Ok in HF as (u & s1 & HC & HF).
  apply ICHECK_Ok in HC as [_ ->]. apply lift_Ok in HF.
  destruct (MakeDomain_post config_ HL _ _ _ _ _ HI HF) as (HI' & He & Ht & Hv).
  split_and!; [done|done|done|apply He|].
  intros tag ->. simpl in HF.
  destruct (MakeFirstOrderDomain_spec _ _ _ _ HI HF) as (_ & _ & _ & Hp & Hfresh).
  exists p, {| se_scope_ := CanonicalSEScope config_ sc; args_and_result_ := [] |}.
  split_and!; [|done|done|done].
  apply root_of_root.
  destruct (scope_IsFullyConstrained (CanonicalSEScope config_ sc)) eqn:Hfc.
  + by eapply (inv_constrained_root s' HI' p).
  + destruct (Hfresh eq_refl) as (-> & _). rewrite Ht.
    destruct (domain_to_equiv_ s !! length (arena s)) as [v|] eqn:Hk; [|done].
    destruct (inv_entries s HI _ _ Hk) as (? & _). lia.
Qed.

Lemma ForSEScope_returns type sc s :
  scope_IsFullyUnconstrained (CanonicalSEScope config_ sc) = false →
  ForSEScope config_ type sc s = Ok (MakeDomain type (CanonicalSEScope config_ sc) s).
Proof. intros Hu. unfold ForSEScope, bind. by rewrite Hu. Qed.

(** X8. [ForSEScope] aborts when the canonical form of the scope is fully
    unconstrained and is [MakeDomain] at the canonical scope otherwise.  It
    keeps the invariant and the equivalence table, and for a type that is
    not a function type the domain it returns resolves to the canonical
    scope. *)
Theorem ForSEScope_spec type sc s :
  (scope_IsFullyUnconstrained (CanonicalSEScope config_ sc) = true →
   ForSEScope config_ type sc s = Fatal) ∧
  (scope_IsFullyUnconstrained (CanonicalSEScope config_ sc) = false →
   ForSEScope config_ type sc s = Ok (MakeDomain type (CanonicalSEScope config_ sc) s)) ∧
  (∀ (p : nat) s', Inv s → ForSEScope config_ type sc s = Ok (p, s') →
     Inv s' ∧ valid s' p ∧ domain_to_equiv_ s' = domain_to_equiv_ s ∧
     arena s `prefix_of` arena s' ∧
     (∀ tag, type = OtherType tag → resolved s' p (CanonicalSEScope config_ sc))).
Proof.
  split_and!.
  - intros Hu. unfold ForSEScope, bind. by rewrite Hu.
  - apply ForSEScope_returns.
  - intros p s'. apply ForSEScope_post.
Qed.




(** ** Termination of the solver *)

Lemma bind_returns {A B} (m : Mon A) (k : A → Mon B) s :
  m s ≠ OutOfFuel → (∀ a s1, m s = Ok (a, s1) → k a s1 ≠ OutOfFuel) →
  bind m k s ≠ OutOfFuel.
Proof.
  unfold bind. destruct (m s) as [[a s1]| |]; [|done|done]. intros _ Hk. by apply Hk.
Qed.

Lemma Lookup_returns (p : nat) s : Inv s → Lookup p s ≠ OutOfFuel.
Proof.
  intros HI. destruct (Lookup_total p s) as (r & s' & ->); [|done].
  apply (inv_acyclic s HI).
Qed.

Lemma join_parts_returns (unify : nat → nat → Mon (option nat)) n ls :
  Unify_spec unify →
  (∀ (l r : nat) s, Inv s → valid s l → valid s r → depth (arena s) l < n →
                    unify l r s ≠ OutOfFuel) →
  ∀ rs s, Inv s → Forall (valid s) ls → Forall (valid s) rs →
    Forall (λ l, depth (arena s) l < n) ls →
    join_parts unify ls rs s ≠ OutOfFuel.
Proof.
  intros HU Hret. induction ls as [|l ls IH]; intros [|r rs] s HI Hls Hrs Hd; simpl; try done.
  apply Forall_cons in Hls as [Hl Hls]. apply Forall_cons in Hrs as [Hr Hrs].
  apply Forall_cons in Hd as [Hdl Hd].
  apply bind_returns; [by apply Hret|]. intros [j|] s1 Hu; [|done].
  destruct (HU _ _ _ _ _ HI Hl Hr Hu) as (Hstep & _).
  pose proof (so_ext _ _ Hstep) as He.
  apply bind_returns; [|done]. apply IH.
  - apply Hstep.
  - eapply Forall_impl; [exact Hls|]. intros x. by apply extends_valid.
  - eapply Forall_impl; [exact Hrs|]. intros x. by apply extends_valid.
  - rewrite Forall_forall in Hd, Hls. apply Forall_forall. intros x Hx.
    rewrite (extends_depth _ _ _ He); auto.
Qed.

Lemma JoinOrNull_body_returns (unify : nat → nat → Mon (option nat)) n (l r : nat) s :
  Unify_spec unify →
  (∀ (l r : nat) s, Inv s → valid s l → valid s r → depth (arena s) l < n →
                    unify l r s ≠ OutOfFuel) →
  Inv s → valid s l → valid s r → depth (arena s) l ≤ n →
  JoinOrNull_body config_ unify l r s ≠ OutOfFuel.
Proof.
  intros HU Hret HI Hl Hr Hd. unfold JoinOrNull_body.
  destruct (decide (l = r)); [done|].
  destruct (Inv_valid_lookup _ _ Hl) as [dl Hdl].
  destruct (Inv_valid_lookup _ _ Hr) as [dr Hdr].
  rewrite (bind_deref _ _ _ _ Hdl), (bind_deref _ _ _ _ Hdr).
  apply bind_returns; [by destruct (bool_decide _)|]. intros _ s1 [_ ->]%ICHECK_Ok.
  case_bool_decide as Hfo.
  - destruct (scope_IsFullyUnconstrained (se_scope_ dr)); [done|].
    destruct (scope_IsFullyUnconstrained (se_scope_ dl)); [done|].
    destruct (scope_Join (se_scope_ dl) (se_scope_ dr)); [|done].
    unfold bind, lift. by destruct (MakeFirstOrderDomain _ _).
  - apply bind_returns; [|intros [parts|] ??; [|done]; unfold bind, lift;
                           by destruct (MakeHigherOrderDomain _ _)].
    apply (join_parts_returns unify n); try done.
    + eapply Forall_impl; [exact (inv_parts s HI _ _ Hdl)|]. unfold valid. intros x ?.
      apply lookup_lt_Some in Hdl. lia.
    + eapply Forall_impl; [exact (inv_parts s HI _ _ Hdr)|]. unfold valid. intros x ?.
      apply lookup_lt_Some in Hdr. lia.
    + apply Forall_forall. intros x Hx.
      pose proof (depth_part _ _ _ _ (inv_parts s HI) Hdl Hx). lia.
Qed.

Lemma UnifyOrNull_returns fuel : ∀ (lhs rhs : nat) s,
  Inv s → valid s lhs → valid s rhs → depth (arena s) lhs < fuel →
  UnifyOrNull config_ fuel lhs rhs s ≠ OutOfFuel.
Proof.
  induction fuel as [|fuel IH]; intros lhs rhs s HI Hl Hr Hd; [lia|].
  simpl. unfold UnifyOrNull_body.
  apply bind_returns; [by apply Lookup_returns|]. intros l' s1 HL1.
  destruct (Lookup_step _ _ _ _ HI Hl HL1) as (Hstep1 & Ha1 & _ & Hrl & Hvl & _).
  pose proof (so_inv _ _ Hstep1) as HI1.
  assert (valid s1 rhs) as Hr1 by (unfold valid; by rewrite Ha1).
  apply bind_returns; [by apply Lookup_returns|]. intros r' s2 HL2.
  destruct (Lookup_step _ _ _ _ HI1 Hr1 HL2) as (Hstep2 & Ha2 & _ & Hrr & Hvr & _).
  pose proof (so_inv _ _ Hstep2) as HI2.
  apply bind_returns.
  - apply (JoinOrNull_body_returns _ fuel).
    + by apply UnifyOrNull_spec.
    + exact IH.
    + done.
    + unfold valid in *. by rewrite Ha2, Ha1.
    + unfold valid in *. by rewrite Ha2.
    + rewrite Ha2, Ha1, <-(root_of_depth _ _ _ HI Hrl). lia.
  - intros [j|] s3 _; [|done].
    unfold bind, ret, emplace_equiv. by repeat destruct (decide _).
Qed.

(** X9. In a state that satisfies the invariant the mutual recursion of
    [UnifyOrNull] and [JoinOrNull] is bounded by the nesting depth of the
    left domain: with more fuel than that depth the call returns or aborts
    on a failed check. *)
Theorem Unify_terminates fuel (lhs rhs : nat) s :
  Inv s → valid s lhs → valid s rhs → depth (arena s) lhs < fuel →
  UnifyOrNull config_ fuel lhs rhs s = Fatal ∨
  ∃ res s', UnifyOrNull config_ fuel lhs rhs s = Ok (res, s').
Proof.
  intros HI Hl Hr Hd. pose proof (UnifyOrNull_returns fuel lhs rhs s HI Hl Hr Hd) as Hne.
  destruct (UnifyOrNull config_ fuel lhs rhs s) as [[res s']| |]; [right; by exists res, s'|by left|done].
Qed.

(** ** The expression cache *)

Lemma Inv_set_expr_to_domain (t : gmap nat nat) s : Inv s → Inv (set_expr_to_domain t s).
Proof. intros [???????]. by split. Qed.

Lemma Inv_set_call_to_callee (t : gmap nat nat) s : Inv s → Inv (set_call_to_callee t s).
Proof. intros [???????]. by split. Qed.

Lemma caches_valid_frame s s' :
  solver_frame s s' → arena s `prefix_of` arena s' → caches_valid s → caches_valid s'.
Proof.
  intros (_ & He & Hc) Hpre [Hce Hcc]. unfold caches_valid. rewrite He, Hc.
  split; intros k d Hk; unfold valid;
    (eapply Nat.lt_le_trans; [|by apply prefix_length]); [by eapply Hce|by eapply Hcc].
Qed.

Lemma Free_fresh type s p s' :
  Inv s → Free type s = (p, s') →
  factory_post s p s' ∧ length (arena s) ≤ p ∧ domain_to_equiv_ s' !! p = None ∧
  free_shaped (arena s') (length (arena s)) type p ∧ solver_frame s s'.
Proof.
  intros HI HF. unfold Free in HF.
  pose proof (MakeDomain_post config_ HL _ _ _ _ _ HI HF) as Hpost.
  pose proof (MakeDomain_free (unconstrained_not_constrained config_ HL) type s) as Hfree.
  pose proof (frame_MakeDomain type scope_FullyUnconstrained s) as Hframe.
  rewrite HF in Hfree, Hframe. simpl in Hfree, Hframe.
  assert (length (arena s) ≤ p) as Hp.
  { destruct type; simpl in Hfree.
    - destruct Hfree as (? & ? & _ & ? & _). done.
    - by destruct Hfree. }
  split_and!; [done|done| |done|done].
  destruct Hpost as (_ & _ & -> & _).
  destruct (domain_to_equiv_ s !! p) as [v|] eqn:Hk; [|done].
  destruct (inv_entries s HI _ _ Hk) as (? & _). lia.
Qed.

Lemma DomainFor_post expr s (d : nat) s' :
  Inv s → caches_valid s → DomainFor expr s = Ok (d, s') →
  step_ok s s' ∧ caches_valid s' ∧ valid s' d ∧
  host_domain_ s' = host_domain_ s ∧
  call_to_callee_domain_ s' = call_to_callee_domain_ s ∧
  (∀ e c, expr_to_domain_ s !! e = Some c → expr_to_domain_ s' !! e = Some c) ∧
  (∀ e, e ≠ expr_id expr → expr_to_domain_ s' !! e = expr_to_domain_ s !! e) ∧
  ∃ c, expr_to_domain_ s' !! expr_id expr = Some c ∧
       root_of (domain_to_equiv_ s') c d.
Proof.
  intros HI [Hce Hcc] HD. unfold DomainFor in HD.
  destruct (expr_to_domain_ s !! expr_id expr) as [c|] eqn:Hc.
  - pose proof (Hce _ _ Hc) as Hv.
    destruct (Lookup_step _ _ _ _ HI Hv HD) as (Hstep & Ha & _ & Hr & Hvd & _ & Hroots).
    pose proof (keeps_Lookup _ _ _ _ HD) as Hframe.
    split_and!; [done| |by unfold valid in *; rewrite Ha|apply Hframe|apply Hframe| | |].
    + eapply caches_valid_frame; [done|by rewrite Ha|done].
    + destruct Hframe as (_ & -> & _). done.
    + destruct Hframe as (_ & -> & _). done.
    + exists c. destruct Hframe as (_ & -> & _). split; [done|]. by apply Hroots.
  - destruct (Free (checked_type expr) s) as [p s1] eqn:HF. injection HD as <- <-.
    destruct (Free_fresh _ _ _ _ HI HF) as ((HI1 & He1 & Ht1 & Hv1) & Hp & Hnone & _ & Hfr).
    destruct Hfr as (Hh & Hec & Hcc1).
    assert (emplace (expr_id expr) p (expr_to_domain_ s1)
            = <[expr_id expr := p]> (expr_to_domain_ s)) as Hem.
    { unfold emplace. by rewrite Hec, Hc. }
    simpl. rewrite Hem. split_and!.
    + split; [by apply Inv_set_expr_to_domain|by destruct He1| |]; simpl; rewrite Ht1; done.
    + split; simpl.
      * intros e c. destruct (decide (e = expr_id expr)) as [->|Hne].
        -- rewrite lookup_insert_eq. by intros [= <-].
        -- rewrite lookup_insert_ne by done. intros Hk. change (valid s1 c).
           eapply extends_valid; [done|]. by eapply Hce.
      * intros c x Hk. rewrite Hcc1 in Hk. change (valid s1 x).
        eapply extends_valid; [done|]. by eapply Hcc.
    + done.
    + done.
    + done.
    + intros e c Hk. rewrite lookup_insert_ne; [done|]. intros <-. congruence.
    + intros e Hne. by rewrite lookup_insert_ne.
    + exists p. rewrite lookup_insert_eq. split; [done|]. by apply root_of_root.
Qed.

(** X10. [DomainFor] on an expression that is not cached returns a new domain
    shaped by the checked type of the expression, all of whose leaves are
    fully unconstrained, and records it for the expression; the equivalence
    table is unchanged. *)
Theorem DomainFor_uncached expr s :
  Inv s → expr_to_domain_ s !! expr_id expr = None →
  ∃ (d : nat) s', DomainFor expr s = Ok (d, s') ∧
    free_shaped (arena s') (length (arena s)) (checked_type expr) d ∧
    expr_to_domain_ s' = <[expr_id expr := d]> (expr_to_domain_ s) ∧
    domain_to_equiv_ s' = domain_to_equiv_ s ∧
    arena s `prefix_of` arena s' ∧ Inv s'.
Proof.
  intros HI Hc. unfold DomainFor. rewrite Hc.
  destruct (Free (checked_type expr) s) as [p s1] eqn:HF.
  destruct (Free_fresh _ _ _ _ HI HF) as ((HI1 & He1 & Ht1 & Hv1) & Hp & Hnone & Hfree & Hfr).
  destruct Hfr as (Hh & Hec & Hcc1).
  eexists _, _. split; [done|]. simpl. split_and!; [done| |done|apply He1|].
  - unfold emplace. by rewrite Hec, Hc.
  - by apply Inv_set_expr_to_domain.
Qed.

Lemma DomainFor_again expr s (d : nat) s' :
  Inv s → DomainFor expr s = Ok (d, s') → DomainFor expr s' = Ok (d, s').
Proof.
  intros HI HD. unfold DomainFor in *.
  destruct (expr_to_domain_ s !! expr_id expr) as [c|] eqn:Hc.
  - destruct (keeps_Lookup _ _ _ _ HD) as (_ & -> & _). rewrite Hc.
    by eapply Lookup_again.
  - destruct (Free (checked_type expr) s) as [p s1] eqn:HF. injection HD as <- <-.
    destruct (Free_fresh _ _ _ _ HI HF) as (_ & _ & Hnone & _ & (_ & Hec & _)).
    simpl. unfold emplace. rewrite Hec, Hc, lookup_insert_eq.
    by apply Lookup_root.
Qed.

(** X11. Asking [DomainFor] again for the same expression, in the state the
    first call left, returns the same domain and changes nothing. *)
Theorem DomainFor_stable expr s (d : nat) s' :
  Inv s → DomainFor expr s = Ok (d, s') → DomainFor expr s' = Ok (d, s').
Proof. apply DomainFor_again. Qed.


Lemma DomainFor_cached_root expr s (c j : nat) :
  Inv s → caches_valid s →
  expr_to_domain_ s !! expr_id expr = Some c → root_of (domain_to_equiv_ s) c j →
  ∃ s', DomainFor expr s = Ok (j, s') ∧ step_ok s s' ∧ solver_frame s s' ∧
        arena s' = arena s ∧
        (∀ x r', root_of (domain_to_equiv_ s') x r' ↔ root_of (domain_to_equiv_ s) x r').
Proof.
  intros HI [Hce _] Hc Hr. unfold DomainFor. rewrite Hc.
  destruct (Lookup_root_of c s j HI) as (s' & HLk & Hstep & Ha & _ & _ & Hroots);
    [by eapply Hce|done|].
  exists s'. split_and!; [done|done|by eapply keeps_Lookup|done|done].
Qed.

(** X12. After [UnifyExprExact] of two expressions has returned, [DomainFor]
    returns one and the same domain for both. *)
Theorem UnifyExprExact_same_domain fuel lhs rhs s s' :
  Inv s → caches_valid s →
  UnifyExprExact config_ fuel lhs rhs s = Ok (tt, s') →
  ∃ (j : nat) s1 s2, DomainFor lhs s' = Ok (j, s1) ∧ DomainFor rhs s1 = Ok (j, s2).
Proof.
  intros HI HC HU. unfold UnifyExprExact in HU.
  apply bind_Ok in HU as (dl & s1 & HD1 & HU).
  apply bind_Ok in HU as (dr & s2 & HD2 & HU).
  apply bind_Ok in HU as (u & s3 & HU3 & HU).
  apply ICHECK_Ok in HU as [Hu ->]. apply bool_decide_eq_true in Hu.
  destruct u as [j|]; [clear Hu|done].
  destruct (DomainFor_post _ _ _ _ HI HC HD1)
    as (Hstep1 & HC1 & Hv1 & _ & _ & _ & _ & cl & Hcl & Hrl).
  pose proof (so_inv _ _ Hstep1) as HI1.
  destruct (DomainFor_post _ _ _ _ HI1 HC1 HD2)
    as (Hstep2 & HC2 & Hv2 & _ & _ & Hgrow2 & _ & cr & Hcr & Hrr).
  pose proof (so_inv _ _ Hstep2) as HI2.
  assert (valid s2 dl) as Hv1' by (eapply extends_valid; [apply Hstep2|done]).
  destruct (UnifyOrNull_spec config_ HL fuel _ _ _ _ _ HI2 Hv1' Hv2 HU3) as (Hstep3 & _ & Hres).
  destruct (Hres j eq_refl) as (_ & _ & Hjl & Hjr & _).
  pose proof (so_inv _ _ Hstep3) as HI3.
  pose proof (keeps_UnifyOrNull fuel _ _ _ _ _ HU3) as Hfr3.
  assert (caches_valid s3) as HC3.
  { eapply caches_valid_frame; [done|apply Hstep3|done]. }
  assert (same_class (domain_to_equiv_ s3) cl dl) as (r1 & Hr1 & Hr1').
  { apply (so_class _ _ Hstep3), (so_class _ _ Hstep2). by apply same_class_root. }
  assert (same_class (domain_to_equiv_ s3) cr dr) as (r2 & Hr2 & Hr2').
  { apply (so_class _ _ Hstep3). by apply same_class_root. }
  rewrite (root_of_det _ _ _ _ Hr1' Hjl) in Hr1.
  rewrite (root_of_det _ _ _ _ Hr2' Hjr) in Hr2.
  destruct Hfr3 as (_ & Hec3 & _).
  destruct (DomainFor_cached_root lhs s3 cl j HI3 HC3) as (s4 & HD4 & Hstep4 & Hfr4 & Ha4 & Hroots4).
  { rewrite Hec3. by apply Hgrow2. }
  { done. }
  destruct (DomainFor_cached_root rhs s4 cr j) as (s5 & HD5 & _).
  { apply Hstep4. }
  { eapply caches_valid_frame; [done|by rewrite Ha4|done]. }
  { destruct Hfr4 as (_ & -> & _). by rewrite Hec3. }
  { by apply Hroots4. }
  by exists j, s4, s5.
Qed.

(** X13. [UnifyExprExact] of two cached expressions whose domains resolve to
    first-order scopes that do not join aborts. *)
Theorem UnifyExprExact_conflict_is_fatal fuel lhs rhs s (cl cr : nat) a b :
  Inv s → caches_valid s →
  expr_to_domain_ s !! expr_id lhs = Some cl →
  expr_to_domain_ s !! expr_id rhs = Some cr →
  resolved s cl a → resolved s cr b →
  ¬ same_class (domain_to_equiv_ s) cl cr →
  first_order_join config_ a b = None →
  UnifyExprExact config_ (S fuel) lhs rhs s = Fatal.
Proof.
  intros HI HC Hcl Hcr (l' & dl & Hrl & Hdl & Hal & <-) (r' & dr & Hrr & Hdr & Har & <-) Hnc Hj.
  assert (l' ≠ r') as Hne by (intros ->; apply Hnc; by exists r').
  destruct (DomainFor_cached_root lhs s cl l' HI HC Hcl Hrl)
    as (s1 & HD1 & Hstep1 & Hfr1 & Ha1 & Hroots1).
  pose proof (so_inv _ _ Hstep1) as HI1.
  destruct (DomainFor_cached_root rhs s1 cr r') as (s2 & HD2 & Hstep2 & Hfr2 & Ha2 & Hroots2).
  { done. }
  { eapply caches_valid_frame; [done|by rewrite Ha1|done]. }
  { destruct Hfr1 as (_ & -> & _). done. }
  { by apply Hroots1. }
  pose proof (so_inv _ _ Hstep2) as HI2.
  assert (arena s2 = arena s) as Ha by by rewrite Ha2.
  destruct (Unify_first_order config_ HL fuel l' r' s2 l' r' dl dr)
    as (res & s3 & HU & _ & Hres); try done.
  - unfold valid. rewrite Ha. by eapply lookup_lt_Some.
  - unfold valid. rewrite Ha. by eapply lookup_lt_Some.
  - apply Hroots2, Hroots1. by eapply root_of_idem.
  - apply Hroots2, Hroots1. by eapply root_of_idem.
  - by rewrite Ha.
  - by rewrite Ha.
  - rewrite decide_False, Hj in Hres by done. destruct Hres as (-> & _).
    unfold UnifyExprExact.
    rewrite (bind_eq _ _ _ _ _ HD1), (bind_eq _ _ _ _ _ HD2), (bind_eq _ _ _ _ _ HU).
    done.
Qed.

(** ** Collapse keeps the invariant *)

Lemma collapse_params_step fuel params (fo : nat) : ∀ s b s',
  Inv s → valid s fo → Forall (valid s) params →
  collapse_params config_ fuel params fo s = Ok (b, s') → step_ok s s'.
Proof.
  induction params as [|p params IH]; intros s b s' HI Hfo Hps; simpl.
  - intros [_ <-]%ret_Ok. by apply step_ok_refl.
  - apply Forall_cons in Hps as [Hp Hps].
    intros (u & s1 & HU & Hk)%bind_Ok.
    destruct (UnifyOrNull_spec config_ HL fuel _ _ _ _ _ HI Hp Hfo HU) as (Hstep & _).
    destruct u as [j|].
    + eapply step_ok_trans; [done|]. eapply IH; [apply Hstep| | |done].
      * eapply extends_valid; [apply Hstep|done].
      * eapply Forall_impl; [exact Hps|]. intros x. apply extends_valid, Hstep.
    + by apply ret_Ok in Hk as [_ <-].
Qed.

Lemma CollapseOrFalse_step fuel (fo ho : nat) s b s' :
  Inv s → CollapseOrFalse config_ fuel fo ho s = Ok (b, s') → step_ok s s'.
Proof.
  intros HI HC. unfold CollapseOrFalse in HC.
  apply bind_Ok in HC as (dfo & s1 & [Hdfo ->]%deref_Ok & HC).
  apply bind_Ok in HC as (dho & s1 & [Hdho ->]%deref_Ok & HC).
  apply bind_Ok in HC as (u & s1 & [_ ->]%ICHECK_Ok & HC).
  apply bind_Ok in HC as (u' & s1 & [_ ->]%ICHECK_Ok & HC).
  apply bind_Ok in HC as (ok & s1 & Hparams & HC).
  assert (valid s fo) as Hfo by by eapply lookup_lt_Some.
  assert (Forall (valid s) (args_and_result_ dho)) as Hparts.
  { eapply Forall_impl; [exact (inv_parts s HI _ _ Hdho)|]. unfold valid. intros x ?.
    apply lookup_lt_Some in Hdho. lia. }
  assert (Forall (valid s) (function_params dho)) as Hps.
  { unfold function_params. apply Forall_forall. intros x Hx.
    rewrite Forall_forall in Hparts. apply Hparts.
    destruct (args_and_result_ dho) as [|y l] using rev_ind; [done|].
    rewrite removelast_last in Hx. apply elem_of_app. by left. }
  pose proof (collapse_params_step _ _ _ _ _ _ HI Hfo Hps Hparams) as Hstep1.
  destruct ok; [|by apply ret_Ok in HC as [_ <-]].
  destruct (function_result dho) as [res|] eqn:Hres; [|done].
  apply bind_Ok in HC as (u2 & s2 & HU & [_ <-]%ret_Ok).
  assert (valid s res) as Hvres.
  { rewrite Forall_forall in Hparts. apply Hparts. unfold function_result in Hres.
    apply last_Some in Hres as [l' ->]. apply elem_of_app. right. by apply list_elem_of_singleton. }
  eapply step_ok_trans; [done|].
  eapply (UnifyOrNull_spec config_ HL fuel); [apply Hstep1| | |done].
  - eapply extends_valid; [apply Hstep1|done].
  - eapply extends_valid; [apply Hstep1|done].
Qed.

Lemma UnifyCollapsedOrFalse_step fuel (l r : nat) s b s' :
  Inv s → UnifyCollapsedOrFalse config_ fuel l r s = Ok (b, s') → step_ok s s'.
Proof.
  intros HI HC. unfold UnifyCollapsedOrFalse in HC.
  apply bind_Ok in HC as (dl & s1 & [Hdl ->]%deref_Ok & HC).
  apply bind_Ok in HC as (dr & s1 & [Hdr ->]%deref_Ok & HC).
  apply bind_Ok in HC as (u & s1 & [_ ->]%ICHECK_Ok & HC).
  destruct (is_higher_order dr); [by eapply CollapseOrFalse_step|].
  apply bind_Ok in HC as (u2 & s2 & HU & [_ <-]%ret_Ok).
  eapply (UnifyOrNull_spec config_ HL fuel); [done| | |done]; by eapply lookup_lt_Some.
Qed.

Lemma constructor_params_step fuel (result_domain : nat) arg_types : ∀ s params s',
  Inv s → constructor_params config_ fuel result_domain arg_types s = Ok (params, s') →
  Inv s'.
Proof.
  induction arg_types as [|ty tys IH]; intros s params s' HI; simpl.
  - by intros [_ <-]%ret_Ok.
  - intros (p & s1 & Hp%lift_Ok & Hk)%bind_Ok.
    apply bind_Ok in Hk as (ok & s2 & Hok & Hk).
    apply bind_Ok in Hk as (u & s3 & [_ ->]%ICHECK_Ok & Hk).
    apply bind_Ok in Hk as (rest & s4 & Hrest & [_ <-]%ret_Ok).
    destruct (Free_fresh _ _ _ _ HI Hp) as ((HI1 & _) & _).
    pose proof (UnifyCollapsedOrFalse_step _ _ _ _ _ _ HI1 Hok) as Hstep.
    eapply IH; [apply Hstep|done].
Qed.

Lemma finish_callee_post call parts s :
  call_to_callee_domain_ s !! call_id call = None →
  ∃ s', finish_callee call parts s = Ok (length (arena s), s') ∧
    arena s' = arena s ++ [{| se_scope_ := scope_FullyUnconstrained;
                              args_and_result_ := parts |}] ∧
    domain_to_equiv_ s' = domain_to_equiv_ s ∧
    call_to_callee_domain_ s' = <[call_id call := length (arena s)]> (call_to_callee_domain_ s).
Proof.
  intros Hc. eexists. split; [reflexivity|]. simpl. split_and!; [done|done|].
  unfold emplace. by rewrite Hc.
Qed.

(** ** A recorded signature is returned again *)

Lemma returns_root_bind {A} (Q : state → Prop) (P : state → Prop)
    (m : Mon A) (k : A → Mon nat) :
  (∀ s a s', Q s → m s = Ok (a, s') → P s') →
  (∀ a, returns_root P (k a)) →
  returns_root Q (bind m k).
Proof.
  intros Hm Hk s d s' HQ (a & s1 & H1 & H2)%bind_Ok.
  eapply Hk; [|done]. by eapply Hm.
Qed.

Lemma returns_root_finish call parts : returns_root Inv (finish_callee call parts).
Proof.
  intros s d s' HI HF. unfold finish_callee in HF.
  apply bind_Ok in HF as (p & s1 & Hp%lift_Ok & HF).
  unfold MakeHigherOrderDomain, alloc in Hp. injection Hp as <- <-.
  injection HF as <- <-. simpl.
  destruct (domain_to_equiv_ s !! length (arena s)) as [v|] eqn:Hk; [|done].
  destruct (inv_entries s HI _ _ Hk) as (? & _). lia.
Qed.

Lemma Inv_ForSEScope type sc s (a : nat) s' :
  Inv s → ForSEScope config_ type sc s = Ok (a, s') → Inv s'.
Proof. intros HI HF. by destruct (ForSEScope_post _ _ _ _ _ HI HF). Qed.

Lemma Inv_Free type s (a : nat) s' : Inv s → lift (Free type) s = Ok (a, s') → Inv s'.
Proof. intros HI HF%lift_Ok. by destruct (Free_fresh _ _ _ _ HI HF) as ((? & _) & _). Qed.

Lemma Inv_host s (a : nat) s' :
  Inv s → (λ s, Ok (host_domain_ s, s)) s = Ok (a, s') → Inv s'.
Proof. by intros HI [= _ <-]. Qed.

Lemma Inv_ICHECK b s u s' : Inv s → ICHECK b s = Ok (u, s') → Inv s'.
Proof. by intros HI [_ ->]%ICHECK_Ok. Qed.

Lemma DomainForCallee_builds fuel call :
  on_device_props call ≠ None ∨ device_copy_props call ≠ None ∨ kind (op call) ≠ OtherNode →
  ∀ s (d : nat) s',
    Inv s → call_to_callee_domain_ s !! call_id call = None →
    DomainForCallee config_ fuel call s = Ok (d, s') →
    domain_to_equiv_ s' !! d = None.
Proof.
  intros Hbuild s d s' HI Hc HD. unfold DomainForCallee in HD. rewrite Hc in HD.
  revert HD. revert HI. revert s d s' Hc.
  assert (∀ m, returns_root Inv m →
            ∀ s (d : nat) s', call_to_callee_domain_ s !! call_id call = None →
              Inv s → m s = Ok (d, s') → domain_to_equiv_ s' !! d = None) as Huse.
  { intros m Hm s d s' _ HI Hs. by eapply Hm. }
  destruct (on_device_props call) as [[[body sc] is_fixed]|].
  { apply Huse. eapply returns_root_bind; [apply Inv_ForSEScope|]. intros a.
    destruct is_fixed; [apply returns_root_finish|].
    eapply returns_root_bind; [apply Inv_Free|]. intros r. apply returns_root_finish. }
  destruct (device_copy_props call) as [[[body src] dst]|].
  { apply Huse. eapply returns_root_bind; [apply Inv_ForSEScope|]. intros a.
    eapply returns_root_bind; [apply Inv_ForSEScope|]. intros r. apply returns_root_finish. }
  destruct (kind (op call)); [| | | | | | |by destruct Hbuild as [?|[?|?]]]; apply Huse.
  - eapply returns_root_bind; [apply Inv_ICHECK|]. intros _.
    destruct (alloc_storage_attrs call); [|by intros ?????].
    eapply returns_root_bind; [apply Inv_host|]. intros host.
    eapply returns_root_bind; [apply Inv_ForSEScope|]. intros r. apply returns_root_finish.
  - eapply returns_root_bind; [apply Inv_ICHECK|]. intros _.
    eapply returns_root_bind; [apply Inv_Free|]. intros free_domain.
    eapply returns_root_bind; [apply Inv_host|]. intros host. apply returns_root_finish.
  - eapply returns_root_bind; [apply Inv_ICHECK|]. intros _.
    destruct (args call); [by intros ?????|].
    eapply returns_root_bind; [apply Inv_Free|]. intros a.
    eapply returns_root_bind; [apply Inv_host|]. intros host. apply returns_root_finish.
  - eapply returns_root_bind; [apply Inv_ICHECK|]. intros _.
    destruct (args call); [by intros ?????|].
    eapply returns_root_bind; [apply Inv_Free|]. intros free_domain.
    eapply returns_root_bind; [apply Inv_Free|]. intros a. apply returns_root_finish.
  - eapply returns_root_bind; [apply Inv_ICHECK|]. intros _.
    eapply returns_root_bind; [apply Inv_Free|]. intros free_domain.
    eapply returns_root_bind; [apply Inv_host|]. intros host. apply returns_root_finish.
  - eapply (returns_root_bind Inv Inv); [|intros free_domain; apply returns_root_finish].
    intros s a s' HI Hm%lift_Ok. by destruct (MakeFirstOrderDomain_post _ _ _ _ HI Hm).
  - destruct (checked_type (op call)) as [arg_types ret_type|]; [|by intros ?????].
    eapply returns_root_bind; [apply Inv_ICHECK|]. intros _.
    eapply returns_root_bind; [apply Inv_Free|]. intros result_domain.
    eapply (returns_root_bind Inv Inv); [|intros params; apply returns_root_finish].
    intros s params s' HI Hm. by eapply constructor_params_step.
Qed.

Lemma DomainFor_call_cache expr s (d : nat) s' :
  DomainFor expr s = Ok (d, s') → call_to_callee_domain_ s' = call_to_callee_domain_ s.
Proof.
  unfold DomainFor. destruct (expr_to_domain_ s !! expr_id expr) as [c|].
  - intros HLk. by destruct (keeps_Lookup _ _ _ _ HLk) as (_ & _ & ?).
  - pose proof (frame_MakeDomain (checked_type expr) scope_FullyUnconstrained s) as (_ & _ & Hc).
    unfold Free. destruct (MakeDomain _ _ s) as [p s1]. by intros [= _ <-].
Qed.

(** X14. Asking [DomainForCallee] again for the same call, in the state the
    first call left, returns the same domain and changes nothing. *)
Theorem DomainForCallee_stable fuel call s (d : nat) s' :
  Inv s → DomainForCallee config_ fuel call s = Ok (d, s') →
  DomainForCallee config_ fuel call s' = Ok (d, s').
Proof.
  intros HI HD.
  destruct (call_to_callee_domain_ s !! call_id call) as [c|] eqn:Hc.
  { unfold DomainForCallee in *. rewrite Hc in HD.
    destruct (keeps_Lookup _ _ _ _ HD) as (_ & _ & ->). rewrite Hc. by eapply Lookup_again. }
  assert (call_to_callee_domain_ s' !! call_id call = Some d →
          domain_to_equiv_ s' !! d = None →
          DomainForCallee config_ fuel call s' = Ok (d, s')) as Hfin.
  { intros Hc' Hroot. unfold DomainForCallee. rewrite Hc'. by apply Lookup_root. }
  destruct (DomainForCallee_shape fuel call s d s' Hc HD) as [Hdev Hop].
  destruct (on_device_props call) as [on|] eqn:Hon.
  { apply Hfin.
    - destruct Hdev as (_ & _ & _ & _ & ?); [by left|done].
    - eapply (DomainForCallee_builds fuel call); [|done|done|done]. left. by rewrite Hon. }
  destruct (device_copy_props call) as [copy|] eqn:Hcopy.
  { apply Hfin.
    - destruct Hdev as (_ & _ & _ & _ & ?); [by right|done].
    - eapply (DomainForCallee_builds fuel call); [|done|done|done]. right; left.
      by rewrite Hcopy. }
  assert (kind (op call) = OtherNode ∨ kind (op call) ≠ OtherNode) as [Hk|Hk]
    by (destruct (kind (op call)); auto).
  - unfold DomainForCallee in *. rewrite Hc, Hon, Hcopy, Hk in HD.
    assert (call_to_callee_domain_ s' !! call_id call = None) as Hc'.
    { destruct (call_lowered_props call); by rewrite (DomainFor_call_cache _ _ _ _ HD). }
    rewrite Hc', Hon, Hcopy, Hk.
    destruct (call_lowered_props call); by eapply DomainFor_again.
  - apply Hfin.
    + by destruct (Hop eq_refl eq_refl Hk) as (_ & _ & _ & _ & ?).
    + eapply (DomainForCallee_builds fuel call); [|done|done|done]. by right; right.
Qed.

(** X15. For a [device_copy] call whose body is not of function type,
    [DomainForCallee] aborts when the canonical source or destination scope
    is fully unconstrained; otherwise it returns a domain with one parameter
    that resolves to the canonical source scope and a result that resolves
    to the canonical destination scope. *)
Theorem device_copy_signature fuel call s body src dst tag :
  Inv s → call_to_callee_domain_ s !! call_id call = None →
  on_device_props call = None → device_copy_props call = Some (body, src, dst) →
  checked_type body = OtherType tag →
  (scope_IsFullyUnconstrained (CanonicalSEScope config_ src) = true ∨
   scope_IsFullyUnconstrained (CanonicalSEScope config_ dst) = true →
   DomainForCallee config_ fuel call s = Fatal) ∧
  (scope_IsFullyUnconstrained (CanonicalSEScope config_ src) = false →
   scope_IsFullyUnconstrained (CanonicalSEScope config_ dst) = false →
   ∃ (d : nat) s' (a r : nat),
     DomainForCallee config_ fuel call s = Ok (d, s') ∧
     arena s' !! d = Some {| se_scope_ := scope_FullyUnconstrained;
                             args_and_result_ := [a; r] |} ∧
     resolved s' a (CanonicalSEScope config_ src) ∧
     resolved s' r (CanonicalSEScope config_ dst)).
Proof.
  intros HI Hc Hon Hcopy Hty. unfold DomainForCallee. rewrite Hc, Hon, Hcopy, Hty.
  split.
  - intros [Hu|Hu].
    + unfold bind at 1. unfold ForSEScope at 1. unfold bind. by rewrite Hu.
    + destruct (scope_IsFullyUnconstrained (CanonicalSEScope config_ src)) eqn:Hs.
      * unfold bind at 1. unfold ForSEScope at 1. unfold bind. by rewrite Hs.
      * unfold bind at 1. rewrite (ForSEScope_returns _ _ _ Hs).
        destruct (MakeDomain _ _ s) as [a s1].
        unfold bind at 1. unfold ForSEScope at 1. unfold bind. by rewrite Hu.
  - intros Hs Hd.
    pose proof (ForSEScope_returns (OtherType tag) src s Hs) as HF1.
    destruct (MakeDomain (OtherType tag) (CanonicalSEScope config_ src) s) as [a s1] eqn:Ha.
    destruct (ForSEScope_post _ _ _ _ _ HI HF1) as (HI1 & _ & Ht1 & Hpre1 & Hra).
    pose proof (ForSEScope_returns (OtherType tag) dst s1 Hd) as HF2.
    destruct (MakeDomain (OtherType tag) (CanonicalSEScope config_ dst) s1) as [r s2] eqn:Hr.
    destruct (ForSEScope_post _ _ _ _ _ HI1 HF2) as (HI2 & _ & Ht2 & Hpre2 & Hrr).
    destruct (finish_callee_post call [a; r] s2) as (s' & HF3 & Ha3 & Ht3 & _).
    { destruct (keeps_ForSEScope _ _ _ _ _ HF2) as (_ & _ & ->).
      destruct (keeps_ForSEScope _ _ _ _ _ HF1) as (_ & _ & ->). done. }
    exists (length (arena s2)), s', a, r.
    rewrite (bind_eq _ _ _ _ _ HF1), (bind_eq _ _ _ _ _ HF2).
    split_and!; [done| | |].
    + by rewrite Ha3, lookup_app_r, Nat.sub_diag.
    + apply (resolved_grow s2); [rewrite Ha3; by apply prefix_app_r|done|].
      apply (resolved_grow s1); [done|done|]. by eapply Hra.
    + apply (resolved_grow s2); [rewrite Ha3; by apply prefix_app_r|done|]. by eapply Hrr.
Qed.

(** X16. For an [on_device] call whose body is not of function type and whose
    canonical scope is not fully unconstrained, [DomainForCallee] returns a
    domain whose parameter resolves to that scope; when the annotation is
    fixed the result is the parameter domain itself, otherwise it is another
    domain, which resolves to a fully unconstrained scope. *)
Theorem on_device_signature fuel call s body sc is_fixed tag :
  Inv s → call_to_callee_domain_ s !! call_id call = None →
  on_device_props call = Some (body, sc, is_fixed) →
  checked_type body = OtherType tag →
  scope_IsFullyUnconstrained (CanonicalSEScope config_ sc) = false →
  ∃ (d : nat) s' (a r : nat),
    DomainForCallee config_ fuel call s = Ok (d, s') ∧
    arena s' !! d = Some {| se_scope_ := scope_FullyUnconstrained;
                            args_and_result_ := [a; r] |} ∧
    resolved s' a (CanonicalSEScope config_ sc) ∧
    (if is_fixed then r = a else free_resolved s' r ∧ r ≠ a).
Proof.
  intros HI Hc Hon Hty Hu. unfold DomainForCallee. rewrite Hc, Hon, Hty.
  pose proof (ForSEScope_returns (OtherType tag) sc s Hu) as HF1.
  destruct (MakeDomain (OtherType tag) (CanonicalSEScope config_ sc) s) as [a s1] eqn:Ha.
  destruct (ForSEScope_post _ _ _ _ _ HI HF1) as (HI1 & Hva & Ht1 & Hpre1 & Hra).
  pose proof (keeps_ForSEScope _ _ _ _ _ HF1) as (_ & _ & Hcc1).
  rewrite (bind_eq _ _ _ _ _ HF1).
  destruct is_fixed.
  - destruct (finish_callee_post call [a; a] s1) as (s' & HF3 & Ha3 & Ht3 & _);
      [by rewrite Hcc1|].
    exists (length (arena s1)), s', a, a. split_and!; [done| | |done].
    + by rewrite Ha3, lookup_app_r, Nat.sub_diag.
    + apply (resolved_grow s1); [rewrite Ha3; by apply prefix_app_r|done|]. by eapply Hra.
  - destruct (Free (OtherType tag) s1) as [r s2] eqn:HFr.
    destruct (Free_fresh _ _ _ _ HI1 HFr) as ((HI2 & He2 & Ht2 & Hv2) & Hp & Hnone & Hfree & Hfr).
    destruct (finish_callee_post call [a; r] s2) as (s' & HF3 & Ha3 & Ht3 & _).
    { destruct Hfr as (_ & _ & ->). by rewrite Hcc1. }
    exists (length (arena s2)), s', a, r.
    assert (lift (Free (OtherType tag)) s1 = Ok (r, s2)) as HFr' by by apply lift_Ok.
    rewrite (bind_eq _ _ _ _ _ HFr'). split_and!; [done| | | |unfold valid in Hva; lia].
    + by rewrite Ha3, lookup_app_r, Nat.sub_diag.
    + apply (resolved_grow s2); [rewrite Ha3; by apply prefix_app_r|done|].
      apply (resolved_grow s1); [apply He2|done|]. by eapply Hra.
    + simpl in Hfree. destruct Hfree as [Hrec _].
      apply (free_resolved_fresh config_ HL).
      * rewrite Ha3. by apply lookup_app_l_Some.
      * by rewrite Ht3.
Qed.

(** ** The host domain *)

Lemma host_domain_record s :
  reachable config_ s →
  arena s !! host_domain_ s =
    Some {| se_scope_ := host_se_scope config_; args_and_result_ := [] |}.
Proof.
  induction 1 as [|s sc Hs IH|s ty sc Hs IH|s parts Hs IH Hparts
                  |s p r s' Hs IH Hp HLk|s fuel lhs rhs res s' Hs IH Hl Hr HU].
  - unfold new_DeviceDomains.
    destruct (MakeFirstOrderDomain (host_se_scope config_) empty_domains) as [h s] eqn:Hm.
    by destruct (MakeFirstOrderDomain_spec _ _ _ _ Inv_empty Hm) as (_ & _ & _ & ? & _).
  - destruct (frame_MakeFirstOrderDomain sc s) as (-> & _).
    eapply prefix_lookup_Some; [done|apply MakeFirstOrderDomain_prefix].
  - destruct (frame_MakeDomain ty sc s) as (-> & _).
    eapply prefix_lookup_Some; [done|apply MakeDomain_prefix].
  - simpl. by apply lookup_app_l_Some.
  - destruct (keeps_Lookup _ _ _ _ HLk) as (-> & _). by rewrite (Lookup_arena _ _ _ _ HLk).
  - destruct (keeps_UnifyOrNull _ _ _ _ _ _ HU) as (-> & _).
    pose proof (reachable_Inv config_ HL s Hs) as HI.
    destruct (UnifyOrNull_spec config_ HL fuel _ _ _ _ _ HI Hl Hr HU) as (Hstep & _).
    eapply extends_lookup; [apply Hstep|done].
Qed.

(** X17. When the host scope is fully constrained, in every state reachable
    from the constructor by factory calls, [Lookup] and [UnifyOrNull] the
    host domain is a root and resolves to the host scope, and
    [MakeDomain] of a type that is not a function type at the host scope
    returns the host domain without changing the state. *)
Theorem host_domain_pinned s :
  reachable config_ s →
  scope_IsFullyConstrained (host_se_scope config_) = true →
  domain_to_equiv_ s !! host_domain_ s = None ∧
  resolved s (host_domain_ s) (host_se_scope config_) ∧
  ∀ tag, MakeDomain (OtherType tag) (host_se_scope config_) s = (host_domain_ s, s).
Proof.
  intros Hs Hfc.
  pose proof (reachable_Inv config_ HL s Hs) as HI.
  pose proof (host_domain_record s Hs) as Hrec.
  assert (domain_to_equiv_ s !! host_domain_ s = None) as Hroot.
  { by eapply (inv_constrained_root s HI _ _ Hrec). }
  split_and!; [done| |].
  - eexists _, _. split_and!; [by apply root_of_root|done|done|done].
  - intros tag. simpl. unfold MakeFirstOrderDomain. rewrite Hfc.
    pose proof (inv_interned_all s HI _ _ Hrec eq_refl Hfc) as Hint. simpl in Hint.
    by rewrite Hint.
Qed.

(** ** Queries *)

Lemma valid_parts s (p : nat) (d : domain) :
  Inv s → arena s !! p = Some d → Forall (valid s) (args_and_result_ d).
Proof.
  intros HI Hd. eapply Forall_impl; [exact (inv_parts s HI _ _ Hd)|].
  unfold valid. intros x ?. apply lookup_lt_Some in Hd. lia.
Qed.

Lemma leaf_of_same s s' (p l : nat) :
  arena s' = arena s →
  (∀ x rx, root_of (domain_to_equiv_ s) x rx ↔ root_of (domain_to_equiv_ s') x rx) →
  leaf_of s p l → leaf_of s' p l.
Proof.
  intros Ha Hroots. induction 1 as [p r d Hr Hd Hfo|p r d c l Hr Hd Hc Hl IH].
  - eapply leaf_here; [by apply Hroots|by rewrite Ha|done].
  - eapply leaf_part; [by apply Hroots|by rewrite Ha|done|done].
Qed.

Lemma leaf_of_root s (p r l : nat) :
  root_of (domain_to_equiv_ s) p r → leaf_of s r l → leaf_of s p l.
Proof.
  intros Hp Hl. pose proof (root_of_idem _ _ _ Hp) as Hrr.
  inversion Hl as [p0 r0 d Hr0 Hd0 Hfo0|p0 r0 d c l0 Hr0 Hd0 Hc Hl']; subst.
  - pose proof (root_of_det _ _ _ _ Hr0 Hrr) as Heq. subst. by eapply leaf_here.
  - pose proof (root_of_det _ _ _ _ Hr0 Hrr) as Heq. subst. by eapply leaf_part.
Qed.

Lemma leaf_of_first_order s (p r l : nat) (d : domain) :
  root_of (domain_to_equiv_ s) p r → arena s !! r = Some d → args_and_result_ d = [] →
  leaf_of s p l → l = r.
Proof.
  intros Hr Hd Hfo Hl.
  inversion Hl as [p0 r0 d0 Hr0 Hd0 Hfo0|p0 r0 d0 c l0 Hr0 Hd0 Hc Hl']; subst.
  - by eapply root_of_det.
  - pose proof (root_of_det _ _ _ _ Hr0 Hr) as Heq. subst.
    assert (d0 = d) as -> by congruence.
    rewrite Hfo in Hc. by apply elem_of_nil in Hc.
Qed.

Lemma leaf_of_higher_order s (p r l : nat) (d : domain) :
  root_of (domain_to_equiv_ s) p r → arena s !! r = Some d → args_and_result_ d ≠ [] →
  leaf_of s p l → ∃ c, c ∈ args_and_result_ d ∧ leaf_of s c l.
Proof.
  intros Hr Hd Hho Hl.
  inversion Hl as [p0 r0 d0 Hr0 Hd0 Hfo0|p0 r0 d0 c l0 Hr0 Hd0 Hc Hl']; subst.
  - pose proof (root_of_det _ _ _ _ Hr0 Hr) as Heq. subst. congruence.
  - pose proof (root_of_det _ _ _ _ Hr0 Hr) as Heq. subst.
    assert (d0 = d) as -> by congruence. by exists c.
Qed.

Lemma result_leaf_same s s' (p l : nat) :
  arena s' = arena s →
  (∀ x rx, root_of (domain_to_equiv_ s) x rx ↔ root_of (domain_to_equiv_ s') x rx) →
  result_leaf s p l → result_leaf s' p l.
Proof.
  intros Ha Hroots. induction 1 as [p r d Hr Hd Hfo|p r d c l Hr Hd Hc Hl IH].
  - eapply result_here; [by apply Hroots|by rewrite Ha|done].
  - eapply result_back; [by apply Hroots|by rewrite Ha|done|done].
Qed.

Lemma result_leaf_root s (p r l : nat) :
  root_of (domain_to_equiv_ s) p r → result_leaf s r l → result_leaf s p l.
Proof.
  intros Hp Hl. pose proof (root_of_idem _ _ _ Hp) as Hrr.
  inversion Hl as [p0 r0 d Hr0 Hd0 Hfo0|p0 r0 d c l0 Hr0 Hd0 Hc Hl']; subst.
  - pose proof (root_of_det _ _ _ _ Hr0 Hrr) as Heq. subst. by eapply result_here.
  - pose proof (root_of_det _ _ _ _ Hr0 Hrr) as Heq. subst. by eapply result_back.
Qed.

Lemma result_leaf_det s (p l l' : nat) : result_leaf s p l → result_leaf s p l' → l = l'.
Proof.
  intros Hl. revert l'. induction Hl as [p r d Hr Hd Hfo|p r d c l Hr Hd Hc Hl IH]; intros l' Hl';
    inversion Hl' as [p0 r0 d0 Hr0 Hd0 Hfo0|p0 r0 d0 c0 l0 Hr0 Hd0 Hc0 Hl0]; subst;
    pose proof (root_of_det _ _ _ _ Hr0 Hr) as Heq; subst;
    assert (d0 = d) as -> by congruence.
  - done.
  - rewrite Hfo in Hc0. done.
  - rewrite Hfo0 in Hc. done.
  - apply IH. congruence.
Qed.

Lemma result_leaf_is_leaf s (p l : nat) : result_leaf s p l → leaf_of s p l.
Proof.
  induction 1 as [p r d Hr Hd Hfo|p r d c l Hr Hd Hc Hl IH].
  - by eapply leaf_here.
  - eapply leaf_part; [done|done| |done]. apply last_Some in Hc as [l' ->].
    apply elem_of_app. right. by apply list_elem_of_singleton.
Qed.

Lemma ResultDomain_loop_spec fuel : ∀ (r : nat) s,
  Inv s → valid s r → domain_to_equiv_ s !! r = None → depth (arena s) r < fuel →
  ∃ (leaf : nat) s' (dl : domain),
    ResultDomain_loop fuel r s = Ok (leaf, s') ∧
    step_ok s s' ∧ arena s' = arena s ∧
    (∀ x rx, root_of (domain_to_equiv_ s') x rx ↔ root_of (domain_to_equiv_ s) x rx) ∧
    arena s !! leaf = Some dl ∧ args_and_result_ dl = [] ∧
    domain_to_equiv_ s' !! leaf = None ∧ leaf_of s r leaf ∧ result_leaf s r leaf.
Proof.
  induction fuel as [|fuel IH]; intros r s HI Hv Hroot Hd; [lia|].
  destruct (Inv_valid_lookup _ _ Hv) as [dr Hdr]. simpl.
  rewrite (bind_deref _ _ _ _ Hdr).
  destruct (last (args_and_result_ dr)) as [back|] eqn:Hlast.
  - assert (back ∈ args_and_result_ dr) as Hin.
    { apply last_Some in Hlast as [l' ->]. apply elem_of_app. right.
      by apply list_elem_of_singleton. }
    pose proof (depth_part _ _ _ _ (inv_parts s HI) Hdr Hin) as Hdb.
    assert (valid s back) as Hvb.
    { pose proof (valid_parts _ _ _ HI Hdr) as Hps. rewrite Forall_forall in Hps. auto. }
    destruct (inv_acyclic s HI back) as [rb Hrb].
    destruct (Lookup_root_of _ _ _ HI Hvb Hrb) as (s1 & HL1 & Hstep1 & Ha1 & Hn1 & _ & Hroots1).
    rewrite (bind_eq _ _ _ _ _ HL1).
    destruct (IH rb s1)
      as (leaf & s' & dl & HR & Hstep2 & Ha2 & Hroots2 & Hdl & Hfo & Hn & Hleaf & Hres).
    + apply Hstep1.
    + unfold valid. rewrite Ha1. by eapply root_of_valid.
    + done.
    + rewrite Ha1, <-(root_of_depth _ _ _ HI Hrb). lia.
    + exists leaf, s', dl. split_and!; try done.
      * by eapply step_ok_trans.
      * by rewrite Ha2.
      * intros x rx. by rewrite Hroots2.
      * by rewrite <-Ha1.
      * eapply leaf_part; [by apply root_of_root|done|done|].
        eapply leaf_of_root; [done|]. by eapply (leaf_of_same s1 s).
      * eapply result_back; [by apply root_of_root|done|done|].
        eapply result_leaf_root; [done|]. by eapply (result_leaf_same s1 s).
  - apply last_None in Hlast.
    exists r, s, dr. split_and!; [done|by apply step_ok_refl|done|done|done|done|done| |].
    + eapply leaf_here; [by apply root_of_root|done|done].
    + eapply result_here; [by apply root_of_root|done|done].
Qed.

Lemma ResultDomain_spec fuel (d : nat) s :
  Inv s → valid s d → depth (arena s) d < fuel →
  ∃ (leaf : nat) s' (dl : domain),
    ResultDomain fuel d s = Ok (leaf, s') ∧
    step_ok s s' ∧ arena s' = arena s ∧
    (∀ x rx, root_of (domain_to_equiv_ s') x rx ↔ root_of (domain_to_equiv_ s) x rx) ∧
    arena s !! leaf = Some dl ∧ args_and_result_ dl = [] ∧
    domain_to_equiv_ s' !! leaf = None ∧ leaf_of s d leaf ∧ result_leaf s d leaf.
Proof.
  intros HI Hv Hd. destruct (inv_acyclic s HI d) as [r Hr].
  destruct (Lookup_root_of _ _ _ HI Hv Hr) as (s1 & HL1 & Hstep1 & Ha1 & Hn1 & _ & Hroots1).
  destruct (ResultDomain_loop_spec fuel r s1)
    as (leaf & s' & dl & HR & Hstep2 & Ha2 & Hroots2 & Hdl & Hfo & Hn & Hleaf & Hres).
  - apply Hstep1.
  - unfold valid. rewrite Ha1. by eapply root_of_valid.
  - done.
  - rewrite Ha1, <-(root_of_depth _ _ _ HI Hr). lia.
  - exists leaf, s', dl. unfold ResultDomain. rewrite (bind_eq _ _ _ _ _ HL1).
    split_and!; [done|by eapply step_ok_trans|by rewrite Ha2| |by rewrite <-Ha1|done|done| |].
    + intros x rx. by rewrite Hroots2.
    + eapply leaf_of_root; [done|]. by eapply (leaf_of_same s1 s).
    + eapply result_leaf_root; [done|]. by eapply (result_leaf_same s1 s).
Qed.

(** X18. In a state that satisfies the invariant [ResultDomain] returns, with
    more fuel than the nesting depth of the domain, the innermost result
    leaf: a first-order root reached through the last parts.  The arena is
    unchanged and every domain keeps its root. *)
Theorem ResultDomain_leaf fuel (d : nat) s :
  Inv s → valid s d → depth (arena s) d < fuel →
  ∃ (leaf : nat) s' (dl : domain),
    ResultDomain fuel d s = Ok (leaf, s') ∧
    arena s' = arena s ∧
    (∀ x rx, root_of (domain_to_equiv_ s') x rx ↔ root_of (domain_to_equiv_ s) x rx) ∧
    arena s !! leaf = Some dl ∧ args_and_result_ dl = [] ∧
    domain_to_equiv_ s' !! leaf = None ∧ result_leaf s d leaf.
Proof.
  intros HI Hv Hd.
  destruct (ResultDomain_spec fuel d s HI Hv Hd)
    as (leaf & s' & dl & ? & _ & ? & ? & ? & ? & ? & _ & ?).
  by exists leaf, s', dl.
Qed.

Lemma leaves_constrained_same s s' (p : nat) :
  arena s' = arena s →
  (∀ x rx, root_of (domain_to_equiv_ s') x rx ↔ root_of (domain_to_equiv_ s) x rx) →
  leaves_constrained s p ↔ leaves_constrained s' p.
Proof.
  intros Ha Hroots. unfold leaves_constrained. split; intros Hall l dl Hl Hdl.
  - eapply (Hall l); [|by rewrite <-Ha]. by eapply (leaf_of_same s' s).
  - eapply (Hall l); [|by rewrite Ha]. eapply (leaf_of_same s s'); [done| |done].
    intros ??. by rewrite Hroots.
Qed.

Lemma leaves_constrained_first_order s (p r : nat) (d : domain) :
  root_of (domain_to_equiv_ s) p r → arena s !! r = Some d → args_and_result_ d = [] →
  leaves_constrained s p ↔ scope_IsFullyConstrained (se_scope_ d) = true.
Proof.
  intros Hr Hd Hfo. split.
  - intros Hall. apply (Hall r d); [by eapply leaf_here|done].
  - intros Hfc l dl Hl Hdl. rewrite (leaf_of_first_order _ _ _ _ _ Hr Hd Hfo Hl) in Hdl.
    congruence.
Qed.

Lemma leaves_constrained_higher_order s (p r : nat) (d : domain) :
  root_of (domain_to_equiv_ s) p r → arena s !! r = Some d → args_and_result_ d ≠ [] →
  leaves_constrained s p ↔ Forall (leaves_constrained s) (args_and_result_ d).
Proof.
  intros Hr Hd Hho. split.
  - intros Hall. apply Forall_forall. intros c Hc l dl Hl Hdl.
    apply (Hall l dl); [|done]. by eapply leaf_part.
  - intros Hall l dl Hl Hdl.
    destruct (leaf_of_higher_order _ _ _ _ _ Hr Hd Hho Hl) as (c & Hc & Hl').
    rewrite Forall_forall in Hall. by apply (Hall c Hc l dl).
Qed.

Lemma IsFullyConstrained_spec fuel : ∀ (p : nat) s,
  Inv s → valid s p → depth (arena s) p < fuel →
  ∃ b s', IsFullyConstrained fuel p s = Ok (b, s') ∧
    step_ok s s' ∧ arena s' = arena s ∧
    (∀ x rx, root_of (domain_to_equiv_ s') x rx ↔ root_of (domain_to_equiv_ s) x rx) ∧
    (b = true ↔ leaves_constrained s p).
Proof.
  induction fuel as [|fuel IH]; intros p s HI Hv Hd; [lia|].
  destruct (inv_acyclic s HI p) as [r Hr].
  destruct (Lookup_root_of _ _ _ HI Hv Hr) as (s1 & HL1 & Hstep1 & Ha1 & Hn1 & _ & Hroots1).
  pose proof (root_of_valid _ _ _ HI Hv Hr) as Hvr.
  destruct (Inv_valid_lookup _ _ Hvr) as [dr Hdr].
  assert (arena s1 !! r = Some dr) as Hdr1 by by rewrite Ha1.
  simpl. rewrite (bind_eq _ _ _ _ _ HL1), (bind_deref _ _ _ _ Hdr1).
  case_bool_decide as Hfo.
  - exists (scope_IsFullyConstrained (se_scope_ dr)), s1.
    split_and!; [done|done|done|done|].
    by rewrite (leaves_constrained_first_order _ _ _ _ Hr Hdr Hfo).
  - pose proof (leaves_constrained_higher_order _ _ _ _ Hr Hdr Hfo) as HHO.
    pose proof (valid_parts _ _ _ HI Hdr) as Hps.
    assert (Forall (λ c, depth (arena s) c < fuel) (args_and_result_ dr)) as Hds.
    { apply Forall_forall. intros c Hc.
      pose proof (depth_part _ _ _ _ (inv_parts s HI) Hdr Hc).
      rewrite <-(root_of_depth _ _ _ HI Hr) in *. lia. }
    clear Hdr Hdr1 Hfo Hvr Hd.
    assert (∀ parts s1, Inv s1 → arena s1 = arena s →
              (∀ x rx, root_of (domain_to_equiv_ s1) x rx ↔ root_of (domain_to_equiv_ s) x rx) →
              Forall (valid s) parts → Forall (λ c, depth (arena s) c < fuel) parts →
              ∃ b s', all_of (λ sub, IsFullyConstrained fuel sub) parts s1 = Ok (b, s') ∧
                step_ok s1 s' ∧ arena s' = arena s ∧
                (∀ x rx, root_of (domain_to_equiv_ s') x rx ↔ root_of (domain_to_equiv_ s) x rx) ∧
                (b = true ↔ Forall (leaves_constrained s) parts)) as Hloop.
    { clear dr Hps Hds s1 HL1 Hstep1 Ha1 Hn1 Hroots1 HHO.
      induction parts as [|c parts IHp]; intros s1 HI1 Ha1 Hroots1 Hps Hds.
      - exists true, s1. split_and!; [done|by apply step_ok_refl|done|done|]. by split.
      - apply Forall_cons in Hps as [Hc Hps]. apply Forall_cons in Hds as [Hdc Hds].
        destruct (IH c s1) as (b & s2 & HF & Hstep2 & Ha2 & Hroots2 & Hb);
          [done|by unfold valid; rewrite Ha1|by rewrite Ha1|].
        assert (leaves_constrained s1 c ↔ leaves_constrained s c) as Hsame.
        { symmetry. by apply leaves_constrained_same. }
        simpl. rewrite (bind_eq _ _ _ _ _ HF). destruct b.
        + destruct (IHp s2) as (b' & s3 & HA & Hstep3 & Ha3 & Hroots3 & Hb').
          * apply Hstep2.
          * by rewrite Ha2.
          * intros x rx. by rewrite Hroots2.
          * done.
          * done.
          * exists b', s3. split_and!; [done|by eapply step_ok_trans|done|done|].
            rewrite Forall_cons. rewrite Hb'. split; [|by intros [_ ?]].
            intros Hall. split; [|done]. by apply Hsame, Hb.
        + exists false, s2. split_and!; [done|done|by rewrite Ha2| |].
          * intros x rx. by rewrite Hroots2.
          * split; [done|]. intros [Hc' _]%Forall_cons. by apply Hsame, Hb in Hc'. }
    destruct (Hloop (args_and_result_ dr) s1) as (b & s' & HA & Hstep2 & Ha2 & Hroots2 & Hb);
      [apply Hstep1|done|done|done|done|].
    exists b, s'. split_and!; [done|by eapply step_ok_trans|done|done|by rewrite HHO].
Qed.

(** X19. In a state that satisfies the invariant [IsFullyConstrained] returns
    true exactly when every first-order leaf of the domain has a fully
    constrained scope.  The arena is unchanged and every domain keeps its
    root. *)
Theorem IsFullyConstrained_leaves fuel (p : nat) s :
  Inv s → valid s p → depth (arena s) p < fuel →
  ∃ b s', IsFullyConstrained fuel p s = Ok (b, s') ∧
    arena s' = arena s ∧
    (∀ x rx, root_of (domain_to_equiv_ s') x rx ↔ root_of (domain_to_equiv_ s) x rx) ∧
    (b = true ↔ leaves_constrained s p).
Proof.
  intros HI Hv Hd.
  destruct (IsFullyConstrained_spec fuel p s HI Hv Hd) as (b & s' & ? & _ & ? & ? & ?).
  by exists b, s'.
Qed.

(** ** The factory and the result leaf *)

Lemma result_leaf_grow s s' (p l : nat) :
  arena s `prefix_of` arena s' → domain_to_equiv_ s' = domain_to_equiv_ s →
  result_leaf s p l → result_leaf s' p l.
Proof.
  intros Hpre Ht. induction 1 as [p r d Hr Hd Hfo|p r d c l Hr Hd Hc Hl IH].
  - eapply result_here; [by rewrite Ht|by eapply prefix_lookup_Some|done].
  - eapply result_back; [by rewrite Ht|by eapply prefix_lookup_Some|done|done].
Qed.

Lemma MakeDomain_result_leaf type : ∀ sc s (p : nat) s',
  Inv s → MakeDomain type sc s = (p, s') →
  ∃ (leaf : nat),
    result_leaf s' p leaf ∧
    arena s' !! leaf = Some {| se_scope_ := sc; args_and_result_ := [] |}.
Proof.
  induction type as [tag|arg_types ret_type _ IHret] using Ty_induction; intros sc s p s' HI Hm.
  - simpl in Hm.
    destruct (MakeFirstOrderDomain_spec _ _ _ _ HI Hm) as (HI' & _ & Ht & Hp & Hfresh).
    exists p. split; [|done]. eapply result_here; [|done|done].
    apply root_of_root.
    destruct (scope_IsFullyConstrained sc) eqn:Hfc.
    + by eapply (inv_constrained_root s' HI' p).
    + destruct (Hfresh eq_refl) as (-> & _). rewrite Ht.
      destruct (domain_to_equiv_ s !! length (arena s)) as [v|] eqn:Hk; [|done].
      destruct (inv_entries s HI _ _ Hk) as (? & _). lia.
  - rewrite MakeDomain_FuncType in Hm.
    destruct (MakeDomain_args arg_types s) as [ds s1] eqn:Hargs.
    destruct (MakeDomain ret_type sc s1) as [r s2] eqn:Hret.
    assert (Inv s1) as HI1.
    { eapply (MakeDomain_args_post arg_types); [|exact HI|exact Hargs].
      apply Forall_forall. intros ty _. apply (MakeDomain_post config_ HL). }
    destruct (IHret sc s1 r s2 HI1 Hret) as (leaf & Hleaf & Hrec).
    destruct (MakeDomain_post config_ HL _ _ _ _ _ HI1 Hret) as (HI2 & _ & _ & _).
    unfold MakeHigherOrderDomain, alloc in Hm. injection Hm as <- <-. simpl.
    exists leaf. split; [|by apply lookup_app_l_Some].
    eapply (result_back _ (length (arena s2)) (length (arena s2))
              {| se_scope_ := scope_FullyUnconstrained; args_and_result_ := ds ++ [r] |} r).
    + apply root_of_root. simpl.
      destruct (domain_to_equiv_ s2 !! length (arena s2)) as [v|] eqn:Hk; [|done].
      destruct (inv_entries s2 HI2 _ _ Hk) as (? & _). lia.
    + simpl. by rewrite lookup_app_r, Nat.sub_diag.
    + simpl. by rewrite last_snoc.
    + eapply (result_leaf_grow s2); [by apply prefix_app_r|done|done].
Qed.

(** X20. The scope given to [MakeDomain] is the scope of the innermost
    result leaf of the domain it returns: [ResultDomain] of that domain
    returns a first-order domain with that scope. *)
Theorem MakeDomain_result_scope fuel type sc s (p : nat) s' :
  Inv s → MakeDomain type sc s = (p, s') → depth (arena s') p < fuel →
  ∃ (leaf : nat) s'',
    ResultDomain fuel p s' = Ok (leaf, s'') ∧
    arena s' !! leaf = Some {| se_scope_ := sc; args_and_result_ := [] |}.
Proof.
  intros HI Hm Hd.
  destruct (MakeDomain_post config_ HL _ _ _ _ _ HI Hm) as (HI' & _ & _ & Hv).
  destruct (MakeDomain_result_leaf type sc s p s' HI Hm) as (leaf & Hleaf & Hrec).
  destruct (ResultDomain_spec fuel p s' HI' Hv Hd)
    as (leaf' & s'' & dl & HR & _ & _ & _ & _ & _ & _ & _ & Hres).
  rewrite (result_leaf_det _ _ _ _ Hres Hleaf) in HR. by exists leaf, s''.
Qed.

(** ** Defaulting *)

Lemma default_step_refl s : Inv s → default_step s s.
Proof.
  intros HI. split_and!; [by apply step_ok_refl|by apply new_keys_below_none|done].
Qed.

Lemma default_step_trans s1 s2 s3 :
  default_step s1 s2 → default_step s2 s3 → default_step s1 s3.
Proof.
  intros (Hs1 & Hn1 & Hc1) (Hs2 & Hn2 & Hc2). split_and!.
  - by eapply step_ok_trans.
  - eapply new_keys_below_trans; [apply Hs1|apply Hs2|done|done].
  - intros z Hz. by apply Hc2, Hc1.
Qed.

Lemma default_step_Lookup (p r : nat) s s' :
  Inv s → valid s p → Lookup p s = Ok (r, s') → default_step s s'.
Proof.
  intros HI Hv HLk.
  destruct (Lookup_step _ _ _ _ HI Hv HLk) as (Hstep & Ha & Hdom & _ & _ & _ & Hroots).
  split_and!; [done|by apply new_keys_below_none|].
  intros z (sc & Hz & Hfc). exists sc. split; [|done]. by eapply resolved_lookup.
Qed.

Lemma SetDefault_first_order fuel (x : nat) R s a :
  DefaultCompletes config_ → Inv s → valid s x → resolved s x a →
  scope_IsFullyConstrained R = true →
  ∃ s', SetDefault config_ (S fuel) x R s = Ok (tt, s') ∧ default_step s s' ∧
        resolved s' x (CanonicalSEScope config_ (scope_Default a R)).
Proof.
  intros HD HI Hx (rx & drx & Hrx & Hdrx & Hfo & <-) Hfc.
  pose proof (constrained_not_unconstrained _ HL _ Hfc) as HfuR.
  pose proof (default_fully_constrained _ HD (se_scope_ drx) R Hfc) as Hfcc.
  pose proof (default_joins _ HD (se_scope_ drx) R Hfc) as Hjoins.
  remember (CanonicalSEScope config_ (scope_Default (se_scope_ drx) R)) as c eqn:Hc.
  pose proof (constrained_not_unconstrained _ HL _ Hfcc) as Hfuc.
  destruct (SetDefault_via_Unify config_ fuel x R s rx drx)
    as (s1 & f & s2 & HL1 & HI1 & Ha1 & Hi1 & Hm & Hstep2 & Hdom2 & Hdrx2 & Hf2 & Hrxn & Hfn
        & Hroots2 & ->); try done.
  rewrite <-Hc in Hm, Hf2.
  pose proof (so_inv _ _ Hstep2) as HI2.
  assert (valid s2 rx) as Hvrx by (by eapply lookup_lt_Some).
  assert (valid s2 f) as Hvf by (by eapply lookup_lt_Some).
  destruct (Unify_first_order config_ HL fuel rx f s2 rx f drx
              {| se_scope_ := c; args_and_result_ := [] |})
    as (res & s' & HU & Hstep3 & Hcase); try done; try (by apply root_of_root).
  assert ((if decide (rx = f) then Some (se_scope_ drx)
           else first_order_join config_ (se_scope_ drx) c) = Some c) as Hjoin.
  { destruct (decide (rx = f)) as [->|Hne].
    - assert (drx = {| se_scope_ := c; args_and_result_ := [] |}) as Heq by congruence.
      by rewrite Heq.
    - unfold first_order_join. simpl. rewrite Hfuc.
      destruct (scope_IsFullyUnconstrained (se_scope_ drx)) eqn:Hfua; [done|].
      destruct (Hjoins eq_refl) as [j0 Hj0].
      rewrite Hj0. simpl. by rewrite (join_constrained_r _ HL _ _ _ Hfcc Hj0). }
  simpl in Hcase. rewrite Hjoin in Hcase. destruct Hcase as (j & -> & Hj & Hjn & Hroots3).
  destruct (UnifyOrNull_spec config_ HL (S fuel) _ _ _ _ _ HI2 Hvrx Hvf HU) as (_ & Hnew3 & _).
  rewrite (depth_first_order _ _ _ Hdrx2 Hfo) in Hnew3.
  exists s'. split_and!.
  - unfold bind. by rewrite HU.
  - split_and!.
    + by eapply step_ok_trans.
    + eapply new_keys_below_trans; [exact HI2|apply Hstep3| |exact Hnew3].
      by apply new_keys_below_none.
    + intros z (sc & (rz & dz & Hrz & Hdz & Hfoz & Hsc) & Hfcz).
      apply Hroots2 in Hrz. apply Hroots3 in Hrz.
      destruct (decide (rz = rx ∨ rz = f)) as [Hin|Hout].
      * exists c. split; [|done].
        by exists j, {| se_scope_ := c; args_and_result_ := [] |}.
      * exists sc. split; [|done]. exists rz, dz. split_and!; [done| |done|done].
        eapply extends_lookup; [eapply step_ok_trans; [exact Hstep2|exact Hstep3]|done].
  - exists j, {| se_scope_ := c; args_and_result_ := [] |}.
    split_and!; [|done|done|done].
    apply Hroots2 in Hrx. apply Hroots3 in Hrx. by rewrite decide_True in Hrx by auto.
Qed.

Lemma depth_zero_first_order s (p : nat) (d : domain) :
  Inv s → arena s !! p = Some d → depth (arena s) p = 0 → args_and_result_ d = [].
Proof.
  intros HI Hd Hz. destruct (args_and_result_ d) as [|c l] eqn:Ha; [done|].
  rewrite (depth_higher_order _ _ _ (inv_parts s HI) Hd) in Hz; [done|]. by rewrite Ha.
Qed.

Lemma higher_order_root_stays s s' (p r : nat) (d : domain) :
  step_ok s s' → new_keys_below s s' 1 → Inv s →
  root_of (domain_to_equiv_ s) p r → arena s !! r = Some d → args_and_result_ d ≠ [] →
  root_of (domain_to_equiv_ s') p r.
Proof.
  intros Hstep Hnew HI Hr Hd Hho. apply (so_stable _ _ Hstep); [done|].
  destruct (domain_to_equiv_ s' !! r) as [v|] eqn:Hk; [|done].
  pose proof (Hnew r (root_of_end _ _ _ Hr) (mk_is_Some _ _ Hk)) as Hlt.
  rewrite (extends_depth _ _ _ (so_ext _ _ Hstep)) in Hlt by by eapply lookup_lt_Some.
  rewrite (depth_higher_order _ _ _ (inv_parts s HI) Hd Hho) in Hlt. lia.
Qed.

Lemma leaves_constrained_step s s' (p : nat) :
  default_step s s' → Inv s → valid s p →
  leaves_constrained s p → leaves_constrained s' p.
Proof.
  intros (Hstep & Hnew & Hcons) HI Hv Hall l dl Hl Hdl.
  pose proof (so_inv _ _ Hstep) as HI'. pose proof (so_ext _ _ Hstep) as He.
  revert Hv Hall dl Hdl.
  induction Hl as [p r d Hr Hd Hfo|p r d c l Hr Hd Hc Hl IH]; intros Hv Hall dl Hdl.
  - assert (dl = d) as -> by congruence.
    destruct (inv_acyclic s HI p) as [rp Hrp].
    pose proof (root_of_valid _ _ _ HI Hv Hrp) as Hvrp.
    destruct (Inv_valid_lookup _ _ Hvrp) as [drp Hdrp].
    assert (depth (arena s) rp = 0) as Hz.
    { rewrite <-(root_of_depth _ _ _ HI Hrp), <-(extends_depth _ _ _ He Hv).
      rewrite (root_of_depth _ _ _ HI' Hr). by eapply depth_first_order. }
    pose proof (depth_zero_first_order _ _ _ HI Hdrp Hz) as Hfop.
    destruct (Hcons p) as (sc & (r' & d' & Hr' & Hd' & _ & <-) & Hfc).
    { exists (se_scope_ drp). split; [by exists rp, drp|].
      apply (Hall rp drp); [by eapply leaf_here|done]. }
    rewrite (root_of_det _ _ _ _ Hr' Hr) in Hd'. congruence.
  - assert (args_and_result_ d ≠ []) as Hho by (intros Hnil; rewrite Hnil in Hc; by apply elem_of_nil in Hc).
    destruct (inv_acyclic s HI p) as [rp Hrp].
    pose proof (root_of_valid _ _ _ HI Hv Hrp) as Hvrp.
    destruct (Inv_valid_lookup _ _ Hvrp) as [drp Hdrp].
    assert (args_and_result_ drp ≠ []) as Hhop.
    { intros Hnil.
      pose proof (depth_first_order _ _ _ Hdrp Hnil) as Hz.
      rewrite <-(root_of_depth _ _ _ HI Hrp), <-(extends_depth _ _ _ He Hv) in Hz.
      rewrite (root_of_depth _ _ _ HI' Hr) in Hz.
      rewrite (depth_higher_order _ _ _ (inv_parts s' HI') Hd Hho) in Hz. lia. }
    pose proof (higher_order_root_stays _ _ _ _ _ Hstep Hnew HI Hrp Hdrp Hhop) as Hrp'.
    pose proof (root_of_det _ _ _ _ Hrp' Hr) as ->.
    assert (drp = d) as ->.
    { pose proof (extends_lookup _ _ _ _ He Hdrp). congruence. }
    apply IH; [|intros l0 dl0 Hl0 Hdl0|done].
    + pose proof (valid_parts _ _ _ HI Hdrp) as Hps. rewrite Forall_forall in Hps. auto.
    + apply (Hall l0 dl0); [|done]. by eapply leaf_part.
Qed.

Lemma SetDefault_spec fuel R :
  DefaultCompletes config_ → scope_IsFullyConstrained R = true →
  ∀ (d : nat) s, Inv s → valid s d → depth (arena s) d < fuel →
    ∃ s', SetDefault config_ fuel d R s = Ok (tt, s') ∧ default_step s s' ∧
          leaves_constrained s' d.
Proof.
  intros HD Hfc. pose proof (constrained_not_unconstrained _ HL _ Hfc) as HfuR.
  induction fuel as [|fuel IH]; intros d s HI Hv Hd; [lia|].
  destruct (inv_acyclic s HI d) as [r Hr].
  pose proof (root_of_valid _ _ _ HI Hv Hr) as Hvr.
  destruct (Inv_valid_lookup _ _ Hvr) as [dr Hdr].
  destruct (decide (args_and_result_ dr = [])) as [Hfo|Hho].
  - destruct (SetDefault_first_order fuel d R s (se_scope_ dr) HD HI Hv)
      as (s' & HS & Hstep & Hres); [by exists r, dr|done|].
    exists s'. split_and!; [done|done|].
    destruct Hres as (r' & d' & Hr' & Hd' & Hfo' & Hsc).
    apply (leaves_constrained_first_order _ _ _ _ Hr' Hd' Hfo'). rewrite Hsc.
    by apply (default_fully_constrained _ HD).
  - destruct (Lookup_root_of _ _ _ HI Hv Hr) as (s1 & HL1 & Hstep1 & Ha1 & Hn1 & _ & Hroots1).
    pose proof (default_step_Lookup _ _ _ _ HI Hv HL1) as Hds1.
    pose proof (so_inv _ _ Hstep1) as HI1.
    assert (arena s1 !! r = Some dr) as Hdr1 by by rewrite Ha1.
    rewrite SetDefault_S. rewrite bind_ICHECK by by rewrite HfuR.
    rewrite (bind_eq _ _ _ _ _ HL1), (bind_deref _ _ _ _ Hdr1).
    rewrite bool_decide_eq_false_2 by done.
    assert (∀ parts s1, Inv s1 → Forall (valid s1) parts →
              Forall (λ c, depth (arena s1) c < fuel) parts →
              ∃ s', for_each (λ sub, SetDefault config_ fuel sub R) parts s1 = Ok (tt, s') ∧
                default_step s1 s' ∧ Forall (leaves_constrained s') parts) as Hloop.
    { clear dependent s1. clear dependent dr. clear dependent s.
      induction parts as [|c parts IHp]; intros s1 HI1 Hps Hds.
      - exists s1. split_and!; [done|by apply default_step_refl|done].
      - apply Forall_cons in Hps as [Hc Hps]. apply Forall_cons in Hds as [Hdc Hds].
        destruct (IH c s1 HI1 Hc Hdc) as (s2 & HS & Hstep2 & Hleaves).
        pose proof (so_inv _ _ (proj1 Hstep2)) as HI2.
        pose proof (so_ext _ _ (proj1 Hstep2)) as He2.
        destruct (IHp s2) as (s3 & HF & Hstep3 & Hrest).
        + done.
        + eapply Forall_impl; [exact Hps|]. intros x. by apply extends_valid.
        + rewrite Forall_forall in Hds, Hps. apply Forall_forall. intros x Hx.
          rewrite (extends_depth _ _ _ He2); auto.
        + exists s3. rewrite for_each_cons, (bind_eq _ _ _ _ _ HS).
          split_and!; [done|by eapply default_step_trans|].
          constructor; [|done].
          eapply leaves_constrained_step; [done|done| |done]. by eapply extends_valid. }
    destruct (Hloop (args_and_result_ dr) s1) as (s' & HF & Hstep2 & Hparts).
    + done.
    + by eapply valid_parts.
    + apply Forall_forall. intros c Hc.
      pose proof (depth_part _ _ _ _ (inv_parts s1 HI1) Hdr1 Hc) as Hlt.
      rewrite Ha1 in *. rewrite <-(root_of_depth _ _ _ HI Hr) in Hlt. lia.
    + exists s'. split_and!; [done|by eapply default_step_trans|].
      destruct Hstep2 as (Hstep2 & Hnew2 & _).
      assert (root_of (domain_to_equiv_ s') d r) as Hr'.
      { eapply higher_order_root_stays; [done|done|done| |done|done]. by apply Hroots1. }
      apply (leaves_constrained_higher_order _ _ _ _ Hr'
               (extends_lookup _ _ _ _ (so_ext _ _ Hstep2) Hdr1) Hho).
      done.
Qed.

(** X21. [SetDefault] with a fully constrained fallback returns, for a domain
    of any shape, and leaves every first-order leaf of the domain with a
    fully constrained scope, so that [IsFullyConstrained] is true afterwards;
    domains that resolved to a fully constrained scope still do. *)
Theorem SetDefault_fully_constrains fuel (d : nat) R s :
  DefaultCompletes config_ → scope_IsFullyConstrained R = true →
  Inv s → valid s d → depth (arena s) d < fuel →
  ∃ s', SetDefault config_ fuel d R s = Ok (tt, s') ∧
    Inv s' ∧ arena s `prefix_of` arena s' ∧
    leaves_constrained s' d ∧
    (∀ z, constrained_resolved s z → constrained_resolved s' z) ∧
    ∃ s'', IsFullyConstrained fuel d s' = Ok (true, s'').
Proof.
  intros HD Hfc HI Hv Hd.
  destruct (SetDefault_spec fuel R HD Hfc d s HI Hv Hd) as (s' & HS & (Hstep & _ & Hcons) & Hl).
  pose proof (so_inv _ _ Hstep) as HI'. pose proof (so_ext _ _ Hstep) as He.
  exists s'. split_and!; [done|done|apply He|done|done|].
  destruct (IsFullyConstrained_spec fuel d s') as (b & s'' & HF & _ & _ & _ & Hb).
  - done.
  - by eapply extends_valid.
  - by rewrite (extends_depth _ _ _ He).
  - exists s''. by rewrite HF, (proj2 Hb Hl).
Qed.

Lemma result_leaf_step s s' (p l : nat) :
  default_step s s' → Inv s → valid s p → result_leaf s p l →
  ∃ l', result_leaf s' p l' ∧ root_of (domain_to_equiv_ s') l l'.
Proof.
  intros (Hstep & Hnew & _) HI Hv Hl.
  pose proof (so_inv _ _ Hstep) as HI'. pose proof (so_ext _ _ Hstep) as He.
  revert Hv. induction Hl as [p r d Hr Hd Hfo|p r d back l Hr Hd Hlast Hl IH]; intros Hv.
  - destruct (inv_acyclic s' HI' p) as [r' Hr'].
    pose proof (extends_valid _ _ _ He Hv) as Hv'.
    pose proof (root_of_valid _ _ _ HI' Hv' Hr') as Hvr'.
    destruct (Inv_valid_lookup _ _ Hvr') as [d' Hd'].
    assert (depth (arena s') r' = 0) as Hz.
    { rewrite <-(root_of_depth _ _ _ HI' Hr'), (extends_depth _ _ _ He Hv).
      rewrite (root_of_depth _ _ _ HI Hr). by eapply depth_first_order. }
    exists r'. split.
    + eapply result_here; [done|done|]. by eapply depth_zero_first_order.
    + eapply same_class_root_of; [|exact Hr']. apply (so_class _ _ Hstep).
      apply same_class_sym. by apply same_class_root.
  - assert (args_and_result_ d ≠ []) as Hho by (intros Hnil; by rewrite Hnil in Hlast).
    pose proof (higher_order_root_stays _ _ _ _ _ Hstep Hnew HI Hr Hd Hho) as Hr'.
    destruct IH as (l' & Hl' & Hll').
    { pose proof (valid_parts _ _ _ HI Hd) as Hps. rewrite Forall_forall in Hps.
      apply Hps. apply last_Some in Hlast as [ps ->]. apply elem_of_app. right.
      by apply list_elem_of_singleton. }
    exists l'. split; [|done].
    eapply result_back; [done|by eapply extends_lookup|done|done].
Qed.

Lemma SetResultDefaultThenParams_spec_any fuel (d : nat) R s :
  DefaultCompletes config_ → scope_IsFullyConstrained R = true →
  Inv s → valid s d → depth (arena s) d < fuel →
  ∃ s', SetResultDefaultThenParams config_ fuel d R s = Ok (tt, s') ∧
    step_ok s s' ∧ leaves_constrained s' d.
Proof.
  intros HD Hfc HI Hv Hd. destruct (Inv_valid_lookup _ _ Hv) as [dd Hdd].
  unfold SetResultDefaultThenParams. rewrite (bind_deref _ _ _ _ Hdd).
  case_bool_decide as Hfo.
  { destruct (SetDefault_spec fuel R HD Hfc d s HI Hv Hd) as (s' & HS & (Hstep & _) & Hl).
    by exists s'. }
  destruct (ResultDomain_spec fuel d s HI Hv Hd)
    as (leaf & s1 & dl & HR1 & Hstep1 & Ha1 & Hroots1 & Hdl & Hfol & Hn1 & _ & Hres1).
  pose proof (so_inv _ _ Hstep1) as HI1.
  assert (valid s1 leaf) as Hvl by (unfold valid; rewrite Ha1; by eapply lookup_lt_Some).
  assert (depth (arena s1) leaf < fuel) as Hdleaf.
  { rewrite Ha1, (depth_first_order _ _ _ Hdl Hfol). lia. }
  destruct (SetDefault_spec fuel R HD Hfc leaf s1 HI1 Hvl Hdleaf) as (s2 & HS2 & Hstep2 & Hl2).
  pose proof (so_inv _ _ (proj1 Hstep2)) as HI2.
  pose proof (so_ext _ _ (proj1 Hstep2)) as He2.
  assert (valid s1 d) as Hv1 by (unfold valid; by rewrite Ha1).
  assert (valid s2 d) as Hv2 by by eapply extends_valid.
  assert (depth (arena s2) d < fuel) as Hd2.
  { by rewrite (extends_depth _ _ _ He2), Ha1. }
  destruct (ResultDomain_spec fuel d s2 HI2 Hv2 Hd2)
    as (leaf2 & s3 & dl2 & HR3 & Hstep3 & Ha3 & Hroots3 & Hdl2 & Hfol2 & Hn3 & _ & Hres3).
  pose proof (so_inv _ _ Hstep3) as HI3.
  assert (scope_IsFullyConstrained (se_scope_ dl2) = true) as Hfc2.
  { destruct (result_leaf_step s1 s2 d leaf Hstep2 HI1 Hv1) as (l' & Hl' & Hll').
    { eapply (result_leaf_same s s1); [done| |done]. intros ??. by rewrite Hroots1. }
    pose proof (result_leaf_det _ _ _ _ Hl' Hres3) as ->.
    apply (Hl2 leaf2 dl2); [|done]. by eapply leaf_here. }
  assert (ResultSEScope fuel d s2 = Ok (se_scope_ dl2, s3)) as HRS.
  { unfold ResultSEScope. rewrite (bind_eq _ _ _ _ _ HR3).
    assert (arena s3 !! leaf2 = Some dl2) as Hdl3 by by rewrite Ha3.
    rewrite (bind_deref _ _ _ _ Hdl3). by rewrite bind_ICHECK by by apply bool_decide_eq_true. }
  destruct (SetDefault_spec fuel (se_scope_ dl2) HD Hfc2 d s3 HI3) as (s4 & HS4 & Hstep4 & Hl4).
  { unfold valid. by rewrite Ha3. }
  { by rewrite Ha3. }
  exists s4. rewrite (bind_eq _ _ _ _ _ HR1), (bind_eq _ _ _ _ _ HS2), (bind_eq _ _ _ _ _ HRS).
  split_and!; [done| |done].
  eapply step_ok_trans; [exact Hstep1|]. eapply step_ok_trans; [apply Hstep2|].
  eapply step_ok_trans; [exact Hstep3|apply Hstep4].
Qed.

(** X22. [SetResultDefaultThenParams] with a fully constrained fallback
    returns, for a domain of any shape, and leaves every first-order leaf
    of the domain with a fully constrained scope, so that
    [IsFullyConstrained] is true afterwards. *)
Theorem SetResultDefaultThenParams_fully_constrains fuel (d : nat) R s :
  DefaultCompletes config_ → scope_IsFullyConstrained R = true →
  Inv s → valid s d → depth (arena s) d < fuel →
  ∃ s', SetResultDefaultThenParams config_ fuel d R s = Ok (tt, s') ∧
    Inv s' ∧ leaves_constrained s' d ∧
    ∃ s'', IsFullyConstrained fuel d s' = Ok (true, s'').
Proof.
  intros HD Hfc HI Hv Hd.
  destruct (SetResultDefaultThenParams_spec_any fuel d R s HD Hfc HI Hv Hd)
    as (s' & HS & Hstep & Hl).
  pose proof (so_inv _ _ Hstep) as HI'. pose proof (so_ext _ _ Hstep) as He.
  exists s'. split_and!; [done|done|done|].
  destruct (IsFullyConstrained_spec fuel d s') as (b & s'' & HF & _ & _ & _ & Hb).
  - done.
  - by eapply extends_valid.
  - by rewrite (extends_depth _ _ _ He).
  - exists s''. by rewrite HF, (proj2 Hb Hl).
Qed.

(** X23. [SetDefault] on a domain that resolves to a fully constrained
    canonical scope aborts when the fallback is fully unconstrained, and
    otherwise returns without changing the scope any domain resolves to. *)
Theorem SetDefault_keeps_constrained fuel (x : nat) default_se_scope s R :
  DefaultLaws → Inv s → valid s x → resolved s x R →
  scope_IsFullyConstrained R = true → CanonicalSEScope config_ R = R →
  (scope_IsFullyUnconstrained default_se_scope = true →
   SetDefault config_ (S fuel) x default_se_scope s = Fatal) ∧
  (scope_IsFullyUnconstrained default_se_scope = false →
   ∃ s', SetDefault config_ (S fuel) x default_se_scope s = Ok (tt, s') ∧
     ∀ y sc, resolved s y sc → resolved s' y sc).
Proof.
  intros HD HI Hx Hres Hfc Hcanon. split.
  - intros Hu. rewrite SetDefault_S. unfold bind. by rewrite Hu.
  - intros Hu.
    destruct (SetDefault_constrained config_ HL fuel x default_se_scope s R)
      as (s' & ? & _ & _ & ?); try done.
    by exists s'.
Qed.

(** X24. [SetDefault] on a domain that resolves to a fully unconstrained scope,
    with a fully constrained canonical fallback, returns; the domain
    resolves to the fallback afterwards, and every domain that resolved to a
    scope that is not fully unconstrained still resolves to it. *)
Theorem SetDefault_fills_unconstrained fuel (x : nat) R s scp :
  DefaultLaws → Inv s → valid s x → resolved s x scp →
  scope_IsFullyUnconstrained scp = true →
  scope_IsFullyConstrained R = true → CanonicalSEScope config_ R = R →
  ∃ s', SetDefault config_ (S fuel) x R s = Ok (tt, s') ∧
    resolved s' x R ∧
    (∀ y sc, resolved s y sc → scope_IsFullyUnconstrained sc = false → resolved s' y sc).
Proof.
  intros HD HI Hx Hres Hfu Hfc Hcanon.
  destruct (SetDefault_unconstrained config_ HL fuel x R s scp)
    as (s' & ? & _ & _ & ? & ?); try done.
  by exists s'.
Qed.

(** ** Unification of higher-order domains *)

Lemma join_parts_classes (unify : nat → nat → Mon (option nat)) ls :
  Unify_spec unify →
  ∀ rs s js s', Inv s → Forall (valid s) ls → Forall (valid s) rs →
    length ls = length rs →
    join_parts unify ls rs s = Ok (Some js, s') →
    step_ok s s' ∧
    Forall2 (same_class (domain_to_equiv_ s')) ls js ∧
    Forall2 (same_class (domain_to_equiv_ s')) rs js.
Proof.
  intros HU. induction ls as [|l ls IH]; intros [|r rs] s js s' HI Hls Hrs Hlen; simpl;
    try done.
  - intros [[= <-] <-]%ret_Ok. split_and!; [by apply step_ok_refl|constructor|constructor].
  - apply Forall_cons in Hls as [Hl Hls]. apply Forall_cons in Hrs as [Hr Hrs].
    intros (u & s1 & Hu & Hk)%bind_Ok.
    destruct (HU _ _ _ _ _ HI Hl Hr Hu) as (Hstep1 & _ & Hres1).
    destruct u as [j|]; [|by inversion Hk].
    apply bind_Ok in Hk as (rest & s2 & Hrest & [Heq <-]%ret_Ok).
    destruct rest as [js'|]; [|done]. injection Heq as <-.
    destruct (Hres1 j eq_refl) as (_ & _ & Hlj & Hrj & _).
    pose proof (so_ext _ _ Hstep1) as He1.
    destruct (IH rs s1 js' s2) as (Hstep2 & Hl2 & Hr2).
    + apply Hstep1.
    + eapply Forall_impl; [exact Hls|]. intros x. by apply extends_valid.
    + eapply Forall_impl; [exact Hrs|]. intros x. by apply extends_valid.
    + simpl in Hlen. lia.
    + done.
    + split_and!; [by eapply step_ok_trans| |].
      * constructor; [|done]. apply (so_class _ _ Hstep2). by apply same_class_root.
      * constructor; [|done]. apply (so_class _ _ Hstep2). by apply same_class_root.
Qed.

(** X25. A successful [UnifyOrNull] of two domains with distinct higher-order
    roots: the roots have the same number of parts, corresponding parts are
    in the same class afterwards, and the joined domain has parts in the
    classes of those parts. *)
Theorem Unify_higher_order_parts fuel (x y l' r' j : nat) s (dl dr : domain) s' :
  Inv s → valid s x → valid s y →
  root_of (domain_to_equiv_ s) x l' → root_of (domain_to_equiv_ s) y r' → l' ≠ r' →
  arena s !! l' = Some dl → arena s !! r' = Some dr → args_and_result_ dl ≠ [] →
  UnifyOrNull config_ (S fuel) x y s = Ok (Some j, s') →
  length (args_and_result_ dl) = length (args_and_result_ dr) ∧
  Forall2 (same_class (domain_to_equiv_ s')) (args_and_result_ dl) (args_and_result_ dr) ∧
  ∃ dj : domain, arena s' !! j = Some dj ∧
    Forall2 (same_class (domain_to_equiv_ s')) (args_and_result_ dl) (args_and_result_ dj).
Proof.
  intros HI Hl Hr Hxl Hyr Hne Hdl Hdr Hho HU. simpl in HU. unfold UnifyOrNull_body in HU.
  apply bind_Ok in HU as (l0 & s1 & HL1 & Hk).
  apply bind_Ok in Hk as (r0 & s2 & HL2 & Hk).
  apply bind_Ok in Hk as (jr & s3 & Hj & Hk).
  destruct (Lookup_step _ _ _ _ HI Hl HL1) as (Hstep1 & Ha1 & Hdom1 & Hroot1 & Hvl' & Hl'n & Hroots1).
  pose proof (root_of_det _ _ _ _ Hroot1 Hxl) as ->.
  pose proof (so_inv _ _ Hstep1) as HI1.
  assert (valid s1 y) as Hr1 by (unfold valid; by rewrite Ha1).
  destruct (Lookup_step _ _ _ _ HI1 Hr1 HL2) as (Hstep2 & Ha2 & Hdom2 & Hroot2 & Hvr' & Hr'n & Hroots2).
  assert (r0 = r') as ->.
  { eapply root_of_det; [exact Hroot2|]. by apply Hroots1. }
  pose proof (so_inv _ _ Hstep2) as HI2.
  assert (domain_to_equiv_ s2 !! l' = None) as Hl'n2.
  { apply not_elem_of_dom. rewrite Hdom2. by apply not_elem_of_dom. }
  assert (valid s2 l') as Hvl2 by (unfold valid in *; by rewrite Ha2, Ha1).
  assert (valid s2 r') as Hvr2 by (unfold valid in *; by rewrite Ha2).
  assert (arena s2 !! l' = Some dl) as Hdl2 by by rewrite Ha2, Ha1.
  assert (arena s2 !! r' = Some dr) as Hdr2 by by rewrite Ha2, Ha1.
  destruct (JoinOrNull_spec config_ HL fuel _ _ _ _ _ HI2 Hvl2 Hvr2 Hl'n2 Hr'n Hj)
    as (Hstep3 & Hnew3 & Hres3).
  pose proof (so_inv _ _ Hstep3) as HI3. pose proof (so_ext _ _ Hstep3) as He3.
  destruct jr as [j0|]; [|by inversion Hk].
  apply bind_Ok in Hk as (u1 & s4 & Hlink1 & Hk).
  apply bind_Ok in Hk as (u2 & s5 & Hlink2 & Hk).
  apply ret_Ok in Hk as [[= ->] <-].
  destruct (Hres3 j eq_refl) as (Hvj & Hjn & Hdj & Hdrl & Hfcl & Hfcr & Hid).
  assert (domain_to_equiv_ s3 !! l' = None) as Hl'n3.
  { destruct (domain_to_equiv_ s3 !! l') as [v|] eqn:Hv; [|done].
    assert (depth (arena s3) l' < depth (arena s2) l') as Hlt by (apply Hnew3; [done|by eexists]).
    rewrite (extends_depth s2 s3) in Hlt by done. lia. }
  assert (domain_to_equiv_ s3 !! r' = None) as Hr'n3.
  { destruct (domain_to_equiv_ s3 !! r') as [v|] eqn:Hv; [|done].
    assert (depth (arena s3) r' < depth (arena s2) l') as Hlt by (apply Hnew3; [done|by eexists]).
    rewrite (extends_depth s2 s3) in Hlt by done. lia. }
  assert (valid s3 l') as Hvl3 by (by eapply extends_valid).
  assert (valid s3 r') as Hvr3 by (by eapply extends_valid).
  destruct (link_step s3 l' j u1 s4) as (Hstep4 & Ha4 & Hnew4 & Hjn4 & Hroots4 & Hother4 & _);
    try done.
  { rewrite Hdj. by apply extends_depth. }
  { intros d Hd. rewrite (extends_lookup s2 s3 l' dl He3 Hdl2) in Hd. injection Hd as <-.
    by apply Hfcl. }
  pose proof (so_inv _ _ Hstep4) as HI4.
  assert (domain_to_equiv_ s4 !! r' = None) as Hr'n4 by by rewrite Hother4.
  destruct (link_step s4 r' j u2 s5) as (Hstep5 & Ha5 & Hnew5 & Hjn5 & Hroots5 & Hother5 & _);
    try done.
  { unfold valid. by rewrite Ha4. }
  { unfold valid. by rewrite Ha4. }
  { rewrite Ha4, Hdj, <-Hdrl. by apply extends_depth. }
  { rewrite Ha4. intros d Hd. rewrite (extends_lookup s2 s3 r' dr He3 Hdr2) in Hd.
    injection Hd as <-. by apply Hfcr. }
  (* the join itself *)
  unfold JoinOrNull, JoinOrNull_body in Hj. rewrite decide_False in Hj by done.
  rewrite (bind_deref _ _ _ _ Hdl2), (bind_deref _ _ _ _ Hdr2) in Hj.
  apply bind_Ok in Hj as (u & s2' & [Hlen ->]%ICHECK_Ok & Hj).
  apply bool_decide_eq_true in Hlen.
  rewrite bool_decide_eq_false_2 in Hj by done.
  apply bind_Ok in Hj as (parts & s3' & Hparts & Hj).
  destruct parts as [js|]; [|by inversion Hj].
  apply bind_Ok in Hj as (d0 & s3'' & Hmk%lift_Ok & [[= ->] ->]%ret_Ok).
  unfold MakeHigherOrderDomain, alloc in Hmk. injection Hmk as <- <-.
  destruct (join_parts_classes (UnifyOrNull config_ fuel) (args_and_result_ dl)
              (UnifyOrNull_spec config_ HL fuel) (args_and_result_ dr) s2 js s3')
    as (Hstep3' & Hcl & Hcr); [done|by eapply valid_parts|by eapply valid_parts|done|done|].
  assert (∀ a b, same_class (domain_to_equiv_ s3') a b → same_class (domain_to_equiv_ s5) a b)
    as Hmono.
  { intros a b Hab. apply (so_class _ _ Hstep5), (so_class _ _ Hstep4). exact Hab. }
  split_and!; [done| |].
  - clear -Hcl Hcr Hmono.
    revert Hcr. generalize (args_and_result_ dr).
    induction Hcl as [|l j ls js Hlj Hcl IH]; intros rs Hcr; inversion Hcr; subst; constructor.
    + apply Hmono. eapply same_class_trans; [done|]. by apply same_class_sym.
    + by apply IH.
  - exists {| se_scope_ := scope_FullyUnconstrained; args_and_result_ := js |}. split.
    + rewrite Ha5, Ha4. simpl. by rewrite lookup_app_r, Nat.sub_diag.
    + simpl. eapply Forall2_impl; [exact Hcl|]. intros a b. apply Hmono.
Qed.



(** ** Unification through the expression cache *)


Lemma collapse_params_classes fuel params (fo : nat) : ∀ s s',
  Inv s → valid s fo → Forall (valid s) params →
  collapse_params config_ fuel params fo s = Ok (true, s') →
  Forall (λ p, same_class (domain_to_equiv_ s') p fo) params.
Proof.
  induction params as [|p params IH]; intros s s' HI Hfo Hps; simpl; [done|].
  apply Forall_cons in Hps as [Hp Hps].
  intros (u & s1 & HU & Hk)%bind_Ok.
  destruct (UnifyOrNull_spec config_ HL fuel _ _ _ _ _ HI Hp Hfo HU) as (Hstep & _ & Hres).
  destruct u as [j|]; [|by inversion Hk].
  destruct (Hres j eq_refl) as (_ & _ & Hpj & Hfj & _).
  assert (valid s1 fo) as Hfo1 by (eapply extends_valid; [apply Hstep|done]).
  assert (Forall (valid s1) params) as Hps1.
  { eapply Forall_impl; [exact Hps|]. intros x. apply extends_valid, Hstep. }
  constructor; [|by eapply IH; [apply Hstep|..]].
  apply (so_class _ _ (collapse_params_step _ _ _ _ _ _ (so_inv _ _ Hstep) Hfo1 Hps1 Hk)).
  by exists j.
Qed.

Lemma UnifyCollapsedOrFalse_classes fuel (fo p : nat) s s' (dp : domain) :
  Inv s → arena s !! p = Some dp →
  UnifyCollapsedOrFalse config_ fuel fo p s = Ok (true, s') →
  if is_higher_order dp
  then Forall (λ c, same_class (domain_to_equiv_ s') c fo) (args_and_result_ dp)
  else same_class (domain_to_equiv_ s') p fo.
Proof.
  intros HI Hdp HC. unfold UnifyCollapsedOrFalse in HC.
  apply bind_Ok in HC as (dl & s1 & [Hdl ->]%deref_Ok & HC).
  rewrite (bind_deref _ _ _ _ Hdp) in HC.
  apply bind_Ok in HC as (u & s1 & [_ ->]%ICHECK_Ok & HC).
  assert (valid s fo) as Hfo by by eapply lookup_lt_Some.
  assert (valid s p) as Hp by by eapply lookup_lt_Some.
  destruct (is_higher_order dp) eqn:Hho.
  - unfold CollapseOrFalse in HC.
    rewrite (bind_deref _ _ _ _ Hdl), (bind_deref _ _ _ _ Hdp) in HC.
    apply bind_Ok in HC as (u1 & s1 & [_ ->]%ICHECK_Ok & HC).
    apply bind_Ok in HC as (u2 & s1 & [_ ->]%ICHECK_Ok & HC).
    apply bind_Ok in HC as (ok & s1 & Hparams & HC).
    destruct ok; [|by inversion HC].
    destruct (function_result dp) as [res|] eqn:Hres; [|done].
    apply bind_Ok in HC as (u3 & s2 & HU & [Hu <-]%ret_Ok).
    apply bool_decide_eq_true in Hu. destruct u3 as [j|]; [clear Hu|done].
    pose proof (valid_parts _ _ _ HI Hdp) as Hparts.
    unfold function_result in Hres. apply last_Some in Hres as [ps Hps].
    assert (function_params dp = ps) as Hfp.
    { unfold function_params. by rewrite Hps, removelast_last. }
    rewrite Hps in Hparts. rewrite Forall_app, Forall_singleton in Hparts.
    destruct Hparts as [Hvps Hvres]. rewrite Hfp in Hparams.
    pose proof (collapse_params_step _ _ _ _ _ _ HI Hfo Hvps Hparams) as Hstep1.
    pose proof (collapse_params_classes _ _ _ _ _ HI Hfo Hvps Hparams) as Hcls.
    assert (valid s1 res) as Hvres1 by (eapply extends_valid; [apply Hstep1|done]).
    assert (valid s1 fo) as Hfo1 by (eapply extends_valid; [apply Hstep1|done]).
    destruct (UnifyOrNull_spec config_ HL fuel res fo s1 _ _ (so_inv _ _ Hstep1) Hvres1 Hfo1 HU)
      as (Hstep2 & _ & Hres2).
    destruct (Hres2 j eq_refl) as (_ & _ & Hrj & Hfj & _).
    rewrite Hps, Forall_app, Forall_singleton. split.
    + eapply Forall_impl; [exact Hcls|]. intros c. apply (so_class _ _ Hstep2).
    + by exists j.
  - apply bind_Ok in HC as (u3 & s2 & HU & [Hu <-]%ret_Ok).
    apply bool_decide_eq_true in Hu. destruct u3 as [j|]; [clear Hu|done].
    destruct (UnifyOrNull_spec config_ HL fuel _ _ _ _ _ HI Hfo Hp HU) as (_ & _ & Hres2).
    destruct (Hres2 j eq_refl) as (_ & _ & Hfj & Hpj & _). by exists j.
Qed.

Lemma DomainFor_after expr s (a : nat) s1 s' :
  Inv s → caches_valid s → DomainFor expr s = Ok (a, s1) →
  step_ok s1 s' → solver_frame s1 s' →
  ∃ (j : nat) s2, DomainFor expr s' = Ok (j, s2) ∧ root_of (domain_to_equiv_ s') a j.
Proof.
  intros HI HC HD Hstep Hfr.
  destruct (DomainFor_post _ _ _ _ HI HC HD)
    as (Hstep1 & HC1 & Hv1 & _ & _ & _ & _ & c & Hc & Hca).
  pose proof (so_inv _ _ Hstep) as HI'.
  destruct (inv_acyclic s' HI' a) as [j Hj].
  assert (root_of (domain_to_equiv_ s') c j) as Hcj.
  { eapply same_class_root_of; [|exact Hj]. apply (so_class _ _ Hstep).
    by apply same_class_root. }
  destruct (DomainFor_cached_root expr s' c j) as (s2 & HD2 & _); [done| | |done|].
  - eapply caches_valid_frame; [done|apply Hstep|done].
  - destruct Hfr as (_ & -> & _). done.
  - by exists j, s2.
Qed.

(** X26. After [UnifyExprExact] of an expression and an expected domain has
    returned, [DomainFor] returns for the expression the root of the
    expected domain. *)
Theorem UnifyExprExact_domain_unifies fuel expr (expected : nat) s s' :
  Inv s → caches_valid s → valid s expected →
  UnifyExprExact_domain config_ fuel expr expected s = Ok (tt, s') →
  ∃ (j : nat) s1, DomainFor expr s' = Ok (j, s1) ∧
    root_of (domain_to_equiv_ s') expected j.
Proof.
  intros HI HC Hv HU. unfold UnifyExprExact_domain in HU.
  apply bind_Ok in HU as (a & s1 & HD & HU).
  apply bind_Ok in HU as (u & s2 & HU2 & [Hu ->]%ICHECK_Ok).
  apply bool_decide_eq_true in Hu. destruct u as [j0|]; [clear Hu|done].
  destruct (DomainFor_post _ _ _ _ HI HC HD) as (Hstep1 & HC1 & Hv1 & _).
  assert (valid s1 expected) as Hv' by (eapply extends_valid; [apply Hstep1|done]).
  destruct (UnifyOrNull_spec config_ HL fuel _ _ _ _ _ (so_inv _ _ Hstep1) Hv1 Hv' HU2)
    as (Hstep2 & _ & Hres).
  destruct (Hres j0 eq_refl) as (_ & _ & Haj & Hej & _).
  destruct (DomainFor_after expr s a s1 s2 HI HC HD Hstep2) as (j & s3 & HD3 & Hj).
  { by eapply keeps_UnifyOrNull. }
  exists j, s3. split; [done|]. by rewrite (root_of_det _ _ _ _ Hj Haj).
Qed.

(** X27. After [UnifyExprCollapsed] of an expression and an expected domain
    has returned, [DomainFor] returns for the expression one domain that is
    the root of every parameter and of the result of a higher-order expected
    domain, and the root of a first-order expected domain. *)
Theorem UnifyExprCollapsed_unifies fuel expr (expected : nat) s s' (dp : domain) :
  Inv s → caches_valid s → arena s !! expected = Some dp →
  UnifyExprCollapsed config_ fuel expr expected s = Ok (tt, s') →
  ∃ (j : nat) s1, DomainFor expr s' = Ok (j, s1) ∧
    if is_higher_order dp
    then Forall (λ c, root_of (domain_to_equiv_ s') c j) (args_and_result_ dp)
    else root_of (domain_to_equiv_ s') expected j.
Proof.
  intros HI HC Hdp HU. unfold UnifyExprCollapsed in HU.
  apply bind_Ok in HU as (a & s1 & HD & HU).
  apply bind_Ok in HU as (ok & s2 & HU2 & [-> ->]%ICHECK_Ok).
  destruct (DomainFor_post _ _ _ _ HI HC HD) as (Hstep1 & HC1 & Hv1 & _).
  pose proof (so_inv _ _ Hstep1) as HI1.
  assert (arena s1 !! expected = Some dp) as Hdp1.
  { eapply extends_lookup; [apply Hstep1|done]. }
  pose proof (UnifyCollapsedOrFalse_step _ _ _ _ _ _ HI1 HU2) as Hstep2.
  pose proof (UnifyCollapsedOrFalse_classes _ _ _ _ _ _ HI1 Hdp1 HU2) as Hcls.
  destruct (DomainFor_after expr s a s1 s2 HI HC HD Hstep2) as (j & s3 & HD3 & Hj).
  { by eapply keeps_UnifyCollapsedOrFalse. }
  exists j, s3. split; [done|]. destruct (is_higher_order dp).
  - eapply Forall_impl; [exact Hcls|]. intros c Hc. exact (same_class_root_of _ _ _ _ Hc Hj).
  - exact (same_class_root_of _ _ _ _ Hcls Hj).
Qed.

(** X28. [UnifyOrNull] of two domains of different classes that resolve to
    first-order scopes returns.  When the scopes do not join the result is
    none, the arena is unchanged and every domain resolves as before; when
    they join, both domains and the result resolve to the join, and domains
    of other classes resolve as before. *)
Theorem Unify_first_order_scopes fuel (x y : nat) s a b :
  Inv s → resolved s x a → resolved s y b →
  ¬ same_class (domain_to_equiv_ s) x y →
  ∃ res s', UnifyOrNull config_ (S fuel) x y s = Ok (res, s') ∧
    match first_order_join config_ a b with
    | None => res = None ∧ arena s' = arena s ∧
        ∀ z sc, resolved s' z sc ↔ resolved s z sc
    | Some c => ∃ j, res = Some j ∧
        resolved s' x c ∧ resolved s' y c ∧ resolved s' j c ∧
        ∀ z sc, resolved s z sc →
          ¬ same_class (domain_to_equiv_ s) z x → ¬ same_class (domain_to_equiv_ s) z y →
          resolved s' z sc
    end.
Proof.
  intros HI Hx Hy Hnc.
  pose proof (resolved_valid _ _ _ HI Hx) as Hvx.
  pose proof (resolved_valid _ _ _ HI Hy) as Hvy.
  destruct Hx as (l' & dl & Hrl & Hdl & Hal & <-).
  destruct Hy as (r' & dr & Hrr & Hdr & Har & <-).
  assert (l' ≠ r') as Hne by (intros ->; apply Hnc; by exists r').
  destruct (Unify_first_order config_ HL fuel x y s l' r' dl dr)
    as (res & s' & HU & Hstep & Hres); try done.
  exists res, s'. split; [done|]. rewrite decide_False in Hres by done.
  destruct (first_order_join config_ (se_scope_ dl) (se_scope_ dr)) as [c|].
  - destruct Hres as (j & -> & Hj & Hjroot & Hroots). exists j.
    assert (∀ z, root_of (domain_to_equiv_ s) z l' ∨ root_of (domain_to_equiv_ s) z r' →
                 resolved s' z c) as Hcls.
    { intros z Hz. exists j, {| se_scope_ := c; args_and_result_ := [] |}.
      split_and!; [|done|done|done].
      destruct Hz as [Hz|Hz]; specialize (Hroots _ _ Hz);
        rewrite decide_True in Hroots; auto. }
    split_and!; [done|by apply Hcls; left|by apply Hcls; right| |].
    + exists j, {| se_scope_ := c; args_and_result_ := [] |}.
      split_and!; [by apply root_of_root|done|done|done].
    + intros z sc (rz & dz & Hrz & Hdz & Haz & <-) Hzx Hzy.
      exists rz, dz. split_and!; [|by eapply extends_lookup; [apply Hstep|]|done|done].
      specialize (Hroots _ _ Hrz). rewrite decide_False in Hroots; [done|].
      intros [->| ->]; [apply Hzx|apply Hzy]; by eexists.
  - destruct Hres as (-> & Ha & Hroots). split_and!; [done|done|].
    intros z sc. split; apply resolved_lookup; done.
Qed.

(** X29. A [UnifyOrNull] that returns, with or without a result, keeps the
    invariant, only extends the arena and keeps together every two domains
    that had the same root; on success both arguments have the result as
    their root. *)
Theorem Unify_never_splits fuel (lhs rhs : nat) s res s' :
  Inv s → valid s lhs → valid s rhs →
  UnifyOrNull config_ fuel lhs rhs s = Ok (res, s') →
  Inv s' ∧ arena s `prefix_of` arena s' ∧
  (∀ x y, same_class (domain_to_equiv_ s) x y → same_class (domain_to_equiv_ s') x y) ∧
  (∀ j, res = Some j → root_of (domain_to_equiv_ s') lhs j ∧ root_of (domain_to_equiv_ s') rhs j).
Proof.
  intros HI Hl Hr HU.
  destruct (UnifyOrNull_spec config_ HL fuel _ _ _ _ _ HI Hl Hr HU) as (Hstep & _ & Hres).
  split_and!; [apply Hstep|apply Hstep|apply Hstep|].
  intros j ->. by destruct (Hres j eq_refl) as (_ & _ & ? & ? & _).
Qed.

(** X30. In every state reachable from the constructor by factory calls,
    [Lookup] and [UnifyOrNull] there is at most one first-order domain for
    each fully constrained scope, and it is a root. *)
Theorem fully_constrained_domain_unique s (p q : nat) (dp dq : domain) :
  reachable config_ s →
  arena s !! p = Some dp → arena s !! q = Some dq →
  args_and_result_ dp = [] → args_and_result_ dq = [] →
  scope_IsFullyConstrained (se_scope_ dp) = true →
  se_scope_ dp = se_scope_ dq →
  p = q ∧ domain_to_equiv_ s !! p = None.
Proof.
  intros Hr Hp Hq Hap Haq Hfc Heq.
  pose proof (reachable_Inv config_ HL s Hr) as HI.
  pose proof (inv_interned_all s HI p dp Hp Hap Hfc) as H1.
  assert (scope_IsFullyConstrained (se_scope_ dq) = true) as Hfc' by by rewrite <-Heq.
  pose proof (inv_interned_all s HI q dq Hq Haq Hfc') as H2.
  rewrite <-Heq in H2. split; [congruence|].
  by eapply inv_constrained_root.
Qed.

End Laws.

End Further.

(** * The concrete lattice: laws, witnesses and counterexamples *)

Lemma host_cpu_laws : ScopeLaws host_cpu_config.
Proof.
  split.
  - done.
  - intros [[?|] [?|] [?|] [?|]]; done.
  - intros [[a1|] [a2|] [a3|] [a4|]] [b1 b2 b3 b4] c Hfc; try done.
    unfold scope_Join, VScope_ops, VScope_join. simpl.
    destruct b1, b2, b3, b4; simpl; repeat case_decide; simpl; congruence.
  - intros [a1 a2 a3 a4] [[b1|] [b2|] [b3|] [b4|]] c Hfc; try done.
    unfold scope_Join, VScope_ops, VScope_join. simpl.
    destruct a1, a2, a3, a4; simpl; repeat case_decide; simpl; congruence.
Qed.

(** C1: counterexample.  Unifying the first-order domain 1 with the
    function domain 3, and the function domain 3 of arity one with the function
    domain 7 of arity two, is fatal; it does not return the sentinel. *)
Lemma shape_mismatch_not_sentinel :
  UnifyOrNull host_cpu_config 3 1 3 ex_fn2 = Fatal ∧
  JoinOrNull host_cpu_config 3 1 3 ex_fn2 = Fatal ∧
  UnifyOrNull host_cpu_config 3 3 7 ex_fn2 = Fatal ∧
  ¬ (∃ s', UnifyOrNull host_cpu_config 3 3 7 ex_fn2 = Ok (None, s')).
Proof.
  split_and!; [vm_compute; reflexivity..|].
  intros [s' Hs']. vm_compute in Hs'. discriminate Hs'.
Qed.

Lemma shape_mismatch_is_fatal_witness :
  JoinOrNull host_cpu_config 2 3 7 ex_fn2 = Fatal ∧
  UnifyOrNull host_cpu_config 3 3 7 ex_fn2 = Fatal.
Proof.
  eapply (shape_mismatch_is_fatal host_cpu_config 2 ex_fn2 3 7 3 ex_fn2 7 ex_fn2).
  - vm_compute; reflexivity.
  - vm_compute; reflexivity.
  - done.
  - vm_compute; reflexivity.
  - vm_compute; reflexivity.
  - simpl. lia.
Defined.

Lemma Lookup_idempotent_witness :
  ∃ s', Lookup 1 ex_chain = Ok (0, s') ∧
        Lookup 0 s' = Ok (0, s') ∧
        Lookup 1 s' = Ok (0, s') ∧
        (domain_to_equiv_ ex_chain !! 1 = None → 0 = 1 ∧ s' = ex_chain).
Proof.
  apply (Lookup_idempotent ex_chain 1 0).
  exists 2. apply chain_step with 2; [vm_compute; reflexivity|].
  apply chain_step with 0; [vm_compute; reflexivity|].
  apply chain_root. vm_compute; reflexivity.
Defined.

Lemma ex_fn_reachable : reachable host_cpu_config ex_fn.
Proof.
  apply (reachable_MakeDomain host_cpu_config ex_new (FuncType [int_type] int_type) gpu0).
  apply reachable_new.
Defined.

Lemma ex_unified_reachable : reachable host_cpu_config ex_unified.
Proof.
  apply (reachable_UnifyOrNull host_cpu_config ex_fn 2 1 0 (Some 0) ex_unified).
  - apply ex_fn_reachable.
  - unfold valid. vm_compute. lia.
  - unfold valid. vm_compute. lia.
  - vm_compute; reflexivity.
Defined.

Lemma equivalence_table_acyclic_witness :
  acyclic (domain_to_equiv_ ex_unified) ∧
  (∀ k, domain_to_equiv_ ex_unified !! k ≠ Some k) ∧
  (∀ d : nat, ∃ r s', Lookup d ex_unified = Ok (r, s') ∧ domain_to_equiv_ s' !! r = None).
Proof.
  apply (equivalence_table_acyclic host_cpu_config host_cpu_laws ex_unified).
  apply ex_unified_reachable.
Defined.

Lemma Unify_same_root_witness :
  ∃ s1 s2, Lookup 1 ex_unified = Ok (0, s1) ∧ Lookup 0 s1 = Ok (0, s2).
Proof.
  apply (Unify_same_root host_cpu_config host_cpu_laws 2 1 0 ex_fn 0 ex_unified).
  - apply (reachable_Inv host_cpu_config host_cpu_laws), ex_fn_reachable.
  - unfold valid. vm_compute. lia.
  - unfold valid. vm_compute. lia.
  - left. vm_compute; reflexivity.
Defined.




(** C3: counterexample.  For the type [fn(fn(int):int):int] the first part
    of the domain that [MakeDomain] returns is the domain 3, which is
    higher-order, not first-order. *)
Lemma function_parameter_is_higher_order :
  arena ex_second_order.2 !! ex_second_order.1 =
    Some {| se_scope_ := VScope_unconstrained; args_and_result_ := [3; 4] |} ∧
  arena ex_second_order.2 !! 3 =
    Some {| se_scope_ := VScope_unconstrained; args_and_result_ := [1; 2] |} ∧
  (is_higher_order <$> arena ex_second_order.2 !! 3) = Some true.
Proof. split_and!; vm_compute; reflexivity. Qed.

Lemma VScope_unconstrained_not_constrained :
  scope_IsFullyConstrained (scope_FullyUnconstrained (SEScope := VScope)) = false.
Proof. reflexivity. Qed.

Lemma MakeDomain_function_type_witness :
  ∃ ps r p s',
    MakeDomain (FuncType [int_type] int_type) gpu0 ex_new = (p, s') ∧
    arena s' !! p = Some {| se_scope_ := VScope_unconstrained;
                            args_and_result_ := ps ++ [r] |} ∧
    length (ps ++ [r]) = 2.
Proof.
  destruct (MakeDomain_function_type VScope_unconstrained_not_constrained
              [int_type] int_type gpu0 ex_new)
    as (ps & s1 & r & s2 & p & s' & _ & _ & Hm & Hp & Hlen & _).
  by exists ps, r, p, s'.
Defined.

Lemma ToString_first_order_witness :
  ToString 1 1 ex_any = Ok ("?1?device_type=1;", ex_any).
Proof.
  refine (proj2 (ToString_first_order 0 1 1 ex_any ex_any
                   {| se_scope_ := any_cpu; args_and_result_ := [] |} _ _ _) _ _);
    vm_compute; reflexivity.
Defined.

Lemma host_cpu_default_laws : DefaultLaws (SEScope := VScope).
Proof.
  split.
  - intros [[?|] [?|] [?|] [?|]] b Hfc; done.
  - intros a b Hfu. apply bool_decide_eq_true in Hfu. subst a. by destruct b.
Qed.

Lemma ex_fn_Inv : Inv ex_fn.
Proof. apply (reachable_Inv host_cpu_config host_cpu_laws), ex_fn_reachable. Qed.

Lemma SetResultDefaultThenParams_witness :
  ∃ s', SetResultDefaultThenParams host_cpu_config 2 3 cpu0 ex_fn = Ok (tt, s') ∧
        resolved s' 1 gpu0 ∧
        (cpu0 ≠ gpu0 → ¬ resolved s' 1 cpu0).
Proof.
  apply (proj2 (SetResultDefaultThenParams_spec host_cpu_config host_cpu_laws)
           0 3 1 2 cpu0 ex_fn
           {| se_scope_ := VScope_unconstrained; args_and_result_ := [1; 2] |}
           gpu0 VScope_unconstrained host_cpu_default_laws ex_fn_Inv).
  - vm_compute; reflexivity.
  - reflexivity.
  - vm_compute; reflexivity.
  - exists 1, {| se_scope_ := VScope_unconstrained; args_and_result_ := [] |}.
    split_and!; [|vm_compute; reflexivity|reflexivity|reflexivity].
    exists 0. apply chain_root. vm_compute; reflexivity.
  - reflexivity.
  - exists 2, {| se_scope_ := gpu0; args_and_result_ := [] |}.
    split_and!; [|vm_compute; reflexivity|reflexivity|reflexivity].
    exists 0. apply chain_root. vm_compute; reflexivity.
  - reflexivity.
  - reflexivity.
  - reflexivity.
Defined.

(** C10: the code at the failing inputs.  For a constructor with a field of type
    [fn(fn(int):int):int], or of the curried type [fn(int):fn(int):int], the
    collapse does not succeed: the parameter domain has a higher-order part,
    whose unification with the first-order result domain fails the shape
    check, and [DomainForCallee] is fatal. *)
Lemma nested_function_field_is_fatal :
  DomainForCallee host_cpu_config 5
    (ex_constructor_call [FuncType [FuncType [int_type] int_type] int_type]) ex_new = Fatal ∧
  DomainForCallee host_cpu_config 5
    (ex_constructor_call [FuncType [int_type] (FuncType [int_type] int_type)]) ex_new = Fatal.
Proof. split; vm_compute; reflexivity. Qed.

Lemma ex_new_Inv : Inv ex_new.
Proof. apply (reachable_Inv host_cpu_config host_cpu_laws), reachable_new. Qed.

Lemma constructor_collapse_succeeds_witness :
  ∃ (d : nat) s' dd,
    DomainForCallee host_cpu_config 1
      (ex_constructor_call [FuncType [int_type] int_type; int_type]) ex_new = Ok (d, s') ∧
    arena s' !! d = Some dd ∧ function_arity dd = 2.
Proof.
  apply (constructor_collapse_succeeds host_cpu_config host_cpu_laws 0
           (ex_constructor_call [FuncType [int_type] int_type; int_type]) ex_new
           [FuncType [int_type] int_type; int_type] 1 ex_new_Inv).
  - vm_compute; reflexivity.
  - reflexivity.
  - reflexivity.
  - reflexivity.
  - reflexivity.
  - reflexivity.
  - repeat constructor.
Defined.

Lemma join_field_lub x y z :
  join_field x y = Some z →
  field_le x z ∧ field_le y z ∧ ∀ u, field_le x u → field_le y u → field_le z u.
Proof.
  destruct x as [x|], y as [y|]; simpl; [case_decide; [|done] | | |];
    intros [= <-]; simpl; subst; by split_and!.
Qed.

Lemma VScope_le_refl a : VScope_le a a.
Proof. by destruct a as [[?|] [?|] [?|] [?|]]. Qed.

Lemma VScope_le_unconstrained a : VScope_le VScope_unconstrained a.
Proof. done. Qed.

Lemma host_cpu_join_lub : JoinIsLub host_cpu_config VScope_le.
Proof.
  split.
  - apply VScope_le_refl.
  - intros [a1 a2 a3 a4] [b1 b2 b3 b4] [c1 c2 c3 c4] (H1 & H2 & H3 & H4) (G1 & G2 & G3 & G4).
    simpl in *.
    split_and!; simpl;
      [destruct a1|destruct a2|destruct a3|destruct a4]; simpl in *; subst; done.
  - intros a b c. unfold first_order_join. simpl.
    case_bool_decide as Hb; [intros [= <-]; subst b|].
    { split_and!; [apply VScope_le_refl|done|done]. }
    case_bool_decide as Ha; [intros [= <-]; subst a|].
    { split_and!; [done|apply VScope_le_refl|done]. }
    unfold VScope_join.
    destruct (join_field (device_type a) (device_type b)) as [d|] eqn:H1; [|done].
    destruct (join_field (virtual_device_id a) (virtual_device_id b)) as [v|] eqn:H2; [|done].
    destruct (join_field (target a) (target b)) as [t|] eqn:H3; [|done].
    destruct (join_field (memory_scope a) (memory_scope b)) as [m|] eqn:H4; [|done].
    simpl. intros [= <-].
    apply join_field_lub in H1 as (? & ? & L1). apply join_field_lub in H2 as (? & ? & L2).
    apply join_field_lub in H3 as (? & ? & L3). apply join_field_lub in H4 as (? & ? & L4).
    split_and!; [by split_and!|by split_and!|].
    intros u (? & ? & ? & ?) (? & ? & ? & ?). split_and!; simpl; auto.
Qed.

Lemma ex_fn2_Inv : Inv ex_fn2.
Proof.
  apply (reachable_Inv host_cpu_config host_cpu_laws).
  apply (reachable_MakeDomain host_cpu_config ex_fn
           (FuncType [int_type; int_type] int_type) VScope_unconstrained).
  apply ex_fn_reachable.
Qed.

Lemma ex_fn2_free (p : nat) :
  p ∈ [4; 5; 6] → resolved ex_fn2 p VScope_unconstrained.
Proof.
  intros Hp. exists p, {| se_scope_ := VScope_unconstrained; args_and_result_ := [] |}.
  repeat (apply elem_of_cons in Hp as [->|Hp]);
    [..|by apply elem_of_nil in Hp];
    (split_and!; [exists 0; apply chain_root|..]; vm_compute; reflexivity).
Qed.

(** C4: counterexample.  Collapsing the host domain, at [cpu0], onto the
    function domain 7, whose parameters 4 and 5 and result 6 all resolve to
    the fully unconstrained scope before the call, succeeds, and afterwards
    the host domain resolves to [cpu0].  The join of the scopes at the
    positions is the fully unconstrained scope, by the lattice's own join
    and as a least upper bound, and [cpu0] is not it. *)
Lemma collapse_joins_own_scope :
  CollapseOrFalse host_cpu_config 2 0 7 ex_fn2 = Ok (true, ex_collapsed) ∧
  arena ex_fn2 !! 7 =
    Some {| se_scope_ := VScope_unconstrained; args_and_result_ := [4; 5; 6] |} ∧
  resolved ex_collapsed 0 cpu0 ∧
  Forall (λ p, resolved ex_fn2 p VScope_unconstrained) [4; 5; 6] ∧
  first_order_join host_cpu_config VScope_unconstrained VScope_unconstrained =
    Some VScope_unconstrained ∧
  is_lub VScope_le [VScope_unconstrained; VScope_unconstrained; VScope_unconstrained]
    VScope_unconstrained ∧
  cpu0 ≠ VScope_unconstrained ∧
  ¬ is_lub VScope_le [VScope_unconstrained; VScope_unconstrained; VScope_unconstrained] cpu0.
Proof.
  split_and!.
  - vm_compute; reflexivity.
  - vm_compute; reflexivity.
  - exists 0, {| se_scope_ := cpu0; args_and_result_ := [] |}.
    split_and!; [exists 0; apply chain_root|..]; vm_compute; reflexivity.
  - apply Forall_forall. apply ex_fn2_free.
  - vm_compute; reflexivity.
  - split; [by repeat constructor|]. intros u _. apply VScope_le_unconstrained.
  - discriminate.
  - intros [_ Hleast]. specialize (Hleast VScope_unconstrained).
    destruct Hleast as (Hdt & _); [by repeat constructor|]. simpl in Hdt. discriminate Hdt.
Qed.

Lemma Collapse_spec_witness :
  ((∀ s', CollapseOrFalse host_cpu_config 2 0 7 ex_fn2 = Ok (true, s') ↔
          unifies_with_each host_cpu_config 2 0 ([4; 5] ++ [6]) ex_fn2 s') ∧
   (∀ s', CollapseOrFalse host_cpu_config 2 0 7 ex_fn2 = Ok (false, s') ↔
          ∃ before p after s1,
            [4; 5] ++ [6] = before ++ p :: after ∧
            unifies_with_each host_cpu_config 2 0 before ex_fn2 s1 ∧
            UnifyOrNull host_cpu_config 2 p 0 s1 = Ok (None, s'))) ∧
  ∃ c, resolved ex_collapsed 0 c ∧
       Forall (λ p, resolved ex_collapsed p c) [4; 5; 6] ∧
       is_lub VScope_le
         [cpu0; VScope_unconstrained; VScope_unconstrained; VScope_unconstrained] c.
Proof.
  split.
  - apply (proj1 (Collapse_spec host_cpu_config host_cpu_laws) 2 0 7 ex_fn2
             {| se_scope_ := cpu0; args_and_result_ := [] |}
             {| se_scope_ := VScope_unconstrained; args_and_result_ := [4; 5; 6] |}
             [4; 5] 6).
    + vm_compute; reflexivity.
    + vm_compute; reflexivity.
    + reflexivity.
    + reflexivity.
  - apply (proj2 (Collapse_spec host_cpu_config host_cpu_laws) VScope_le 1 0 7 ex_fn2
             {| se_scope_ := cpu0; args_and_result_ := [] |}
             {| se_scope_ := VScope_unconstrained; args_and_result_ := [4; 5; 6] |}
             cpu0 [VScope_unconstrained; VScope_unconstrained; VScope_unconstrained]
             ex_collapsed host_cpu_join_lub ex_fn2_Inv).
    + vm_compute; reflexivity.
    + vm_compute; reflexivity.
    + reflexivity.
    + done.
    + exists 0, {| se_scope_ := cpu0; args_and_result_ := [] |}.
      split_and!; [exists 0; apply chain_root|..]; vm_compute; reflexivity.
    + repeat constructor; apply ex_fn2_free; set_solver.
    + vm_compute; reflexivity.
Defined.

(** ** The further properties on the example states *)

Lemma ex_new_caches_valid : caches_valid ex_new.
Proof. split; intros k d Hk; vm_compute in Hk; discriminate. Qed.

Lemma ex_fn_caches_valid : caches_valid ex_fn.
Proof. split; intros k d Hk; vm_compute in Hk; discriminate. Qed.

Lemma ex_exprs_Inv : Inv ex_exprs.
Proof. apply Inv_set_expr_to_domain, ex_fn_Inv. Qed.

Lemma ex_exprs_caches_valid : caches_valid ex_exprs.
Proof.
  split; intros k d Hk.
  - change (<[1 := 0]> (<[2 := 2]> (∅ : gmap nat nat)) !! k = Some d) in Hk.
    apply lookup_insert_Some in Hk as [[_ <-]|[_ Hk]]; [unfold valid; vm_compute; lia|].
    apply lookup_insert_Some in Hk as [[_ <-]|[_ Hk]]; [unfold valid; vm_compute; lia|].
    by rewrite lookup_empty in Hk.
  - vm_compute in Hk. discriminate.
Qed.

Lemma ex_twin_Inv : Inv ex_twin.
Proof.
  apply (reachable_Inv host_cpu_config host_cpu_laws).
  apply (reachable_MakeDomain host_cpu_config ex_fn), ex_fn_reachable.
Qed.

Lemma host_cpu_default_completes : DefaultCompletes host_cpu_config.
Proof.
  split.
  - intros [a1 a2 a3 a4] [b1 b2 b3 b4]. unfold scope_IsFullyConstrained. simpl.
    rewrite !andb_true_iff, !bool_decide_eq_true.
    intros [[[[? ->] [? ->]] [? ->]] [? ->]].
    destruct a1, a2, a3, a4; simpl; by eauto 10.
  - intros [a1 a2 a3 a4] [b1 b2 b3 b4]. unfold scope_IsFullyConstrained. simpl.
    rewrite !andb_true_iff, !bool_decide_eq_true.
    intros [[[[? ->] [? ->]] [? ->]] [? ->]] _.
    unfold VScope_join. simpl.
    destruct a1, a2, a3, a4; simpl; rewrite ?decide_True by done; by eauto.
Qed.

Lemma ex_root (t : gmap nat nat) (p : nat) : t !! p = None → root_of t p p.
Proof. apply root_of_root. Qed.

Lemma MakeFirstOrderDomain_interning_witness :
  0 = 0 ∧ ex_new = ex_new ∧
  fully_constrained_se_scope_to_domain_ ex_new !! cpu0 = Some 0.
Proof.
  assert (MakeFirstOrderDomain cpu0 ex_new = (0, ex_new)) as Hm by (vm_compute; reflexivity).
  exact (MakeFirstOrderDomain_interning cpu0 ex_new 0 0 ex_new ex_new Hm Hm).
Defined.

Lemma Lookup_path_compression_witness :
  ex_compressed = set_equiv (domain_to_equiv_ ex_compressed) ex_chain ∧
  dom (domain_to_equiv_ ex_compressed) = dom (domain_to_equiv_ ex_chain) ∧
  domain_to_equiv_ ex_compressed !! 0 = None ∧
  (1 ≠ 0 → domain_to_equiv_ ex_compressed !! 1 = Some 0) ∧
  (∀ x, domain_to_equiv_ ex_compressed !! x = domain_to_equiv_ ex_chain !! x ∨
        (is_Some (domain_to_equiv_ ex_chain !! x) ∧
         domain_to_equiv_ ex_compressed !! x = Some 0 ∧ x ≠ 0)) ∧
  (∀ x rx, root_of (domain_to_equiv_ ex_compressed) x rx
           ↔ root_of (domain_to_equiv_ ex_chain) x rx).
Proof.
  apply (Lookup_path_compression ex_chain 1 0 ex_compressed).
  vm_compute; reflexivity.
Defined.

Lemma Unify_same_class_witness :
  ∃ s', UnifyOrNull host_cpu_config 1 1 0 ex_unified = Ok (Some 0, s') ∧
        arena s' = arena ex_unified ∧
        dom (domain_to_equiv_ s') = dom (domain_to_equiv_ ex_unified) ∧
        (∀ z rz, root_of (domain_to_equiv_ s') z rz
                 ↔ root_of (domain_to_equiv_ ex_unified) z rz).
Proof.
  apply (Unify_same_class host_cpu_config 0 1 0 0 ex_unified).
  - exists 1. eapply chain_step; [vm_compute; reflexivity|].
    apply chain_root. vm_compute; reflexivity.
  - exists 0. apply chain_root. vm_compute; reflexivity.
Defined.

Lemma ex_resolved (s : DeviceDomains) (p : nat) (sc : VScope) :
  domain_to_equiv_ s !! p = None →
  arena s !! p = Some {| se_scope_ := sc; args_and_result_ := [] |} →
  resolved s p sc.
Proof.
  intros Hn Hp. exists p, {| se_scope_ := sc; args_and_result_ := [] |}.
  split_and!; [by apply root_of_root|done|done|done].
Defined.

Lemma ex_distinct_roots (t : gmap nat nat) (p q : nat) :
  t !! p = None → t !! q = None → p ≠ q → ¬ same_class t p q.
Proof.
  intros Hp Hq Hne (r & Hrp & Hrq).
  apply (root_of_root_inv _ _ _ Hp) in Hrp. apply (root_of_root_inv _ _ _ Hq) in Hrq.
  congruence.
Defined.

Lemma DomainForCallee_arity_witness :
  (is_Some (on_device_props ex_primitive_call) ∨
   (on_device_props ex_primitive_call = None ∧ is_Some (device_copy_props ex_primitive_call)) →
   ∃ dd : DeviceDomain, arena ex_primitive !! 2 = Some dd ∧ function_arity dd = 1 ∧
     is_higher_order dd = true ∧
     call_to_callee_domain_ ex_primitive !! call_id ex_primitive_call = Some 2) ∧
  (on_device_props ex_primitive_call = None → device_copy_props ex_primitive_call = None →
   kind (op ex_primitive_call) ≠ OtherNode →
   ∃ dd : DeviceDomain, arena ex_primitive !! 2 = Some dd ∧
     function_arity dd = length (args ex_primitive_call) ∧
     is_higher_order dd = true ∧
     call_to_callee_domain_ ex_primitive !! call_id ex_primitive_call = Some 2).
Proof.
  apply (DomainForCallee_arity host_cpu_config 1 ex_primitive_call ex_new 2 ex_primitive).
  - vm_compute; reflexivity.
  - vm_compute; reflexivity.
Defined.

Lemma ForSEScope_spec_witness :
  (scope_IsFullyUnconstrained (CanonicalSEScope host_cpu_config gpu0) = true →
   ForSEScope host_cpu_config int_type gpu0 ex_new = Fatal) ∧
  (scope_IsFullyUnconstrained (CanonicalSEScope host_cpu_config gpu0) = false →
   ForSEScope host_cpu_config int_type gpu0 ex_new =
     Ok (MakeDomain int_type (CanonicalSEScope host_cpu_config gpu0) ex_new)) ∧
  (∀ (p : nat) s', Inv ex_new → ForSEScope host_cpu_config int_type gpu0 ex_new = Ok (p, s') →
     Inv s' ∧ valid s' p ∧ domain_to_equiv_ s' = domain_to_equiv_ ex_new ∧
     arena ex_new `prefix_of` arena s' ∧
     (∀ tag, int_type = OtherType tag → resolved s' p (CanonicalSEScope host_cpu_config gpu0))).
Proof. apply (ForSEScope_spec host_cpu_config host_cpu_laws int_type gpu0 ex_new). Defined.

Lemma Unify_terminates_witness :
  UnifyOrNull host_cpu_config 2 3 7 ex_fn2 = Fatal ∨
  ∃ res s', UnifyOrNull host_cpu_config 2 3 7 ex_fn2 = Ok (res, s').
Proof.
  apply (Unify_terminates host_cpu_config host_cpu_laws 2 3 7 ex_fn2).
  - apply ex_fn2_Inv.
  - unfold valid. vm_compute. lia.
  - unfold valid. vm_compute. lia.
  - vm_compute. lia.
Defined.

Lemma DomainFor_uncached_witness :
  ∃ (d : nat) s', DomainFor ex_fn_expr ex_new = Ok (d, s') ∧
    free_shaped (arena s') (length (arena ex_new)) (checked_type ex_fn_expr) d ∧
    expr_to_domain_ s' = <[expr_id ex_fn_expr := d]> (expr_to_domain_ ex_new) ∧
    domain_to_equiv_ s' = domain_to_equiv_ ex_new ∧
    arena ex_new `prefix_of` arena s' ∧ Inv s'.
Proof.
  apply (DomainFor_uncached host_cpu_config host_cpu_laws ex_fn_expr ex_new).
  - apply ex_new_Inv.
  - vm_compute; reflexivity.
Defined.

Lemma DomainFor_stable_witness : DomainFor ex_fn_expr ex_cached = Ok (3, ex_cached).
Proof.
  apply (DomainFor_stable host_cpu_config host_cpu_laws ex_fn_expr ex_new 3 ex_cached).
  - apply ex_new_Inv.
  - vm_compute; reflexivity.
Defined.

Lemma UnifyExprExact_same_domain_witness :
  ∃ (j : nat) s1 s2,
    DomainFor (ex_expr 1 int_type) ex_exprs_unified = Ok (j, s1) ∧
    DomainFor (ex_expr 2 int_type) s1 = Ok (j, s2).
Proof.
  apply (UnifyExprExact_same_domain host_cpu_config host_cpu_laws 2
           (ex_expr 1 int_type) (ex_expr 2 int_type) ex_new ex_exprs_unified).
  - apply ex_new_Inv.
  - apply ex_new_caches_valid.
  - vm_compute; reflexivity.
Defined.

Lemma UnifyExprExact_conflict_is_fatal_witness :
  UnifyExprExact host_cpu_config 1 (ex_expr 1 int_type) (ex_expr 2 int_type) ex_exprs = Fatal.
Proof.
  apply (UnifyExprExact_conflict_is_fatal host_cpu_config host_cpu_laws 0
           (ex_expr 1 int_type) (ex_expr 2 int_type) ex_exprs 0 2 cpu0 gpu0).
  - apply ex_exprs_Inv.
  - apply ex_exprs_caches_valid.
  - vm_compute; reflexivity.
  - vm_compute; reflexivity.
  - apply ex_resolved; vm_compute; reflexivity.
  - apply ex_resolved; vm_compute; reflexivity.
  - apply ex_distinct_roots; [vm_compute; reflexivity|vm_compute; reflexivity|lia].
  - vm_compute; reflexivity.
Defined.

Lemma DomainForCallee_stable_witness :
  DomainForCallee host_cpu_config 1 ex_primitive_call ex_primitive = Ok (2, ex_primitive).
Proof.
  apply (DomainForCallee_stable host_cpu_config host_cpu_laws 1 ex_primitive_call ex_new
           2 ex_primitive).
  - apply ex_new_Inv.
  - vm_compute; reflexivity.
Defined.

Lemma device_copy_signature_witness :
  (scope_IsFullyUnconstrained (CanonicalSEScope host_cpu_config cpu0) = true ∨
   scope_IsFullyUnconstrained (CanonicalSEScope host_cpu_config gpu0) = true →
   DomainForCallee host_cpu_config 1 ex_copy_call ex_new = Fatal) ∧
  (scope_IsFullyUnconstrained (CanonicalSEScope host_cpu_config cpu0) = false →
   scope_IsFullyUnconstrained (CanonicalSEScope host_cpu_config gpu0) = false →
   ∃ (d : nat) s' (a r : nat),
     DomainForCallee host_cpu_config 1 ex_copy_call ex_new = Ok (d, s') ∧
     arena s' !! d = Some {| se_scope_ := scope_FullyUnconstrained;
                             args_and_result_ := [a; r] |} ∧
     resolved s' a (CanonicalSEScope host_cpu_config cpu0) ∧
     resolved s' r (CanonicalSEScope host_cpu_config gpu0)).
Proof.
  apply (device_copy_signature host_cpu_config host_cpu_laws 1 ex_copy_call ex_new
           (ex_expr 2 int_type) cpu0 gpu0 0).
  - apply ex_new_Inv.
  - vm_compute; reflexivity.
  - reflexivity.
  - reflexivity.
  - reflexivity.
Defined.

Lemma on_device_signature_witness :
  ∃ (d : nat) s' (a r : nat),
    DomainForCallee host_cpu_config 1 (ex_on_device_call false) ex_new = Ok (d, s') ∧
    arena s' !! d = Some {| se_scope_ := scope_FullyUnconstrained;
                            args_and_result_ := [a; r] |} ∧
    resolved s' a (CanonicalSEScope host_cpu_config gpu0) ∧
    free_resolved s' r ∧ r ≠ a.
Proof.
  apply (on_device_signature host_cpu_config host_cpu_laws 1 (ex_on_device_call false) ex_new
           (ex_expr 2 int_type) gpu0 false 0).
  - apply ex_new_Inv.
  - vm_compute; reflexivity.
  - reflexivity.
  - reflexivity.
  - vm_compute; reflexivity.
Defined.

Lemma host_domain_pinned_witness :
  domain_to_equiv_ ex_fn !! host_domain_ ex_fn = None ∧
  resolved ex_fn (host_domain_ ex_fn) (host_se_scope host_cpu_config) ∧
  ∀ tag, MakeDomain (OtherType tag) (host_se_scope host_cpu_config) ex_fn
         = (host_domain_ ex_fn, ex_fn).
Proof.
  apply (host_domain_pinned host_cpu_config host_cpu_laws ex_fn).
  - apply ex_fn_reachable.
  - reflexivity.
Defined.

Lemma ResultDomain_leaf_witness :
  ∃ (leaf : nat) s' (dl : DeviceDomain),
    ResultDomain 2 3 ex_fn = Ok (leaf, s') ∧
    arena s' = arena ex_fn ∧
    (∀ x rx, root_of (domain_to_equiv_ s') x rx ↔ root_of (domain_to_equiv_ ex_fn) x rx) ∧
    arena ex_fn !! leaf = Some dl ∧ args_and_result_ dl = [] ∧
    domain_to_equiv_ s' !! leaf = None ∧ result_leaf ex_fn 3 leaf.
Proof.
  apply (ResultDomain_leaf 2 3 ex_fn).
  - apply ex_fn_Inv.
  - unfold valid. vm_compute. lia.
  - vm_compute. lia.
Defined.

Lemma IsFullyConstrained_leaves_witness :
  ∃ b s', IsFullyConstrained 2 3 ex_fn = Ok (b, s') ∧
    arena s' = arena ex_fn ∧
    (∀ x rx, root_of (domain_to_equiv_ s') x rx ↔ root_of (domain_to_equiv_ ex_fn) x rx) ∧
    (b = true ↔ leaves_constrained ex_fn 3).
Proof.
  apply (IsFullyConstrained_leaves 2 3 ex_fn).
  - apply ex_fn_Inv.
  - unfold valid. vm_compute. lia.
  - vm_compute. lia.
Defined.

Lemma SetDefault_fully_constrains_witness :
  ∃ s', SetDefault host_cpu_config 2 3 cpu0 ex_fn = Ok (tt, s') ∧
    Inv s' ∧ arena ex_fn `prefix_of` arena s' ∧
    leaves_constrained s' 3 ∧
    (∀ z, constrained_resolved ex_fn z → constrained_resolved s' z) ∧
    ∃ s'', IsFullyConstrained 2 3 s' = Ok (true, s'').
Proof.
  apply (SetDefault_fully_constrains host_cpu_config host_cpu_laws 2 3 cpu0 ex_fn).
  - apply host_cpu_default_completes.
  - reflexivity.
  - apply ex_fn_Inv.
  - unfold valid. vm_compute. lia.
  - vm_compute. lia.
Defined.

Lemma SetResultDefaultThenParams_fully_constrains_witness :
  ∃ s', SetResultDefaultThenParams host_cpu_config 2 3 cpu0 ex_fn = Ok (tt, s') ∧
    Inv s' ∧ leaves_constrained s' 3 ∧
    ∃ s'', IsFullyConstrained 2 3 s' = Ok (true, s'').
Proof.
  apply (SetResultDefaultThenParams_fully_constrains host_cpu_config host_cpu_laws
           2 3 cpu0 ex_fn).
  - apply host_cpu_default_completes.
  - reflexivity.
  - apply ex_fn_Inv.
  - unfold valid. vm_compute. lia.
  - vm_compute. lia.
Defined.

Lemma SetDefault_keeps_constrained_witness :
  (scope_IsFullyUnconstrained cpu0 = true →
   SetDefault host_cpu_config 1 2 cpu0 ex_fn = Fatal) ∧
  (scope_IsFullyUnconstrained cpu0 = false →
   ∃ s', SetDefault host_cpu_config 1 2 cpu0 ex_fn = Ok (tt, s') ∧
     ∀ y sc, resolved ex_fn y sc → resolved s' y sc).
Proof.
  apply (SetDefault_keeps_constrained host_cpu_config host_cpu_laws 0 2 cpu0 ex_fn gpu0).
  - apply host_cpu_default_laws.
  - apply ex_fn_Inv.
  - unfold valid. vm_compute. lia.
  - apply ex_resolved; vm_compute; reflexivity.
  - reflexivity.
  - reflexivity.
Defined.

Lemma SetDefault_fills_unconstrained_witness :
  ∃ s', SetDefault host_cpu_config 1 1 cpu0 ex_fn = Ok (tt, s') ∧
    resolved s' 1 cpu0 ∧
    (∀ y sc, resolved ex_fn y sc → scope_IsFullyUnconstrained sc = false → resolved s' y sc).
Proof.
  apply (SetDefault_fills_unconstrained host_cpu_config host_cpu_laws 0 1 cpu0 ex_fn
           VScope_unconstrained).
  - apply host_cpu_default_laws.
  - apply ex_fn_Inv.
  - unfold valid. vm_compute. lia.
  - apply ex_resolved; vm_compute; reflexivity.
  - reflexivity.
  - reflexivity.
  - reflexivity.
Defined.

Lemma Unify_higher_order_parts_witness :
  length [1; 2] = length [4; 5] ∧
  Forall2 (same_class (domain_to_equiv_ ex_twin_unified)) [1; 2] [4; 5] ∧
  ∃ dj : DeviceDomain, arena ex_twin_unified !! 7 = Some dj ∧
    Forall2 (same_class (domain_to_equiv_ ex_twin_unified)) [1; 2] (args_and_result_ dj).
Proof.
  apply (Unify_higher_order_parts host_cpu_config host_cpu_laws 1 3 6 3 6 7 ex_twin
           {| se_scope_ := VScope_unconstrained; args_and_result_ := [1; 2] |}
           {| se_scope_ := VScope_unconstrained; args_and_result_ := [4; 5] |}
           ex_twin_unified).
  - apply ex_twin_Inv.
  - unfold valid. vm_compute. lia.
  - unfold valid. vm_compute. lia.
  - apply root_of_root. vm_compute; reflexivity.
  - apply root_of_root. vm_compute; reflexivity.
  - lia.
  - vm_compute; reflexivity.
  - vm_compute; reflexivity.
  - discriminate.
  - vm_compute; reflexivity.
Defined.

Lemma UnifyExprExact_domain_unifies_witness :
  ∃ (j : nat) s1, DomainFor (ex_expr 1 int_type) ex_expected = Ok (j, s1) ∧
    root_of (domain_to_equiv_ ex_expected) 2 j.
Proof.
  apply (UnifyExprExact_domain_unifies host_cpu_config host_cpu_laws 2
           (ex_expr 1 int_type) 2 ex_fn ex_expected).
  - apply ex_fn_Inv.
  - apply ex_fn_caches_valid.
  - unfold valid. vm_compute. lia.
  - vm_compute; reflexivity.
Defined.

Lemma UnifyExprCollapsed_unifies_witness :
  ∃ (j : nat) s1, DomainFor (ex_expr 1 int_type) ex_expr_collapsed = Ok (j, s1) ∧
    Forall (λ c, root_of (domain_to_equiv_ ex_expr_collapsed) c j) [1; 2].
Proof.
  apply (UnifyExprCollapsed_unifies host_cpu_config host_cpu_laws 2
           (ex_expr 1 int_type) 3 ex_fn ex_expr_collapsed
           {| se_scope_ := VScope_unconstrained; args_and_result_ := [1; 2] |}).
  - apply ex_fn_Inv.
  - apply ex_fn_caches_valid.
  - vm_compute; reflexivity.
  - vm_compute; reflexivity.
Defined.

Lemma Unify_first_order_scopes_witness :
  ∃ res s', UnifyOrNull host_cpu_config 1 0 2 ex_fn = Ok (res, s') ∧
    res = None ∧ arena s' = arena ex_fn ∧
    ∀ z sc, resolved s' z sc ↔ resolved ex_fn z sc.
Proof.
  apply (Unify_first_order_scopes host_cpu_config host_cpu_laws 0 0 2 ex_fn cpu0 gpu0).
  - apply ex_fn_Inv.
  - apply ex_resolved; vm_compute; reflexivity.
  - apply ex_resolved; vm_compute; reflexivity.
  - apply ex_distinct_roots; [vm_compute; reflexivity|vm_compute; reflexivity|lia].
Defined.

Lemma Unify_never_splits_witness :
  Inv ex_unified ∧ arena ex_fn `prefix_of` arena ex_unified ∧
  (∀ x y, same_class (domain_to_equiv_ ex_fn) x y →
          same_class (domain_to_equiv_ ex_unified) x y) ∧
  (∀ j, Some 0 = Some j →
        root_of (domain_to_equiv_ ex_unified) 1 j ∧ root_of (domain_to_equiv_ ex_unified) 0 j).
Proof.
  apply (Unify_never_splits host_cpu_config host_cpu_laws 2 1 0 ex_fn (Some 0) ex_unified).
  - apply ex_fn_Inv.
  - unfold valid. vm_compute. lia.
  - unfold valid. vm_compute. lia.
  - vm_compute; reflexivity.
Defined.

Lemma fully_constrained_domain_unique_witness :
  2 = 2 ∧ domain_to_equiv_ ex_fn !! 2 = None.
Proof.
  apply (fully_constrained_domain_unique host_cpu_config host_cpu_laws ex_fn 2 2
           {| se_scope_ := gpu0; args_and_result_ := [] |}
           {| se_scope_ := gpu0; args_and_result_ := [] |}).
  - apply ex_fn_reachable.
  - vm_compute; reflexivity.
  - vm_compute; reflexivity.
  - reflexivity.
  - reflexivity.
  - reflexivity.
  - reflexivity.
Defined.

Lemma Lookup_returns_iff_witness :
  (∃ s', Lookup 1 ex_chain = Ok (0, s')) ↔ root_of (domain_to_equiv_ ex_chain) 1 0.
Proof. apply (proj1 (Lookup_returns_iff ex_chain 1) 0). Defined.

Lemma solver_keeps_caches_witness : solver_frame ex_fn ex_unified.
Proof.
  apply (proj1 (proj2 (solver_keeps_caches host_cpu_config 2 1 0 cpu0)) ex_fn (Some 0)).
  vm_compute; reflexivity.
Defined.

Lemma ToString_higher_order_witness :
  ToString 2 7 ex_fn2 = Ok (("fn(" +:+ String.concat "," ["?4?"; "?5?"] +:+ "):" +:+ "?6?")%string,
                            ex_fn2).
Proof.
  apply (ToString_higher_order 1 7 7 6 ex_fn2 ex_fn2
           {| se_scope_ := VScope_unconstrained; args_and_result_ := [4; 5; 6] |}
           [4; 5] ["?4?"; "?5?"]%string ex_fn2 "?6?"%string ex_fn2).
  - vm_compute; reflexivity.
  - vm_compute; reflexivity.
  - reflexivity.
  - eapply rendered_cons; [vm_compute; reflexivity|].
    eapply rendered_cons; [vm_compute; reflexivity|]. apply rendered_nil.
  - vm_compute; reflexivity.
Defined.

Lemma MakeDomain_result_scope_witness :
  ∃ (leaf : nat) s'',
    ResultDomain 2 (MakeDomain (FuncType [int_type] int_type) cpu0 ex_fn).1
      (MakeDomain (FuncType [int_type] int_type) cpu0 ex_fn).2 = Ok (leaf, s'') ∧
    arena (MakeDomain (FuncType [int_type] int_type) cpu0 ex_fn).2 !! leaf =
      Some {| se_scope_ := cpu0; args_and_result_ := [] |}.
Proof.
  apply (MakeDomain_result_scope host_cpu_config host_cpu_laws 2
           (FuncType [int_type] int_type) cpu0 ex_fn).
  - apply ex_fn_Inv.
  - by destruct (MakeDomain (FuncType [int_type] int_type) cpu0 ex_fn).
  - vm_compute. lia.
Defined.
